(** * CountGD application layer (app.py): prompt encoding, keyword token
      filtering, prediction filtering, output labels and heat-map set-up.

    Conventions of the embedding.
    - A Python [str] is a [string]; each [ascii] stands for the code point of
      the same number (the Latin-1 range), and [isspace] is Python's
      [str.isspace] on that range.
    - Python lists are [list]s; an index outside the list raises [IndexError].
    - A raised exception is the left summand of [result].
    - A floating-point number (coordinate, flag, confidence) is the rational
      [Q] it denotes.  Where app.py computes with floats (the threshold of
      the prediction filter, the pixel of a box centre) the result is rounded
      as in [Float]; comparisons and copies are exact. *)

From Stdlib Require Import List Bool Arith ZArith QArith Lia.
From Stdlib Require Import Ascii String DecimalString.
From Stdlib Require Import Qabs Qround.
From Stdlib Require Import Sorted Permutation.
From Stdlib Require Import Reals Qreals FinFun Psatz.
Import ListNotations.

Open Scope bool_scope.
Open Scope nat_scope.

(* ------------------------------------------------------------------ *)
(** ** Exceptions *)

Inductive exn : Type :=
| Exception (msg : string)   (* raise Exception(msg) *)
| ValueError                 (* list.index: value not in list *)
| IndexError                 (* subscript out of range, empty reduction *)
| TypeError.                 (* subscript of None *)

Definition result (A : Type) : Type := (exn + A)%type.

Definition ret {A : Type} (a : A) : result A := inr a.
Definition raise {A : Type} (e : exn) : result A := inl e.
Definition bind {A B : Type} (m : result A) (k : A -> result B) : result B :=
  match m with
  | inl e => inl e
  | inr a => k a
  end.

Notation "x <- m ;; k" := (bind m (fun x => k))
  (at level 61, m at next level, right associativity).

(** [l[i]] for a non-negative index. *)
Definition getitem {A : Type} (l : list A) (i : nat) : result A :=
  match nth_error l i with
  | Some a => ret a
  | None => raise IndexError
  end.

(* ------------------------------------------------------------------ *)
(** ** Python string operations used by app.py *)

Module PyStr.

(** [str.isspace] on code points below 256: TAB..CR, FS..US, space,
    NEL (0x85) and NBSP (0xA0). *)
Definition isspace (c : ascii) : bool :=
  let n := nat_of_ascii c in
  ((9 <=? n) && (n <=? 13)) || ((28 <=? n) && (n <=? 31))
  || (n =? 32) || (n =? 133) || (n =? 160).

Definition is_empty (s : string) : bool :=
  match s with
  | EmptyString => true
  | String _ _ => false
  end.

(** [s + c] for one character. *)
Definition snoc (s : string) (c : ascii) : string :=
  String.append s (String c EmptyString).

(** [text.split()]: maximal runs of non-whitespace characters; [cur] is the
    word being read. *)
Fixpoint split_ws_from (cur : string) (s : string) : list string :=
  match s with
  | EmptyString => if is_empty cur then [] else [cur]
  | String c s' =>
      if isspace c
      then (if is_empty cur then split_ws_from EmptyString s'
            else cur :: split_ws_from EmptyString s')
      else split_ws_from (snoc cur c) s'
  end.

Definition split_ws (s : string) : list string := split_ws_from EmptyString s.

(** [s.split(sep)] for a one-character separator: empty pieces are kept. *)
Fixpoint split_on_from (sep : ascii) (cur : string) (s : string) : list string :=
  match s with
  | EmptyString => [cur]
  | String c s' =>
      if Ascii.eqb c sep
      then cur :: split_on_from sep EmptyString s'
      else split_on_from sep (snoc cur c) s'
  end.

Definition split_on (sep : ascii) (s : string) : list string :=
  split_on_from sep EmptyString s.

Fixpoint lstrip (s : string) : string :=
  match s with
  | EmptyString => EmptyString
  | String c s' => if isspace c then lstrip s' else s
  end.

Fixpoint rstrip (s : string) : string :=
  match s with
  | EmptyString => EmptyString
  | String c s' =>
      let r := rstrip s' in
      if isspace c && is_empty r then EmptyString else String c r
  end.

(** [s.strip()] *)
Definition strip (s : string) : string := rstrip (lstrip s).

(** [x in l] for a list of strings. *)
Definition mem (x : string) (l : list string) : bool :=
  existsb (String.eqb x) l.

(** [l.index(x, start)]: the first position [i >= start] with [l[i] == x];
    [ValueError] when there is none.  [l.index(x)] is [index x l 0]. *)
Fixpoint index_from (x : string) (l : list string) (start pos : nat)
  : option nat :=
  match l with
  | [] => None
  | y :: l' =>
      if (start <=? pos) && String.eqb y x then Some pos
      else index_from x l' start (S pos)
  end.

Definition index (x : string) (l : list string) (start : nat) : result nat :=
  match index_from x l start 0 with
  | Some i => ret i
  | None => raise ValueError
  end.

(** [str(n)] for an [int]. *)
Definition str (n : Z) : string := NilZero.string_of_int (Z.to_int n).

End PyStr.

(** The string is empty or all whitespace. *)
Fixpoint all_space (s : string) : bool :=
  match s with
  | EmptyString => true
  | String c s' => PyStr.isspace c && all_space s'
  end.

(** The last character but one of a string ([zero] when there is none). *)
Definition penultimate (s : string) : ascii :=
  nth 1 (rev (list_ascii_of_string s)) zero.

(* ------------------------------------------------------------------ *)
(** ** Binary floating-point rounding

    The tensors and arrays of app.py hold float32 numbers and a Python
    [float] is a float64.  A floating-point number is the rational it
    denotes; an operation on floats is the exact operation followed by
    rounding to the nearest number of the format, ties to the even
    significand.  Overflow to infinity and NaN are outside the model. *)

Module Float.

(** [x * 2^k] *)
Definition scale2 (x : Q) (k : Z) : Q :=
  if (0 <=? k)%Z then (x * inject_Z (2 ^ k))%Q
  else (x / inject_Z (2 ^ (- k)))%Q.

(** For [x > 0], the exponent [e] with [2^e <= x < 2^(e+1)]. *)
Definition floor_log2 (x : Q) : Z :=
  if Qle_bool 1 x then Z.log2 (Qfloor x)
  else (- Z.log2_up (Qceiling (/ x)))%Z.

(** The nearest integer, the even one in a tie. *)
Definition round_half_even (s : Q) : Z :=
  let f := Qfloor s in
  match ((s - inject_Z f) ?= (1 # 2))%Q with
  | Lt => f
  | Gt => (f + 1)%Z
  | Eq => if Z.even f then f else (f + 1)%Z
  end.

(** The nearest number of the binary format with [prec] bits of significand
    whose last bit has exponent at least [emin]. *)
Definition round_float (prec emin : Z) (x : Q) : Q :=
  if Qeq_bool x 0 then 0%Q
  else
    let a := Qabs x in
    let q := Z.max (floor_log2 a - (prec - 1)) emin in
    let r := scale2 (inject_Z (round_half_even (scale2 a (- q)))) q in
    if Qle_bool 0 x then r else (- r)%Q.

Definition float32 : Q -> Q := round_float 24 (-149).
Definition float64 : Q -> Q := round_float 53 (-1074).

End Float.

(* ------------------------------------------------------------------ *)
(** ** Prompt encoder: [get_box_inputs] *)

(** A prompt is a Python list of numbers; the UI produces
    [(x1, y1, flag1, x2, y2, flag2)]. *)
Definition prompt : Type := list Q.

(** The loop of [get_box_inputs]; [box_inputs] is the list being built.
    [and] is short-circuit: [prompt[5]] is read only when
    [prompt[2] == 2.0]. *)
Fixpoint get_box_inputs_loop (prompts : list prompt) (box_inputs : list (list Q))
  : result (list (list Q)) :=
  match prompts with
  | [] => ret box_inputs
  | p :: rest =>
      p2 <- getitem p 2 ;;
      if Qeq_bool p2 2 then
        p5 <- getitem p 5 ;;
        if Qeq_bool p5 3 then
          x1 <- getitem p 0 ;;
          y1 <- getitem p 1 ;;
          x2 <- getitem p 3 ;;
          y2 <- getitem p 4 ;;
          get_box_inputs_loop rest (box_inputs ++ [[x1; y1; x2; y2]])
        else get_box_inputs_loop rest box_inputs
      else get_box_inputs_loop rest box_inputs
  end.

Definition get_box_inputs (prompts : list prompt) : result (list (list Q)) :=
  get_box_inputs_loop prompts [].

(** A prompt given as a 6-tuple, and the list it is in Python. *)
Definition prompt6 : Type := (Q * Q * Q * Q * Q * Q)%type.

Definition prompt_of (t : prompt6) : prompt :=
  let '(x1, y1, flag1, x2, y2, flag2) := t in [x1; y1; flag1; x2; y2; flag2].

Definition is_box_prompt (t : prompt6) : bool :=
  let '(_, _, flag1, _, _, flag2) := t in Qeq_bool flag1 2 && Qeq_bool flag2 3.

Definition exemplar_box (t : prompt6) : list Q :=
  let '(x1, y1, _, x2, y2, _) := t in [x1; y1; x2; y2].

(* ------------------------------------------------------------------ *)
(** ** Token filter: [get_ind_to_filter] *)

(** The exception raised for a keyword that is not a word of the text. *)
Definition keyword_error : exn :=
  Exception "Only specify keywords in the input text!".

(** The offset from which the next keyword is searched. *)
Definition search_start (word_inds : list nat) : nat :=
  if List.length word_inds <=? 0 then 0 else last word_inds 0.

(** The first loop of [get_ind_to_filter]: the word position of every
    keyword, in the order of the keywords.  The first keyword is searched
    from the start of the text, every later one from the position of the
    previous match ([input_words.index(keyword, word_inds[-1])]). *)
Fixpoint match_keywords (input_words keywords : list string)
    (word_inds : list nat) : result (list nat) :=
  match keywords with
  | [] => ret word_inds
  | keyword :: rest =>
      if PyStr.mem keyword input_words then
        if List.length word_inds <=? 0 then
          ind <- PyStr.index keyword input_words 0 ;;
          match_keywords input_words rest (word_inds ++ [ind])
        else
          ind <- PyStr.index keyword input_words (last word_inds 0) ;;
          match_keywords input_words rest (word_inds ++ [ind])
      else raise keyword_error
  end.

(** [word_id in word_inds]; a word id is [None] for a special token. *)
Definition word_id_in (word_id : option nat) (word_inds : list nat) : bool :=
  match word_id with
  | Some w => existsb (Nat.eqb w) word_inds
  | None => false
  end.

(** The second loop: [for ind in range(len(word_ids))]. *)
Fixpoint select_inds (word_ids : list (option nat)) (word_inds : list nat)
    (ind : nat) (inds_to_filter : list nat) : list nat :=
  match word_ids with
  | [] => inds_to_filter
  | word_id :: rest =>
      if word_id_in word_id word_inds
      then select_inds rest word_inds (S ind) (inds_to_filter ++ [ind])
      else select_inds rest word_inds (S ind) inds_to_filter
  end.

(** [keywords.split(",")] followed by [strip] of every piece. *)
Definition parse_keywords (keywords : string) : list string :=
  map PyStr.strip (PyStr.split_on "," keywords).

Definition get_ind_to_filter (text : string) (word_ids : list (option nat))
    (keywords : string) : result (list nat) :=
  if String.length keywords <=? 0 then ret (seq 0 (List.length word_ids))
  else
    let input_words := PyStr.split_ws text in
    let keywords := parse_keywords keywords in
    word_inds <- match_keywords input_words keywords [] ;;
    ret (select_inds word_ids word_inds 0 []).

(** [q] is the first position at or after [start] where [k] occurs. *)
Definition first_at_or_after (input_words : list string) (k : string)
    (start q : nat) : Prop :=
  start <= q /\ nth_error input_words q = Some k
  /\ forall j, start <= j -> j < q -> nth_error input_words j <> Some k.

(** The word ids of the example of the specification. *)
Definition red_car_word_ids : list (option nat) := [Some 0; Some 0; Some 1; Some 2].

(* ------------------------------------------------------------------ *)
(** ** Prediction filter: [get_boxes_from_prediction] *)

(** [CONF_THRESH = 0.23]: the Python float written 0.23. *)
Definition CONF_THRESH : Q := Float.float64 (23 # 100).

(** The threshold as a float32 tensor is compared with it: the scalar is
    converted to the type of the tensor. *)
Definition CONF_THRESH_float32 : Q := Float.float32 CONF_THRESH.

(** A two-dimensional tensor: [rows] has one list per instance, each of
    [ncols] entries. *)
Record Tensor2 : Type := mkTensor2 {
  ncols : nat;
  rows : list (list Q)
}.

Definition tensor_wf (t : Tensor2) : Prop :=
  Forall (fun row => List.length row = ncols t) (rows t).

(** The tokenizer's encoding of one caption: one word id per token. *)
Record Encoding : Type := mkEncoding {
  word_ids : list (option nat)
}.

(** The dictionary returned by the model, one entry per image of the
    batch under every key. *)
Record ModelOutput : Type := mkModelOutput {
  token : list Encoding;
  pred_logits : list Tensor2;
  pred_boxes : list (list (list Q))
}.

(** [t[:, inds]]: an index beyond the last column raises, unless the tensor
    has no rows (nothing is read then and the result is empty). *)
Definition take_columns (t : Tensor2) (inds : list nat) : result Tensor2 :=
  if (List.length (rows t) =? 0) || forallb (fun i => i <? ncols t) inds
  then ret (mkTensor2 (List.length inds)
              (map (fun row => map (fun i => nth i row 0%Q) inds) (rows t)))
  else raise IndexError.

(** [x > CONF_THRESH] for an entry [x] of a float32 tensor. *)
Definition gt_thresh (x : Q) : bool := negb (Qle_bool x CONF_THRESH_float32).

(** [.sum(dim=-1)] of a row of booleans. *)
Definition sum_true (l : list bool) : nat :=
  fold_left (fun acc (b : bool) => if b then S acc else acc) l 0.

Definition Qmaxb (a b : Q) : Q := if Qle_bool a b then b else a.

(** [t.max(dim=-1).values]: a reduction over zero columns raises. *)
Definition max_rows (t : Tensor2) : result (list Q) :=
  if ncols t =? 0 then raise IndexError
  else ret (map (fun row => fold_left Qmaxb (tl row) (hd 0%Q row)) (rows t)).

(** [xs[mask, :]]: the rows where the mask is true; the mask has to have
    one entry per row. *)
Definition select_rows {A : Type} (mask : list bool) (xs : list A) : list A :=
  map snd (filter fst (combine mask xs)).

Definition mask_rows {A : Type} (mask : list bool) (xs : list A)
  : result (list A) :=
  if List.length mask =? List.length xs
  then ret (select_rows mask xs)
  else raise IndexError.

Section PredictionFilter.

(** The logistic function on confidences; only its values matter here. *)
Variable sigmoid : Q -> Q.

Definition sigmoid_tensor (t : Tensor2) : Tensor2 :=
  mkTensor2 (ncols t) (map (map sigmoid) (rows t)).

(** The confidence, after the sigmoid, of token [i] for the instance whose
    logits are [row]. *)
Definition confidence (row : list Q) (i : nat) : Q := sigmoid (nth i row 0%Q).

Definition get_boxes_from_prediction (model_output : ModelOutput)
    (text keywords : string) : result (list (list Q) * list (list Q)) :=
  enc <- getitem (token model_output) 0 ;;
  ind_to_filter <- get_ind_to_filter text (word_ids enc) keywords ;;
  logits0 <- getitem (map sigmoid_tensor (pred_logits model_output)) 0 ;;
  logits <- take_columns logits0 ind_to_filter ;;
  boxes <- getitem (pred_boxes model_output) 0 ;;
  box_mask <-
    (if 0 <? String.length (PyStr.strip keywords)
     then ret (map (fun row => sum_true (map gt_thresh row)
                               =? List.length ind_to_filter) (rows logits))
     else (m <- max_rows logits ;; ret (map gt_thresh m))) ;;
  boxes' <- mask_rows box_mask boxes ;;
  logits' <- mask_rows box_mask (rows logits) ;;
  ret (boxes', logits').

(* ---------------------------------------------------------------- *)
(** ** Inference driver: [preprocess] and [predict] *)

(** The image type, the transformed image tensor and the device are
    opaque; the transform pipeline and the model are the caller's. *)
Variables Image ImageTensor Device : Type.

(** The target dictionary of a transform: its ["exemplars"] entry. *)
Definition Target : Type := list (list Q).

Definition Transform : Type :=
  Image -> option Target -> result (ImageTensor * option Target).

(** The model applied to the batched images, the exemplar list and the
    captions of a batch of one image. *)
Definition Model : Type :=
  Device -> ImageTensor -> ImageTensor -> list Target -> list string ->
  result ModelOutput.

(** The prompts dictionary: [{"image": ..., "points": [...]}]. *)
Record Prompts : Type := mkPrompts {
  prompts_image : Image;
  prompts_points : list prompt
}.

Definition preprocess (transform : Transform) (image : Image)
    (input_prompts : option Prompts)
  : result (ImageTensor * ImageTensor * Target) :=
  let prompts :=
    match input_prompts with
    | None => mkPrompts image []
    | Some p => p
    end in
  r <- transform image None ;;
  let input_image := fst r in
  exemplar <- get_box_inputs (prompts_points prompts) ;;
  r' <- transform (prompts_image prompts) (Some exemplar) ;;
  let input_image_exemplar := fst r' in
  match snd r' with
  | Some exemplar' => ret (input_image, input_image_exemplar, exemplar')
  | None => raise TypeError
  end.

Definition predict (model : Model) (transform : Transform) (image : Image)
    (text : string) (prompts : option Prompts) (device : Device)
  : result (list (list Q) * list (list Q)) :=
  let keywords := EmptyString in
  p <- preprocess transform image prompts ;;
  let '(input_image, input_image_exemplar, exemplar) := p in
  model_output <-
    model device input_image input_image_exemplar [exemplar]
          [String.append text " ."] ;;
  let keywords := EmptyString in
  get_boxes_from_prediction model_output text keywords.

End PredictionFilter.

Arguments mkPrompts {Image} _ _.
Arguments prompts_image {Image} _.
Arguments prompts_points {Image} _.
Arguments preprocess {Image ImageTensor} _ _ _.
Arguments predict sigmoid {Image ImageTensor Device} _ _ _ _ _ _.

(* ------------------------------------------------------------------ *)
(** ** Output label: [generate_output_label] *)

Definition generate_output_label (text : string) (num_exemplars : Z) : string :=
  let out_label := "Detected instances predicted with"%string in
  if 0 <? String.length (PyStr.strip text) then
    let out_label := String.append out_label " text" in
    if (num_exemplars =? 1)%Z then
      String.append out_label
        (String.append " and "
           (String.append (PyStr.str num_exemplars) " visual exemplar."))
    else if (1 <? num_exemplars)%Z then
      String.append out_label
        (String.append " and "
           (String.append (PyStr.str num_exemplars) " visual exemplars."))
    else String.append out_label "."
  else if (0 <? num_exemplars)%Z then
    if (num_exemplars =? 1)%Z then
      String.append out_label
        (String.append " "
           (String.append (PyStr.str num_exemplars) " visual exemplar."))
    else
      String.append out_label
        (String.append " "
           (String.append (PyStr.str num_exemplars) " visual exemplars."))
  else "Nothing specified to detect."%string.

(** The part of a label before the exemplar count. *)
Definition label_prefix (text : string) : string :=
  if all_space text then "Detected instances predicted with"%string
  else "Detected instances predicted with text and"%string.

(* ------------------------------------------------------------------ *)
(** ** Heat map: [generate_heatmap] *)

(** [np.zeros((h, w))] *)
Definition zeros (h w : Z) : list (list Q) :=
  repeat (repeat 0%Q (Z.to_nat w)) (Z.to_nat h).

(** [.astype(int)]: truncation towards zero. *)
Definition astype_int (x : Q) : Z := Z.quot (Qnum x) (Zpos (Qden x)).

(** An index into an axis of length [n]: negative indices count from the
    end, anything outside [-n, n) raises. *)
Definition axis_index (n i : Z) : result nat :=
  if ((0 <=? i) && (i <? n))%Z then ret (Z.to_nat i)
  else if ((- n <=? i) && (i <? 0))%Z then ret (Z.to_nat (i + n))
  else raise IndexError.

Fixpoint set_nth {A : Type} (l : list A) (i : nat) (v : A) : list A :=
  match l, i with
  | [], _ => []
  | _ :: l', O => v :: l'
  | x :: l', S i' => x :: set_nth l' i' v
  end.

(** [grid[r][c] = v] *)
Definition set2 (grid : list (list Q)) (r c : nat) (v : Q) : list (list Q) :=
  set_nth grid r (set_nth (nth r grid []) c v).

(** [det_map[rs, cs] = 1] for paired index arrays. *)
Fixpoint set_impulses (h w : Z) (det_map : list (list Q))
    (centres : list (Z * Z)) : result (list (list Q)) :=
  match centres with
  | [] => ret det_map
  | (r, c) :: rest =>
      r' <- axis_index h r ;;
      c' <- axis_index w c ;;
      set_impulses h w (set2 det_map r' c' 1%Q) rest
  end.

(** One entry of [(n * xs).astype(int)] for a Python int [n] and a float32
    array [xs]: numpy converts [n] to float32, multiplies in float32 (the
    exact product rounded to the nearest float32) and [astype(int)] truncates
    the rounded product. *)
Definition scaled_pixel (n : Z) (x : Q) : Z :=
  astype_int (Float.float32 (Float.float32 (inject_Z n) * x)).

(** [(h * boxes[:, 1]).astype(int)] paired with
    [(w * boxes[:, 0]).astype(int)]. *)
Fixpoint centres_of (h w : Z) (boxes : list (list Q)) : result (list (Z * Z)) :=
  match boxes with
  | [] => ret []
  | box :: rest =>
      y <- getitem box 1 ;;
      x <- getitem box 0 ;;
      cs <- centres_of h w rest ;;
      ret ((scaled_pixel h y, scaled_pixel w x) :: cs)
  end.

(** [sigma=(w // 200, w // 200)] *)
Definition heatmap_sigma (w : Z) : Z * Z := ((w / 200)%Z, (w / 200)%Z).

(** [det_map] before the Gaussian filter (line 170 of app.py). *)
Definition det_map_impulses (w h : Z) (boxes : list (list Q))
  : result (list (list Q)) :=
  centres <- centres_of h w boxes ;;
  set_impulses h w (zeros h w) centres.

Section Heatmap.

Variable Image : Type.
(** The filtered array; its entries are not rational in general. *)
Variable Density : Type.
(** [image.size] is [(w, h)]. *)
Variable size : Image -> Z * Z.
(** [scipy.ndimage.gaussian_filter(input, sigma=..., order=0)] *)
Variable gaussian_filter : list (list Q) -> Z * Z -> Density.
(** Drawing the image with the density map on top and reading back the
    saved PNG. *)
Variable render : Image -> Density -> Image.

(** [det_map] after the Gaussian filter (line 171). *)
Definition det_map_density (image : Image) (boxes : list (list Q))
  : result Density :=
  let '(w, h) := size image in
  det_map <- det_map_impulses w h boxes ;;
  ret (gaussian_filter det_map (heatmap_sigma w)).

Definition generate_heatmap (image : Image) (boxes : list (list Q))
  : result Image :=
  det_map <- det_map_density image boxes ;;
  ret (render image det_map).

End Heatmap.

Arguments det_map_density Image {Density} size gaussian_filter image boxes.
Arguments generate_heatmap Image {Density} size gaussian_filter render image boxes.

(** [grid[r][c]] *)
Definition entry (grid : list (list Q)) (r c : nat) : Q :=
  nth c (nth r grid []) 0%Q.

(** A grid of [H] rows of [W] entries each. *)
Definition grid_dims (H W : nat) (grid : list (list Q)) : Prop :=
  List.length grid = H /\ Forall (fun row => List.length row = W) grid.

(** A box [[x; y; ...]] whose centre [(x, y)] has both coordinates in
    [[0, 1)]. *)
Definition centre_in_unit_square (box : list Q) : Prop :=
  exists x y rest,
    box = x :: y :: rest /\ (0 <= x)%Q /\ (x < 1)%Q /\ (0 <= y)%Q /\ (y < 1)%Q.

(** The largest float32 number below 1, [1 - 2^-24]. *)
Definition float32_below_1 : Q := 16777215 # 16777216.

(** A box [[x; y; ...]] whose centre coordinates are at least 0 and at most
    the largest float32 number below 1: every float32 centre in [[0, 1)]
    is of this kind. *)
Definition centre_in_float32_unit_square (box : list Q) : Prop :=
  exists x y rest,
    box = x :: y :: rest
    /\ (0 <= x)%Q /\ (x <= float32_below_1)%Q
    /\ (0 <= y)%Q /\ (y <= float32_below_1)%Q.

(** Some box has the pixel of row [r] and column [c] as the pixel that
    [generate_heatmap] computes from its centre. *)
Definition centre_at (h w : Z) (boxes : list (list Q)) (r c : nat) : Prop :=
  exists x y rest,
    In (x :: y :: rest) boxes
    /\ scaled_pixel h y = Z.of_nat r
    /\ scaled_pixel w x = Z.of_nat c.

(** The pixel (row, column) that [generate_heatmap] computes for a box. *)
Definition centre_pixel (h w : Z) (box : list Q) : Z * Z :=
  (scaled_pixel h (nth 1 box 0%Q), scaled_pixel w (nth 0 box 0%Q)).

(** A numpy index [i] of an axis of length [n], counted from the end when
    negative. *)
Definition wrap_index (n i : Z) : nat :=
  Z.to_nat (if (0 <=? i)%Z then i else (i + n)%Z).

(** The pixel (row [r], column [c]) is the one that some listed pair of
    indices addresses. *)
Definition is_wrapped_centre (h w : Z) (centres : list (Z * Z)) (r c : nat) : bool :=
  existsb (fun rc => (r =? wrap_index h (fst rc)) && (c =? wrap_index w (snd rc)))
          centres.

(** Modelled from the spec: [scipy.ndimage.gaussian_filter] is a library
    function and not part of app.py.  The model follows its documented
    behaviour for [order=0] with the default [mode='reflect'] and
    [truncate=4.0]: one pass along each axis with the weights
    [exp(-i^2 / (2 sigma^2))] for [-4 sigma <= i <= 4 sigma], normalised to
    sum 1; outside the array the input is mirrored about its edge; an axis
    whose sigma is 0 is left as it is.  The weights and the sums are real
    numbers: the rounding of the float64 arithmetic is not modelled. *)
Module Gaussian.

(** [lw = int(truncate * sigma + 0.5)] for an integer [sigma]. *)
Definition radius (sigma : Z) : Z := (4 * sigma)%Z.

(** The offsets [-radius, ..., radius]. *)
Definition offsets (sigma : Z) : list Z :=
  map (fun k => (Z.of_nat k - radius sigma)%Z)
      (seq 0 (Z.to_nat (2 * radius sigma + 1))).

Definition phi (sigma i : Z) : R :=
  exp (- (IZR (i * i) / (2 * IZR (sigma * sigma)))).

Definition Rsum (l : list R) : R := fold_right Rplus 0%R l.

(** The normalised weight at offset [i]. *)
Definition weight (sigma i : Z) : R :=
  (phi sigma i / Rsum (map (phi sigma) (offsets sigma)))%R.

(** Index [i] mirrored into [[0, n)], the 'reflect' border mode
    ([d c b a | a b c d | d c b a]). *)
Definition reflect (n i : Z) : Z :=
  let p := (i mod (2 * n))%Z in
  if (p <? n)%Z then p else (2 * n - 1 - p)%Z.

(** One output entry of the pass along a line of length [n]. *)
Definition correlate1d (sigma n : Z) (line : Z -> R) (k : Z) : R :=
  Rsum (map (fun i => (weight sigma i * line (reflect n (k + i)%Z))%R)
            (offsets sigma)).

(** The filter: the pass along axis 0 with [sigma[0]], then the pass along
    axis 1 with [sigma[1]]; a pass with sigma 0 is skipped. *)
Definition gaussian_filter (input : list (list Q)) (sigma : Z * Z)
  : list (list R) :=
  let h := List.length input in
  let w := List.length (nth 0 input []) in
  let in0 (r c : Z) : R := Q2R (entry input (Z.to_nat r) (Z.to_nat c)) in
  let pass0 (r c : Z) : R :=
    if (0 <? fst sigma)%Z
    then correlate1d (fst sigma) (Z.of_nat h) (fun r' => in0 r' c) r
    else in0 r c in
  let pass1 (r c : Z) : R :=
    if (0 <? snd sigma)%Z
    then correlate1d (snd sigma) (Z.of_nat w) (fun c' => pass0 r c') c
    else pass0 r c in
  map (fun r => map (fun c => pass1 (Z.of_nat r) (Z.of_nat c)) (seq 0 w))
      (seq 0 h).

(** [density[r][c]] *)
Definition entry (grid : list (list R)) (r c : nat) : R :=
  nth c (nth r grid []) 0%R.

(** The weight that an impulse at distance [d] along one axis leaves, when
    no mirrored copy of it is within reach. *)
Definition spread (sigma d : Z) : R :=
  if (Z.abs d <=? radius sigma)%Z then weight sigma d else 0%R.

End Gaussian.

(** The pixel (row [r], column [c]) is one of the listed centres. *)
Definition is_centre (centres : list (Z * Z)) (r c : nat) : bool :=
  existsb (fun rc => (Z.of_nat r =? fst rc)%Z && (Z.of_nat c =? snd rc)%Z) centres.

(* ------------------------------------------------------------------ *)
(** ** Concrete inputs for the examples *)

(** A rational stand-in for the logistic function, to evaluate examples:
    increasing, with values strictly between 0 and 1, and 1/2 at 0. *)
Definition rational_sigmoid (x : Q) : Q := ((1 + x / (1 + Qabs x)) / 2)%Q.

(** The tokens of "a red car ." with the special tokens at both ends. *)
Definition red_car_encoding : Encoding :=
  mkEncoding [None; Some 0; Some 1; Some 2; Some 3; None].

(** Two instances; the first is confident for "red" only, the second for
    "car" only. *)
Definition red_car_output : ModelOutput :=
  mkModelOutput [red_car_encoding]
    [mkTensor2 6 [[-3; -3; 2; -3; -3; -3]; [-3; -3; -3; 2; -3; -3]]%Q]
    [[[1 # 4; 1 # 4; 1 # 10; 1 # 10]; [3 # 4; 3 # 4; 1 # 10; 1 # 10]]%Q].

(** One instance with low confidence everywhere, and an encoding in which no
    token belongs to word 1. *)
Definition no_token_output : ModelOutput :=
  mkModelOutput [mkEncoding [None; Some 0; Some 2; None]]
    [mkTensor2 4 [[-3; -3; -3; -3]]%Q]
    [[[1 # 2; 1 # 2; 1 # 10; 1 # 10]]%Q].

(** A transform that leaves the target as it is, and a model that returns
    [red_car_output] whatever it is given; images are of type [unit]. *)
Definition identity_transform : unit -> option Target -> result (unit * option Target) :=
  fun image target => ret (image, target).

Definition constant_model : unit -> unit -> unit -> list Target -> list string ->
                            result ModelOutput :=
  fun _ _ _ _ _ => ret red_car_output.

(** A stand-in for the Gaussian filter that only reports the sigma it is
    given, one entry per axis. *)
Definition sigma_probe (det_map : list (list Q)) (sigma : Z * Z) : list (list Q) :=
  [[inject_Z (fst sigma); inject_Z (snd sigma)]].

(* ------------------------------------------------------------------ *)
(** ** Further definitions for the properties of the whole file *)

(** The subscripts that [get_box_inputs] evaluates on a prompt are in range:
    [prompt[2]] always, and [prompt[5]] (hence all six) when
    [prompt[2] == 2.0]. *)
Definition prompt_readable (p : prompt) : bool :=
  match nth_error p 2 with
  | None => false
  | Some flag1 => if Qeq_bool flag1 2 then 6 <=? List.length p else true
  end.

(** The test and the box of [get_box_inputs] on a prompt of any length. *)
Definition is_box_list (p : prompt) : bool :=
  Qeq_bool (nth 2 p 0%Q) 2 && Qeq_bool (nth 5 p 0%Q) 3.

Definition box_of_list (p : prompt) : list Q :=
  [nth 0 p 0%Q; nth 1 p 0%Q; nth 3 p 0%Q; nth 4 p 0%Q].

(** The mask of [get_boxes_from_prediction] for a non-empty keyword spec. *)
Definition and_mask (sigmoid : Q -> Q) (inds : list nat) (logit_rows : list (list Q))
  : list bool :=
  map (fun row => sum_true (map gt_thresh (map (confidence sigmoid row) inds))
                  =? List.length inds) logit_rows.

(** The mask of [get_boxes_from_prediction] for the empty keyword spec. *)
Definition max_mask (sigmoid : Q -> Q) (inds : list nat) (logit_rows : list (list Q))
  : list bool :=
  map (fun row =>
         gt_thresh (fold_left Qmaxb (tl (map (confidence sigmoid row) inds))
                              (hd 0%Q (map (confidence sigmoid row) inds))))
      logit_rows.

(** The confidences of the selected tokens, one row per instance. *)
Definition selected_confidences (sigmoid : Q -> Q) (inds : list nat)
    (logit_rows : list (list Q)) : list (list Q) :=
  map (fun row => map (confidence sigmoid row) inds) logit_rows.

(** A pixel that numpy accepts as an index pair of an [h]-by-[w] array. *)
Definition pixel_in_grid (h w : Z) (rc : Z * Z) : bool :=
  ((- h <=? fst rc) && (fst rc <? h) && ((- w <=? snd rc) && (snd rc <? w)))%Z.

(** A box from which [generate_heatmap] can read a centre inside the grid. *)
Definition box_in_grid (h w : Z) (box : list Q) : bool :=
  (2 <=? List.length box) && pixel_in_grid h w (centre_pixel h w box).

(* ------------------------------------------------------------------ *)
(** ** Model set-up: the configuration loop of [build_model_and_transforms] *)

(** [raise ValueError(msg)] of the configuration loop. *)
Inductive config_exn : Type :=
| ConfigValueError (msg : string).

(** ["Key {} can used by args only".format(k)] *)
Definition collision_message (k : string) : string :=
  String.append "Key " (String.append k " can used by args only").

Section ConfigMerge.

(** The values of options are arbitrary objects. *)
Variable Value : Type.

(** [vars(args)]: the attributes of the namespace, in insertion order. *)
Definition Namespace : Type := list (string * Value).

(** [k in args_vars] *)
Definition has_attr (args : Namespace) (k : string) : bool :=
  existsb (fun kv => String.eqb (fst kv) k) args.

(** [getattr(args, k)], [None] for a missing attribute. *)
Fixpoint get_attr (args : Namespace) (k : string) : option Value :=
  match args with
  | [] => None
  | (k', v) :: rest => if String.eqb k' k then Some v else get_attr rest k
  end.

(** [setattr(args, k, v)]: an existing attribute is replaced in place, a new
    one is added at the end. *)
Fixpoint setattr (args : Namespace) (k : string) (v : Value) : Namespace :=
  match args with
  | [] => [(k, v)]
  | (k', v') :: rest =>
      if String.eqb k' k then (k', v) :: rest else (k', v') :: setattr rest k v
  end.

(** Lines 102-107: [for k, v in cfg_dict.items()].  [args_vars] is the
    dictionary of [args] itself, so every test sees the attributes set by the
    earlier iterations. *)
Fixpoint merge_cfg (cfg_items : list (string * Value)) (args : Namespace)
  : config_exn + Namespace :=
  match cfg_items with
  | [] => inr args
  | (k, v) :: rest =>
      if negb (has_attr args k) then merge_cfg rest (setattr args k v)
      else inl (ConfigValueError (collision_message k))
  end.

End ConfigMerge.

Arguments has_attr {Value} _ _.
Arguments get_attr {Value} _ _.
Arguments setattr {Value} _ _ _.
Arguments merge_cfg {Value} _ _.

(* ================================================================== *)
(** * Properties *)

(* ------------------------------------------------------------------ *)
(** ** The error monad *)

Lemma bind_inr {A B : Type} (m : result A) (k : A -> result B) (b : B) :
  bind m k = inr b -> exists a, m = inr a /\ k a = inr b.
Proof.
  destruct m as [e | a]; simpl; intros H; [discriminate | eauto].
Qed.

Lemma bind_inl {A B : Type} (m : result A) (k : A -> result B) (e : exn) :
  bind m k = inl e -> m = inl e \/ exists a, m = inr a /\ k a = inl e.
Proof.
  destruct m as [e' | a]; simpl; intros H; [left; congruence | right; eauto].
Qed.

Lemma getitem_nth_error {A : Type} (l : list A) (i : nat) (a : A) :
  nth_error l i = Some a -> getitem l i = inr a.
Proof. unfold getitem; intros ->; reflexivity. Qed.

(* ------------------------------------------------------------------ *)
(** ** Prompt encoder *)

Lemma get_box_inputs_loop_tuples (ps : list prompt6) (acc : list (list Q)) :
  get_box_inputs_loop (map prompt_of ps) acc =
  inr (acc ++ map exemplar_box (filter is_box_prompt ps)).
Proof.
  revert acc; induction ps as [| t ps IH]; intros acc; simpl.
  - now rewrite app_nil_r.
  - destruct t as [[[[[x1 y1] f1] x2] y2] f2]; simpl.
    destruct (Qeq_bool f1 2); simpl.
    + destruct (Qeq_bool f2 3); simpl.
      * rewrite IH, <- app_assoc; reflexivity.
      * apply IH.
    + apply IH.
Qed.

(** C4. [get_box_inputs] applied to 6-tuples never raises; it returns, in
    the order of the input, the coordinates [(x1, y1, x2, y2)] of exactly
    the prompts whose third element equals 2.0 and whose sixth element
    equals 3.0; the empty list gives the empty list. *)
Theorem get_box_inputs_spec :
  (forall ps : list prompt6,
      get_box_inputs (map prompt_of ps) =
      inr (map exemplar_box (filter is_box_prompt ps)))
  /\ (forall x1 y1 f1 x2 y2 f2 : Q,
         is_box_prompt (x1, y1, f1, x2, y2, f2) = true <->
         (f1 == 2 /\ f2 == 3)%Q)
  /\ (forall x1 y1 f1 x2 y2 f2 : Q,
         exemplar_box (x1, y1, f1, x2, y2, f2) = [x1; y1; x2; y2])
  /\ get_box_inputs [] = inr [].
Proof.
  split; [| split; [| split]].
  - intros ps; unfold get_box_inputs.
    now rewrite get_box_inputs_loop_tuples.
  - intros; simpl. rewrite andb_true_iff, !Qeq_bool_iff. reflexivity.
  - reflexivity.
  - reflexivity.
Qed.

(* ------------------------------------------------------------------ *)
(** ** Strings and word lists *)

Lemma append_nil_r (s : string) : String.append s EmptyString = s.
Proof. induction s; simpl; congruence. Qed.

Lemma append_assoc (a b c : string) :
  String.append (String.append a b) c = String.append a (String.append b c).
Proof. induction a; simpl; congruence. Qed.

Lemma mem_In (x : string) (l : list string) :
  PyStr.mem x l = true <-> In x l.
Proof.
  unfold PyStr.mem. rewrite existsb_exists. split.
  - intros [y [Hy He]]. apply String.eqb_eq in He. now subst.
  - intros H. exists x. split; [exact H | apply String.eqb_refl].
Qed.

Lemma snoc_not_empty (s : string) (c : ascii) : PyStr.is_empty (PyStr.snoc s c) = false.
Proof. destruct s; reflexivity. Qed.

Lemma split_ws_from_nonempty (s cur w : string) :
  In w (PyStr.split_ws_from cur s) -> w <> EmptyString \/ (w = cur /\ PyStr.is_empty cur = false).
Proof.
  revert cur; induction s as [| c s IH]; intros cur; simpl.
  - destruct (PyStr.is_empty cur) eqn:E; simpl; [tauto |].
    intros [<- | []]. right; split; [reflexivity | auto].
  - destruct (PyStr.isspace c).
    + destruct (PyStr.is_empty cur) eqn:E.
      * intros H. destruct (IH _ H) as [H1 | [_ H1]]; [now left | discriminate].
      * intros [<- | H]; [right; split; [reflexivity | auto] |].
        destruct (IH _ H) as [H1 | [_ H1]]; [now left | discriminate].
    + intros H. destruct (IH _ H) as [H1 | [-> H1]]; [now left |].
      left. intros E. rewrite E in H1. discriminate.
Qed.

(** [text.split()] has no empty word. *)
Lemma split_ws_no_empty (s : string) : ~ In EmptyString (PyStr.split_ws s).
Proof.
  intros H. apply split_ws_from_nonempty in H.
  destruct H as [H | [_ H]]; [now apply H | discriminate].
Qed.

Lemma rstrip_keeps_head (c : ascii) (s : string) :
  PyStr.isspace c = false -> PyStr.rstrip (String c s) = String c (PyStr.rstrip s).
Proof. intros H; simpl; now rewrite H. Qed.

Lemma lstrip_cases (s : string) :
  (PyStr.lstrip s = EmptyString /\ all_space s = true)
  \/ exists c s', PyStr.lstrip s = String c s' /\ PyStr.isspace c = false.
Proof.
  induction s as [| c s IH]; simpl.
  - now left.
  - destruct (PyStr.isspace c) eqn:E; simpl.
    + exact IH.
    + right; eauto.
Qed.

Lemma strip_empty_all_space (s : string) :
  PyStr.strip s = EmptyString -> all_space s = true.
Proof.
  unfold PyStr.strip.
  destruct (lstrip_cases s) as [[_ H] | [c [s' [E Hc]]]]; [intros _; exact H |].
  rewrite E, rstrip_keeps_head by exact Hc. discriminate.
Qed.

Lemma all_space_strip (s : string) :
  all_space s = true -> PyStr.strip s = EmptyString.
Proof.
  unfold PyStr.strip. induction s as [| c s IH]; simpl; [reflexivity |].
  intros H. apply andb_true_iff in H as [-> H]. now apply IH.
Qed.

Lemma split_on_all_space (s cur : string) :
  all_space s = true ->
  PyStr.split_on_from "," cur s = [String.append cur s].
Proof.
  revert cur; induction s as [| c s IH]; intros cur; simpl.
  - intros _. now rewrite append_nil_r.
  - intros H. apply andb_true_iff in H as [Hc H].
    destruct (Ascii.eqb c ",") eqn:E.
    + apply Ascii.eqb_eq in E. subst c. discriminate.
    + rewrite IH by exact H. unfold PyStr.snoc. f_equal.
      now rewrite append_assoc.
Qed.

Lemma parse_keywords_blank (keywords : string) :
  PyStr.strip keywords = EmptyString -> parse_keywords keywords = [EmptyString].
Proof.
  intros H. unfold parse_keywords, PyStr.split_on.
  rewrite split_on_all_space by now apply strip_empty_all_space.
  simpl. now rewrite H.
Qed.

Example split_ws_example :
  PyStr.split_ws "  a red   car " = ["a"; "red"; "car"]%string.
Proof. reflexivity. Qed.

Example parse_keywords_example :
  parse_keywords " red , car,," = ["red"; "car"; ""; ""]%string.
Proof. reflexivity. Qed.

Example strip_example : PyStr.strip "  red car  " = "red car"%string.
Proof. reflexivity. Qed.

Example index_example :
  PyStr.index "red" ["red"; "car"; "red"]%string 1 = inr 2
  /\ PyStr.index "red" ["red"; "car"]%string 1 = inl ValueError.
Proof. split; reflexivity. Qed.

(** [l.index(x, start)] *)

Lemma index_from_Some (x : string) (l : list string) (start pos i : nat) :
  PyStr.index_from x l start pos = Some i ->
  exists j, i = pos + j /\ start <= i /\ nth_error l j = Some x
            /\ forall j', j' < j -> start <= pos + j' -> nth_error l j' <> Some x.
Proof.
  revert pos; induction l as [| y l IH]; intros pos; simpl; [discriminate |].
  destruct ((start <=? pos) && String.eqb y x) eqn:E.
  - intros H; injection H as <-.
    apply andb_true_iff in E as [E1 E2].
    apply Nat.leb_le in E1. apply String.eqb_eq in E2. subst y.
    exists 0. repeat split; [lia | exact E1 | lia].
  - intros H. destruct (IH _ H) as [j [-> [Hs [Hn Hf]]]].
    exists (S j). repeat split; [lia | exact Hs | exact Hn |].
    intros [| j'] Hlt Hle; simpl.
    + intros Heq; injection Heq as ->.
      rewrite String.eqb_refl, andb_true_r in E.
      apply Nat.leb_gt in E. lia.
    + apply Hf; lia.
Qed.

Lemma index_from_None (x : string) (l : list string) (start pos : nat) :
  PyStr.index_from x l start pos = None ->
  forall j, start <= pos + j -> nth_error l j <> Some x.
Proof.
  revert pos; induction l as [| y l IH]; intros pos; simpl.
  - intros _ [| j] _; discriminate.
  - destruct ((start <=? pos) && String.eqb y x) eqn:E; [discriminate |].
    intros H [| j] Hle; simpl.
    + intros Heq; injection Heq as ->.
      rewrite String.eqb_refl, andb_true_r in E.
      apply Nat.leb_gt in E. lia.
    + apply (IH _ H). lia.
Qed.

Lemma In_skipn_nth_error {A : Type} (x : A) (l : list A) (n : nat) :
  In x (skipn n l) <-> exists j, n <= j /\ nth_error l j = Some x.
Proof.
  split.
  - intros H. apply In_nth_error in H as [k Hk].
    rewrite nth_error_skipn in Hk. exists (n + k). split; [lia | exact Hk].
  - intros [j [Hle Hj]]. apply nth_error_In with (n := j - n).
    rewrite nth_error_skipn. replace (n + (j - n)) with j by lia. exact Hj.
Qed.

(** A successful search returns the first position at or after [start]. *)
Lemma index_inr (x : string) (l : list string) (start i : nat) :
  PyStr.index x l start = inr i ->
  start <= i /\ nth_error l i = Some x
  /\ forall j, start <= j -> j < i -> nth_error l j <> Some x.
Proof.
  unfold PyStr.index.
  destruct (PyStr.index_from x l start 0) as [k |] eqn:E; [| discriminate].
  intros H; injection H as <-.
  apply index_from_Some in E as [j [-> [Hs [Hn Hf]]]]. simpl in *.
  repeat split; [exact Hs | exact Hn |].
  intros j' H1 H2. apply Hf; [exact H2 | exact H1].
Qed.

(** The search fails exactly when [x] does not occur at or after [start],
    and then with [ValueError]. *)
Lemma index_inl (x : string) (l : list string) (start : nat) (e : exn) :
  PyStr.index x l start = inl e -> e = ValueError /\ ~ In x (skipn start l).
Proof.
  unfold PyStr.index.
  destruct (PyStr.index_from x l start 0) as [k |] eqn:E; [discriminate |].
  intros H; injection H as <-. split; [reflexivity |].
  rewrite In_skipn_nth_error. intros [j [Hle Hj]].
  exact (index_from_None _ _ _ _ E j Hle Hj).
Qed.

Lemma index_absent (x : string) (l : list string) (start : nat) :
  ~ In x (skipn start l) -> PyStr.index x l start = inl ValueError.
Proof.
  intros H. destruct (PyStr.index x l start) as [e | i] eqn:E.
  - apply index_inl in E as [-> _]. reflexivity.
  - exfalso. apply H. apply index_inr in E as [Hs [Hn _]].
    rewrite In_skipn_nth_error. eauto.
Qed.

(* ------------------------------------------------------------------ *)
(** ** The keyword loop *)

Lemma match_keywords_cons (input_words : list string) (k : string)
    (rest : list string) (acc : list nat) :
  match_keywords input_words (k :: rest) acc =
  if PyStr.mem k input_words then
    ind <- PyStr.index k input_words (search_start acc) ;;
    match_keywords input_words rest (acc ++ [ind])
  else raise keyword_error.
Proof.
  unfold search_start; simpl.
  destruct (PyStr.mem k input_words); [| reflexivity].
  destruct (List.length acc <=? 0); reflexivity.
Qed.

Lemma match_keywords_app (input_words ks1 ks2 : list string) (acc : list nat) :
  match_keywords input_words (ks1 ++ ks2) acc =
  (inds <- match_keywords input_words ks1 acc ;;
   match_keywords input_words ks2 inds).
Proof.
  revert acc; induction ks1 as [| k ks1 IH]; intros acc; [reflexivity |].
  rewrite <- app_comm_cons, !match_keywords_cons.
  destruct (PyStr.mem k input_words); [| reflexivity].
  destruct (PyStr.index k input_words (search_start acc)); simpl; [reflexivity |].
  apply IH.
Qed.

Lemma search_start_nil_or_last (acc : list nat) :
  (acc = [] /\ search_start acc = 0)
  \/ (acc <> [] /\ search_start acc = last acc 0).
Proof.
  unfold search_start. destruct acc as [| a acc]; simpl; [now left |].
  right; split; [discriminate | reflexivity].
Qed.

(** Every way in which the loop can raise. *)
Lemma match_keywords_inl (input_words keywords : list string)
    (acc : list nat) (e : exn) :
  match_keywords input_words keywords acc = inl e ->
  exists done k rest inds,
    keywords = done ++ k :: rest
    /\ match_keywords input_words done acc = inr inds
    /\ ((~ In k input_words /\ e = keyword_error)
        \/ (In k input_words /\ inds <> []
            /\ ~ In k (skipn (last inds 0) input_words) /\ e = ValueError)).
Proof.
  revert acc; induction keywords as [| k rest IH]; intros acc; [discriminate |].
  rewrite match_keywords_cons.
  destruct (PyStr.mem k input_words) eqn:M.
  - apply mem_In in M.
    destruct (PyStr.index k input_words (search_start acc)) as [e' | ind] eqn:I;
      simpl.
    + intros H; injection H as <-.
      apply index_inl in I as [-> I].
      exists [], k, rest, acc. repeat split.
      right. destruct (search_start_nil_or_last acc) as [[_ S] | [Hne S]];
        rewrite S in I.
      * exfalso. apply I. exact M.
      * repeat split; assumption.
    + intros H. destruct (IH _ H) as [done [k' [rest' [inds [-> [Hd Hc]]]]]].
      exists (k :: done), k', rest', inds. split; [reflexivity |].
      split; [| exact Hc].
      rewrite match_keywords_cons.
      apply mem_In in M. rewrite M, I. exact Hd.
  - intros H; injection H as <-.
    exists [], k, rest, acc. repeat split.
    left. split; [| reflexivity].
    intros HIn. apply mem_In in HIn. congruence.
Qed.

(** A keyword that is not a word of the text makes the loop raise. *)
Lemma match_keywords_absent (input_words keywords : list string)
    (acc : list nat) (k : string) :
  In k keywords -> ~ In k input_words ->
  exists e, match_keywords input_words keywords acc = inl e.
Proof.
  revert acc; induction keywords as [| k' rest IH]; intros acc; [intros [] |].
  intros HIn Hno. rewrite match_keywords_cons.
  destruct (PyStr.mem k' input_words) eqn:M; [| eexists; reflexivity].
  destruct (PyStr.index k' input_words (search_start acc)) as [e' | ind];
    simpl; [eexists; reflexivity |].
  destruct HIn as [-> | HIn].
  - apply mem_In in M. contradiction.
  - now apply IH.
Qed.

(** C3. With the empty keyword spec [get_ind_to_filter] returns every token
    index [0 .. len(word_ids)-1], whatever the text is. *)
Theorem get_ind_to_filter_empty_keywords :
  forall (text : string) (word_ids : list (option nat)),
    get_ind_to_filter text word_ids EmptyString =
    inr (seq 0 (List.length word_ids)).
Proof. intros text word_ids. reflexivity. Qed.

Lemma get_ind_to_filter_nonempty (text : string) (word_ids : list (option nat))
    (keywords : string) :
  keywords <> EmptyString ->
  get_ind_to_filter text word_ids keywords =
  (word_inds <- match_keywords (PyStr.split_ws text) (parse_keywords keywords) [] ;;
   ret (select_inds word_ids word_inds 0 [])).
Proof.
  intros H. unfold get_ind_to_filter.
  destruct keywords; [contradiction | reflexivity].
Qed.

(** C2. A non-empty keyword spec with a keyword that is not a word of the
    text makes [get_ind_to_filter] raise; and it raises only when the
    lookup of a keyword fails: the spec is not empty and some keyword either
    is not a word of the text (the explicit exception) or does not occur at
    or after the previous match ([ValueError] of [list.index]). *)
Theorem get_ind_to_filter_raises :
  (forall text word_ids keywords k,
      keywords <> EmptyString ->
      In k (parse_keywords keywords) ->
      ~ In k (PyStr.split_ws text) ->
      exists e, get_ind_to_filter text word_ids keywords = inl e)
  /\ (forall text word_ids keywords e,
         get_ind_to_filter text word_ids keywords = inl e ->
         keywords <> EmptyString
         /\ exists done k rest inds,
             parse_keywords keywords = done ++ k :: rest
             /\ match_keywords (PyStr.split_ws text) done [] = inr inds
             /\ ((~ In k (PyStr.split_ws text) /\ e = keyword_error)
                 \/ (In k (PyStr.split_ws text) /\ inds <> []
                     /\ ~ In k (skipn (last inds 0) (PyStr.split_ws text))
                     /\ e = ValueError))).
Proof.
  split.
  - intros text word_ids keywords k Hne HIn Hno.
    rewrite get_ind_to_filter_nonempty by exact Hne.
    destruct (match_keywords_absent _ _ [] k HIn Hno) as [e He].
    exists e. now rewrite He.
  - intros text word_ids keywords e H.
    assert (Hne : keywords <> EmptyString).
    { intros ->. discriminate. }
    split; [exact Hne |].
    rewrite get_ind_to_filter_nonempty in H by exact Hne.
    apply bind_inl in H as [H | [a [_ H]]]; [| discriminate].
    now apply match_keywords_inl.
Qed.

Lemma match_keywords_inr_acc (input_words keywords : list string)
    (acc inds : list nat) :
  match_keywords input_words keywords acc = inr inds ->
  exists new,
    inds = acc ++ new
    /\ List.length new = List.length keywords
    /\ forall i k q,
        nth_error keywords i = Some k -> nth_error new i = Some q ->
        first_at_or_after input_words k (search_start (acc ++ firstn i new)) q.
Proof.
  revert acc; induction keywords as [| k rest IH]; intros acc.
  - simpl. intros H; injection H as <-. exists []. rewrite app_nil_r.
    split; [reflexivity |]. split; [reflexivity |].
    intros [| i] k q Hk; discriminate.
  - rewrite match_keywords_cons.
    destruct (PyStr.mem k input_words); [| discriminate].
    destruct (PyStr.index k input_words (search_start acc)) as [e | ind] eqn:I;
      simpl; [discriminate |].
    intros H. destruct (IH _ H) as [new [-> [Hlen Hnew]]].
    exists (ind :: new). rewrite <- app_assoc. split; [reflexivity |].
    split; [simpl; now rewrite Hlen |].
    intros [| i] k' q; simpl.
    + intros Hk Hq; injection Hk as <-; injection Hq as <-.
      rewrite app_nil_r. apply index_inr in I. exact I.
    + intros Hk Hq. specialize (Hnew i k' q Hk Hq).
      rewrite <- app_assoc in Hnew. exact Hnew.
Qed.

Lemma last_firstn_S {A : Type} (l : list A) (i : nat) (p d : A) :
  nth_error l i = Some p -> last (firstn (S i) l) d = p.
Proof.
  revert i; induction l as [| a l IH]; intros [| j]; simpl; try discriminate.
  - intros H; injection H as <-. now destruct l.
  - intros H. specialize (IH _ H). simpl in IH.
    destruct l as [| b l]; [destruct j; discriminate |]. exact IH.
Qed.

Lemma search_start_firstn_S (l : list nat) (i p : nat) :
  nth_error l i = Some p -> search_start (firstn (S i) l) = p.
Proof.
  intros H. unfold search_start.
  destruct l as [| a l]; [destruct i; discriminate |].
  simpl List.length. simpl Nat.leb. now apply last_firstn_S.
Qed.

(** What a successful run of the keyword loop returns. *)
Lemma match_keywords_inr (input_words keywords : list string) (inds : list nat) :
  match_keywords input_words keywords [] = inr inds ->
  List.length inds = List.length keywords
  /\ (forall k q, nth_error keywords 0 = Some k -> nth_error inds 0 = Some q ->
                  first_at_or_after input_words k 0 q)
  /\ (forall i k p q,
         nth_error keywords (S i) = Some k ->
         nth_error inds i = Some p -> nth_error inds (S i) = Some q ->
         first_at_or_after input_words k p q).
Proof.
  intros H. apply match_keywords_inr_acc in H as [new [-> [Hlen Hnew]]].
  simpl in *. split; [exact Hlen |]. split.
  - intros k q Hk Hq. exact (Hnew 0 k q Hk Hq).
  - intros i k p q Hk Hp Hq. specialize (Hnew (S i) k q Hk Hq).
    rewrite (search_start_firstn_S _ _ _ Hp) in Hnew. exact Hnew.
Qed.

Lemma match_keywords_positions (input_words keywords : list string)
    (inds : list nat) :
  match_keywords input_words keywords [] = inr inds ->
  forall i k q, nth_error keywords i = Some k -> nth_error inds i = Some q ->
                nth_error input_words q = Some k.
Proof.
  intros H. destruct (match_keywords_inr _ _ _ H) as [Hlen [H0 HS]].
  intros [| i] k q Hk Hq.
  - now destruct (H0 k q Hk Hq) as [_ [Hn _]].
  - destruct (nth_error inds i) as [p |] eqn:Hp.
    + now destruct (HS i k p q Hk Hp Hq) as [_ [Hn _]].
    + apply nth_error_None in Hp.
      assert (Hi : S i < List.length inds) by (apply nth_error_Some; congruence).
      lia.
Qed.

(* ------------------------------------------------------------------ *)
(** ** The token loop *)

Lemma select_inds_filter (word_ids : list (option nat)) (word_inds : list nat)
    (start : nat) (acc : list nat) :
  select_inds word_ids word_inds start acc =
  acc ++ filter (fun i => word_id_in (nth (i - start) word_ids None) word_inds)
                (seq start (List.length word_ids)).
Proof.
  revert start acc; induction word_ids as [| w word_ids IH]; intros start acc.
  - simpl. now rewrite app_nil_r.
  - cbn [select_inds List.length seq filter].
    rewrite Nat.sub_diag. change (nth 0 (w :: word_ids) None) with w.
    assert (E : filter (fun i => word_id_in (nth (i - start) (w :: word_ids) None) word_inds)
                       (seq (S start) (List.length word_ids))
                = filter (fun i => word_id_in (nth (i - S start) word_ids None) word_inds)
                         (seq (S start) (List.length word_ids))).
    { apply filter_ext_in. intros i Hi. apply in_seq in Hi.
      replace (i - start) with (S (i - S start)) by lia. reflexivity. }
    destruct (word_id_in w word_inds); rewrite IH, E.
    + now rewrite <- app_assoc.
    + reflexivity.
Qed.

Lemma word_id_in_iff (word_id : option nat) (word_inds : list nat) :
  word_id_in word_id word_inds = true <->
  exists w, word_id = Some w /\ In w word_inds.
Proof.
  destruct word_id as [w |]; simpl.
  - rewrite existsb_exists. split.
    + intros [x [Hx E]]. apply Nat.eqb_eq in E. subst x. eauto.
    + intros [w' [E Hw]]. injection E as <-. exists w.
      split; [exact Hw | apply Nat.eqb_refl].
  - split; [discriminate | intros [w [E _]]; discriminate].
Qed.

Lemma select_inds_In (word_ids : list (option nat)) (word_inds : list nat) (i : nat) :
  In i (select_inds word_ids word_inds 0 []) <->
  exists w, nth_error word_ids i = Some (Some w) /\ In w word_inds.
Proof.
  rewrite select_inds_filter. simpl. rewrite filter_In, in_seq, Nat.sub_0_r.
  rewrite word_id_in_iff. split.
  - intros [[_ Hi] [w [E Hw]]]. exists w. split; [| exact Hw].
    rewrite <- E. now apply nth_error_nth'.
  - intros [w [E Hw]]. split.
    + split; [lia |]. apply nth_error_Some. congruence.
    + exists w. split; [| exact Hw]. now apply nth_error_nth.
Qed.

Lemma get_ind_to_filter_raises_witness :
  (exists e, get_ind_to_filter "a red car" red_car_word_ids "red,blue" = inl e)
  /\ ("car,red"%string <> EmptyString
      /\ exists done k rest inds,
          parse_keywords "car,red" = done ++ k :: rest
          /\ match_keywords (PyStr.split_ws "red car") done [] = inr inds
          /\ ((~ In k (PyStr.split_ws "red car") /\ ValueError = keyword_error)
              \/ (In k (PyStr.split_ws "red car") /\ inds <> []
                  /\ ~ In k (skipn (last inds 0) (PyStr.split_ws "red car"))
                  /\ ValueError = ValueError))).
Proof.
  destruct get_ind_to_filter_raises as [H1 H2]. split.
  - apply (H1 "a red car"%string red_car_word_ids "red,blue"%string "blue"%string).
    + discriminate.
    + simpl. auto.
    + simpl. intros [E | [E | [E | []]]]; discriminate E.
  - apply (H2 "red car"%string [Some 0; Some 1] "car,red"%string ValueError).
    reflexivity.
Defined.

(** C6, the example as the specification gives it: the result is not
    [[0, 1]]. *)
Lemma get_ind_to_filter_red_car_not_0_1 :
  get_ind_to_filter "a red car" red_car_word_ids "red" <> inr [0; 1].
Proof. vm_compute. intros H. discriminate H. Qed.

(** C6. For the text "a red car", word ids [[0,0,1,2]] and keyword "red"
    the result is [[2]], the one token of word 1; and for every keyword spec
    that is matched, with word positions [word_inds], the result is exactly
    the token positions, in increasing order, whose word id is one of
    [word_inds], each of which is the position of a keyword in the text. *)
Theorem get_ind_to_filter_selected :
  get_ind_to_filter "a red car" red_car_word_ids "red" = inr [2]
  /\ forall (text : string) (word_ids : list (option nat)) (keywords : string)
            (word_inds : list nat),
      keywords <> EmptyString ->
      match_keywords (PyStr.split_ws text) (parse_keywords keywords) [] = inr word_inds ->
      get_ind_to_filter text word_ids keywords =
      inr (filter (fun i => word_id_in (nth i word_ids None) word_inds)
                  (seq 0 (List.length word_ids)))
      /\ (forall inds, get_ind_to_filter text word_ids keywords = inr inds ->
            forall i, In i inds <->
                      exists w, nth_error word_ids i = Some (Some w) /\ In w word_inds)
      /\ (forall w, In w word_inds ->
            exists k, In k (parse_keywords keywords)
                      /\ nth_error (PyStr.split_ws text) w = Some k).
Proof.
  split; [reflexivity |].
  intros text word_ids keywords word_inds Hne Hm.
  assert (E : get_ind_to_filter text word_ids keywords =
              inr (select_inds word_ids word_inds 0 [])).
  { rewrite get_ind_to_filter_nonempty by exact Hne. now rewrite Hm. }
  split; [| split].
  - rewrite E, select_inds_filter. simpl. f_equal.
    apply filter_ext. intros i. now rewrite Nat.sub_0_r.
  - intros inds Hi i. rewrite E in Hi. injection Hi as <-.
    apply select_inds_In.
  - intros w Hw. apply In_nth_error in Hw as [i Hi].
    pose proof (match_keywords_inr _ _ _ Hm) as [Hlen _].
    destruct (nth_error (parse_keywords keywords) i) as [k |] eqn:Hk.
    + exists k. split; [now apply nth_error_In with (n := i) |].
      exact (match_keywords_positions _ _ _ Hm i k w Hk Hi).
    + apply nth_error_None in Hk.
      assert (i < List.length word_inds) by (apply nth_error_Some; congruence).
      lia.
Qed.

Lemma get_ind_to_filter_selected_witness :
  get_ind_to_filter "a red car ." [None; Some 0; Some 1; Some 1; Some 2; Some 3; None]
    "red,car" = inr [2; 3; 4].
Proof.
  destruct get_ind_to_filter_selected as [_ H].
  destruct (H "a red car ."%string
              [None; Some 0; Some 1; Some 1; Some 2; Some 3; None]
              "red,car"%string [1; 2]) as [H2 _].
  - discriminate.
  - reflexivity.
  - exact H2.
Defined.

(** A search that starts at an occurrence returns that position. *)
Lemma index_at (x : string) (l : list string) (p : nat) :
  nth_error l p = Some x -> PyStr.index x l p = inr p.
Proof.
  intros H. destruct (PyStr.index x l p) as [e | i] eqn:E.
  - apply index_inl in E as [_ E]. exfalso. apply E.
    apply In_skipn_nth_error. eauto.
  - apply index_inr in E as [Hle [_ Hfirst]].
    destruct (Nat.eq_dec i p) as [-> | Hne]; [reflexivity |].
    exfalso. apply (Hfirst p); [lia | lia | exact H].
Qed.

Lemma nth_error_last {A : Type} (l : list A) (d : A) :
  l <> [] -> nth_error l (List.length l - 1) = Some (last l d).
Proof.
  induction l as [| a l IH]; [contradiction |]. intros _.
  destruct l as [| b l]; [reflexivity |].
  assert (IH' : nth_error (b :: l) (List.length l) = Some (last (b :: l) d)).
  { rewrite <- IH by discriminate. f_equal. simpl. lia. }
  replace (List.length (a :: b :: l) - 1) with (S (List.length l))
    by (simpl; lia).
  exact IH'.
Qed.

(** A keyword given twice in a row: the second search starts at the match of
    the first and finds it again, so the loop goes on with that position
    added once more. *)
Lemma match_keywords_repeat (input_words ks : list string) (k : string)
    (rest : list string) (word_inds : list nat) :
  match_keywords input_words (ks ++ [k]) [] = inr word_inds ->
  match_keywords input_words ((ks ++ [k]) ++ k :: rest) [] =
  match_keywords input_words rest (word_inds ++ [last word_inds 0]).
Proof.
  intros Hm.
  pose proof (match_keywords_inr _ _ _ Hm) as [Hlen _].
  rewrite length_app in Hlen. cbn [List.length] in Hlen.
  assert (Hne : word_inds <> []) by (intros ->; simpl in Hlen; lia).
  assert (Hp : nth_error word_inds (List.length ks) = Some (last word_inds 0)).
  { replace (List.length ks) with (List.length word_inds - 1) by lia.
    now apply nth_error_last. }
  assert (Hk : nth_error (ks ++ [k]) (List.length ks) = Some k).
  { rewrite nth_error_app2 by lia. now rewrite Nat.sub_diag. }
  pose proof (match_keywords_positions _ _ _ Hm _ _ _ Hk Hp) as Hw.
  rewrite match_keywords_app, Hm. cbv beta iota delta [bind].
  rewrite match_keywords_cons.
  replace (PyStr.mem k input_words) with true
    by (symmetry; apply mem_In; eapply nth_error_In; exact Hw).
  destruct (search_start_nil_or_last word_inds) as [[E _] | [_ ->]];
    [contradiction |].
  rewrite (index_at _ _ _ Hw). reflexivity.
Qed.

(** C7, as the specification gives it: with the keyword twice, the second
    search finds the word position of the first again, nothing fails, and the
    matched positions are not strictly increasing. *)
Lemma duplicate_keyword_same_position :
  match_keywords (PyStr.split_ws "red car") (parse_keywords "red,red") [] = inr [0; 0]
  /\ get_ind_to_filter "red car" [Some 0; Some 1] "red,red" = inr [0]
  /\ ~ (forall text keywords word_inds i p q,
           match_keywords (PyStr.split_ws text) (parse_keywords keywords) [] = inr word_inds ->
           nth_error word_inds i = Some p -> nth_error word_inds (S i) = Some q ->
           p < q).
Proof.
  split; [reflexivity |]. split; [reflexivity |].
  intros H.
  specialize (H "red car"%string "red,red"%string [0; 0] 0 0 0
                eq_refl eq_refl eq_refl).
  lia.
Qed.

(** C7. In the keyword loop every keyword after the first is searched from
    the position of the previous match, that position included: the matched
    positions are non-decreasing, each is the first occurrence of its keyword
    at or after the previous match, a keyword equal to the one before it is
    matched at the same position again, and a further keyword that is a word
    of the text but occurs only before the last match raises [ValueError];
    repeating the last matched keyword never fails: the loop goes on with
    the same position added once more. *)
Theorem keyword_search_offsets :
  forall (input_words keywords : list string) (word_inds : list nat),
    match_keywords input_words keywords [] = inr word_inds ->
    List.length word_inds = List.length keywords
    /\ (forall i k p q,
           nth_error keywords (S i) = Some k ->
           nth_error word_inds i = Some p -> nth_error word_inds (S i) = Some q ->
           first_at_or_after input_words k p q /\ p <= q)
    /\ (forall i k p,
           nth_error keywords i = Some k -> nth_error keywords (S i) = Some k ->
           nth_error word_inds i = Some p -> nth_error word_inds (S i) = Some p)
    /\ (forall k rest,
           word_inds <> [] -> In k input_words ->
           ~ In k (skipn (last word_inds 0) input_words) ->
           match_keywords input_words (keywords ++ k :: rest) [] = inl ValueError)
    /\ (forall ks k,
           keywords = ks ++ [k] ->
           match_keywords input_words (keywords ++ [k]) [] =
           inr (word_inds ++ [last word_inds 0])
           /\ forall rest,
               match_keywords input_words (keywords ++ k :: rest) [] =
               match_keywords input_words rest (word_inds ++ [last word_inds 0])).
Proof.
  intros input_words keywords word_inds Hm.
  destruct (match_keywords_inr _ _ _ Hm) as [Hlen [_ HS]].
  split; [exact Hlen |]. split; [| split; [| split]].
  - intros i k p q Hk Hp Hq. pose proof (HS i k p q Hk Hp Hq) as Hf.
    split; [exact Hf | now destruct Hf].
  - intros i k p Hk HkS Hp.
    destruct (nth_error word_inds (S i)) as [q |] eqn:Hq.
    + destruct (HS i k p q HkS Hp Hq) as [Hle [_ Hfirst]].
      pose proof (match_keywords_positions _ _ _ Hm i k p Hk Hp) as Hkp.
      destruct (Nat.eq_dec p q) as [-> | Hneq]; [reflexivity |].
      exfalso. apply (Hfirst p); [lia | lia | exact Hkp].
    + apply nth_error_None in Hq.
      assert (S i < List.length keywords) by (apply nth_error_Some; congruence).
      lia.
  - intros k rest Hne HIn Hno.
    rewrite match_keywords_app, Hm. cbv beta iota delta [bind].
    rewrite match_keywords_cons.
    apply mem_In in HIn. rewrite HIn.
    destruct (search_start_nil_or_last word_inds) as [[E _] | [_ ->]];
      [contradiction |].
    now rewrite index_absent.
  - intros ks k ->. split.
    + now rewrite (match_keywords_repeat _ _ _ [] _ Hm).
    + intros rest. now apply match_keywords_repeat.
Qed.

Lemma keyword_search_offsets_witness :
  match_keywords ["red"; "car"; "red"]%string ["car"; "red"]%string [] = inr [1; 2]
  /\ match_keywords ["red"; "car"]%string (["car"%string] ++ ["red"%string])%list [] = inl ValueError
  /\ match_keywords ["red"; "car"]%string (["car"%string] ++ ["car"%string])%list [] = inr [1; 1].
Proof.
  split; [reflexivity |].
  pose proof (keyword_search_offsets ["red"; "car"]%string ["car"%string] [1]
                eq_refl) as [_ [_ [_ [H H']]]].
  split.
  - apply (H "red"%string []).
    + discriminate.
    + simpl; auto.
    + simpl. intros [E | []]. discriminate E.
  - exact (proj1 (H' [] "car"%string eq_refl)).
Defined.

(* ------------------------------------------------------------------ *)
(** ** Output label *)

Lemma strip_length_all_space (text : string) :
  (0 <? String.length (PyStr.strip text)) = negb (all_space text).
Proof.
  destruct (all_space text) eqn:E.
  - now rewrite all_space_strip.
  - destruct (PyStr.strip text) eqn:S; [| reflexivity].
    apply strip_empty_all_space in S. congruence.
Qed.

Lemma list_ascii_of_string_app (a b : string) :
  list_ascii_of_string (String.append a b) =
  list_ascii_of_string a ++ list_ascii_of_string b.
Proof. induction a; simpl; congruence. Qed.

Lemma penultimate_app (p : string) (a b : ascii) (s : string) :
  penultimate (String.append p (String a (String b s))) =
  penultimate (String a (String b s)).
Proof.
  unfold penultimate. rewrite list_ascii_of_string_app, rev_app_distr.
  apply app_nth1. rewrite length_rev. simpl. lia.
Qed.

Lemma generate_output_label_cases (text : string) (n : Z) :
  generate_output_label text n =
  if (n =? 1)%Z then
    String.append (label_prefix text) " 1 visual exemplar."
  else if (1 <? n)%Z then
    String.append (label_prefix text)
      (String.append " " (String.append (PyStr.str n) " visual exemplars."))
  else if all_space text then "Nothing specified to detect."%string
  else "Detected instances predicted with text."%string.
Proof.
  unfold generate_output_label, label_prefix.
  rewrite strip_length_all_space.
  destruct (all_space text); cbn [negb].
  - destruct (n =? 1)%Z eqn:E1.
    + apply Z.eqb_eq in E1. subst n. reflexivity.
    + destruct (1 <? n)%Z eqn:E2.
      * replace (0 <? n)%Z with true by (symmetry; apply Z.ltb_lt; apply Z.ltb_lt in E2; lia).
        reflexivity.
      * replace (0 <? n)%Z with false; [reflexivity |].
        symmetry. apply Z.ltb_ge. apply Z.ltb_ge in E2. apply Z.eqb_neq in E1. lia.
  - destruct (n =? 1)%Z eqn:E1.
    + apply Z.eqb_eq in E1. subst n. reflexivity.
    + destruct (1 <? n)%Z; reflexivity.
Qed.

(** C8. For a count [n >= 0], the label is "Nothing specified to detect."
    exactly when the text is empty or all whitespace and [n = 0]; for
    [n = 1] it ends in "1 visual exemplar.", for [n >= 2] in
    "n visual exemplars.", and it ends in " visual exemplar." only for
    [n = 1]. *)
Theorem generate_output_label_spec :
  forall (text : string) (n : Z),
    (0 <= n)%Z ->
    (generate_output_label text n = "Nothing specified to detect."%string
     <-> (all_space text = true /\ n = 0%Z))
    /\ (n = 1%Z ->
        generate_output_label text n =
        String.append (label_prefix text) " 1 visual exemplar.")
    /\ ((2 <= n)%Z ->
        generate_output_label text n =
        String.append (label_prefix text)
          (String.append " " (String.append (PyStr.str n) " visual exemplars.")))
    /\ ((exists p, generate_output_label text n =
                   String.append p " visual exemplar.") <-> n = 1%Z).
Proof.
  intros text n Hn. rewrite generate_output_label_cases.
  destruct (n =? 1)%Z eqn:E1; [| destruct (1 <? n)%Z eqn:E2].
  - apply Z.eqb_eq in E1. subst n.
    split; [| split; [| split]].
    + split; [| intros [_ H]; discriminate].
      unfold label_prefix. destruct (all_space text); discriminate.
    + reflexivity.
    + lia.
    + split; [reflexivity |]. intros _.
      exists (String.append (label_prefix text) " 1").
      rewrite append_assoc. reflexivity.
  - apply Z.eqb_neq in E1. apply Z.ltb_lt in E2.
    split; [| split; [| split]].
    + split; [| intros [_ H]; lia].
      unfold label_prefix. destruct (all_space text); discriminate.
    + lia.
    + reflexivity.
    + split; [| lia]. intros [p Hp]. exfalso.
      apply (f_equal penultimate) in Hp.
      rewrite <- !append_assoc in Hp.
      change " visual exemplars."%string
        with (String.append " visual exemplar" "s.") in Hp.
      rewrite <- append_assoc in Hp.
      change " visual exemplar."%string
        with (String.append " visual exempla" "r.") in Hp.
      rewrite <- append_assoc in Hp.
      rewrite !penultimate_app in Hp. discriminate Hp.
  - apply Z.eqb_neq in E1. apply Z.ltb_ge in E2.
    assert (n = 0%Z) by lia. subst n.
    split; [| split; [| split]].
    + destruct (all_space text); split; try tauto; try discriminate.
      intros [H _]; discriminate.
    + lia.
    + lia.
    + split; [| lia]. intros [p Hp]. exfalso.
      apply (f_equal penultimate) in Hp.
      change " visual exemplar."%string
        with (String.append " visual exempla" "r.") in Hp.
      rewrite <- append_assoc, penultimate_app in Hp.
      destruct (all_space text); discriminate Hp.
Qed.

Lemma generate_output_label_spec_witness :
  generate_output_label "apple" 12 =
  "Detected instances predicted with text and 12 visual exemplars."%string.
Proof.
  destruct (generate_output_label_spec "apple" 12) as [_ [_ [H _]]].
  - lia.
  - rewrite H; [reflexivity | lia].
Defined.

(* ------------------------------------------------------------------ *)
(** ** Prediction filter *)

Lemma gt_thresh_iff (x : Q) : gt_thresh x = true <-> (CONF_THRESH_float32 < x)%Q.
Proof.
  unfold gt_thresh. rewrite negb_true_iff, <- not_true_iff_false, Qle_bool_iff.
  split; [apply Qnot_le_lt | apply Qlt_not_le].
Qed.

Lemma sum_true_acc (l : list bool) (a : nat) :
  fold_left (fun acc (b : bool) => if b then S acc else acc) l a = a + sum_true l.
Proof.
  unfold sum_true. revert a; induction l as [| b l IH]; intros a; simpl.
  - lia.
  - rewrite IH, (IH (if b then 1 else 0)). destruct b; lia.
Qed.

Lemma sum_true_cons (b : bool) (l : list bool) :
  sum_true (b :: l) = (if b then 1 else 0) + sum_true l.
Proof. unfold sum_true at 1. simpl. now rewrite sum_true_acc. Qed.

Lemma sum_true_le (l : list bool) : sum_true l <= List.length l.
Proof.
  induction l as [| b l IH]; [apply Nat.le_refl |].
  rewrite sum_true_cons. simpl. destruct b; lia.
Qed.

(** The count of true entries is the length exactly when all are true. *)
Lemma sum_true_all (l : list bool) :
  sum_true l = List.length l <-> forall b, In b l -> b = true.
Proof.
  induction l as [| b l IH].
  - split; [intros _ b [] | reflexivity].
  - rewrite sum_true_cons. pose proof (sum_true_le l) as Hle. simpl. split.
    + intros H b' [<- | Hb'].
      * destruct b; [reflexivity | lia].
      * apply IH; [destruct b; lia | exact Hb'].
    + intros H. rewrite (H b) by now left.
      simpl. f_equal. apply IH. intros b' Hb'. apply H. now right.
Qed.

Lemma Qmaxb_cases (a b : Q) :
  (Qmaxb a b = b /\ (a <= b)%Q) \/ (Qmaxb a b = a /\ (b <= a)%Q).
Proof.
  unfold Qmaxb. destruct (Qle_bool a b) eqn:E.
  - left. split; [reflexivity | now apply Qle_bool_iff].
  - right. split; [reflexivity |].
    apply Qlt_le_weak, Qnot_le_lt. intros H.
    apply Qle_bool_iff in H. congruence.
Qed.

(** The running maximum is an entry of the row and bounds every entry. *)
Lemma fold_max_spec (r : list Q) (x : Q) :
  In (fold_left Qmaxb r x) (x :: r)
  /\ forall y, In y (x :: r) -> (y <= fold_left Qmaxb r x)%Q.
Proof.
  revert x; induction r as [| z r IH]; intros x; simpl.
  - split; [now left |]. intros y [<- | []]. apply Qle_refl.
  - destruct (IH (Qmaxb x z)) as [HIn Hub]. split.
    + destruct HIn as [E | HIn]; [| now right; right].
      rewrite <- E. destruct (Qmaxb_cases x z) as [[-> _] | [-> _]]; auto.
    + assert (Hm : (Qmaxb x z <= fold_left Qmaxb r (Qmaxb x z))%Q)
        by (apply Hub; now left).
      intros y [<- | [<- | Hy]].
      * apply Qle_trans with (Qmaxb x z); [| exact Hm].
        destruct (Qmaxb_cases x z) as [[-> H] | [-> H]];
          [exact H | apply Qle_refl].
      * apply Qle_trans with (Qmaxb x z); [| exact Hm].
        destruct (Qmaxb_cases x z) as [[-> H] | [-> H]];
          [apply Qle_refl | exact H].
      * apply Hub. now right.
Qed.

Lemma select_rows_all_true {A : Type} (mask : list bool) (xs : list A) :
  List.length mask = List.length xs ->
  (forall b, In b mask -> b = true) -> select_rows mask xs = xs.
Proof.
  unfold select_rows. revert xs; induction mask as [| b mask IH];
    intros [| x xs]; simpl; try discriminate; [reflexivity |].
  intros Hlen H. rewrite (H b) by now left. simpl. f_equal.
  apply IH; [now injection Hlen | intros b' Hb'; apply H; now right].
Qed.

Lemma select_rows_all_false {A : Type} (mask : list bool) (xs : list A) :
  (forall b, In b mask -> b = false) -> select_rows mask xs = [].
Proof.
  unfold select_rows. revert xs; induction mask as [| b mask IH];
    intros [| x xs]; simpl; try reflexivity.
  intros H. rewrite (H b) by now left. simpl.
  apply IH. intros b' Hb'. apply H. now right.
Qed.

Lemma mask_rows_ok {A : Type} (mask : list bool) (xs : list A) :
  List.length mask = List.length xs ->
  mask_rows mask xs = inr (select_rows mask xs).
Proof. intros H. unfold mask_rows. rewrite H, Nat.eqb_refl. reflexivity. Qed.

Lemma take_columns_ok (t : Tensor2) (inds : list nat) :
  Forall (fun i => i < ncols t) inds ->
  take_columns t inds =
  inr (mkTensor2 (List.length inds)
         (map (fun row => map (fun i => nth i row 0%Q) inds) (rows t))).
Proof.
  intros H. unfold take_columns.
  replace (forallb (fun i => i <? ncols t) inds) with true;
    [now rewrite orb_true_r |].
  symmetry. apply forallb_forall. intros i Hi.
  apply Nat.ltb_lt. rewrite Forall_forall in H. now apply H.
Qed.

(** A keyword spec of whitespace only is rejected by the token filter. *)
Lemma get_ind_to_filter_blank (text : string) (word_ids : list (option nat))
    (keywords : string) :
  keywords <> EmptyString -> PyStr.strip keywords = EmptyString ->
  get_ind_to_filter text word_ids keywords = inl keyword_error.
Proof.
  intros Hne Hs. rewrite get_ind_to_filter_nonempty by exact Hne.
  rewrite parse_keywords_blank by exact Hs. rewrite match_keywords_cons.
  destruct (PyStr.mem EmptyString (PyStr.split_ws text)) eqn:M; [| reflexivity].
  apply mem_In in M. now apply split_ws_no_empty in M.
Qed.

Lemma strip_length_pos (keywords : string) :
  (0 <? String.length (PyStr.strip keywords)) = true <->
  PyStr.strip keywords <> EmptyString.
Proof.
  destruct (PyStr.strip keywords); simpl; split; intros H;
    try discriminate; try reflexivity.
  now contradiction H.
Qed.

Section PredictionFilterProperties.

Variable sigmoid : Q -> Q.

Local Abbreviation conf := (confidence sigmoid).

Lemma sliced_rows_confidence (logits : Tensor2) (inds : list nat) :
  tensor_wf logits -> Forall (fun i => i < ncols logits) inds ->
  map (fun row => map (fun i => nth i row 0%Q) inds)
      (rows (sigmoid_tensor sigmoid logits))
  = map (fun row => map (conf row) inds) (rows logits).
Proof.
  intros Hwf Hin. unfold sigmoid_tensor. cbn [rows]. rewrite map_map.
  apply map_ext_in. intros row Hrow. apply map_ext_in. intros i Hi.
  unfold confidence.
  unfold tensor_wf in Hwf. rewrite Forall_forall in Hwf, Hin.
  rewrite (nth_indep _ 0%Q (sigmoid 0%Q)).
  - apply map_nth.
  - rewrite length_map, (Hwf row Hrow). now apply Hin.
Qed.

(** The steps of [get_boxes_from_prediction] up to the mask. *)
Lemma get_boxes_from_prediction_steps (mo : ModelOutput) (text keywords : string)
    (enc : Encoding) (logits : Tensor2) (boxes : list (list Q)) (inds : list nat) :
  nth_error (token mo) 0 = Some enc ->
  nth_error (pred_logits mo) 0 = Some logits ->
  nth_error (pred_boxes mo) 0 = Some boxes ->
  tensor_wf logits ->
  get_ind_to_filter text (word_ids enc) keywords = inr inds ->
  Forall (fun i => i < ncols logits) inds ->
  get_boxes_from_prediction sigmoid mo text keywords =
  let srows := map (fun row => map (conf row) inds) (rows logits) in
  (box_mask <-
     (if 0 <? String.length (PyStr.strip keywords)
      then ret (map (fun row => sum_true (map gt_thresh row)
                                =? List.length inds) srows)
      else (m <- max_rows (mkTensor2 (List.length inds) srows) ;;
            ret (map gt_thresh m))) ;;
   boxes' <- mask_rows box_mask boxes ;;
   logits' <- mask_rows box_mask srows ;;
   ret (boxes', logits')).
Proof.
  intros Ht Hl Hb Hwf Hi Hin. unfold get_boxes_from_prediction.
  rewrite (getitem_nth_error _ _ _ Ht). cbn [bind]. rewrite Hi. cbn [bind].
  rewrite (getitem_nth_error _ 0 (sigmoid_tensor sigmoid logits))
    by (now apply map_nth_error).
  cbn [bind]. rewrite take_columns_ok by exact Hin. cbn [bind].
  rewrite (getitem_nth_error _ _ _ Hb). cbn [bind rows].
  rewrite sliced_rows_confidence by assumption. reflexivity.
Qed.

Lemma nth_mask_row {A : Type} (f : A -> bool) (l : list A) (k : nat) (a : A) :
  nth_error l k = Some a -> nth k (map f l) false = f a.
Proof.
  intros H. apply nth_error_nth. now apply map_nth_error.
Qed.

(** The mask entry computed from the count of confident tokens. *)
Lemma count_mask_iff (row : list Q) (inds : list nat) :
  (sum_true (map gt_thresh (map (conf row) inds)) =? List.length inds) = true
  <-> forall i, In i inds -> (CONF_THRESH_float32 < conf row i)%Q.
Proof.
  rewrite Nat.eqb_eq.
  replace (List.length inds)
    with (List.length (map gt_thresh (map (conf row) inds)))
    by (now rewrite !length_map).
  rewrite sum_true_all. split.
  - intros H i Hi. apply gt_thresh_iff. apply H.
    apply in_map, in_map. exact Hi.
  - intros H b Hb. apply in_map_iff in Hb as [x [<- Hx]].
    apply in_map_iff in Hx as [i [<- Hi]]. apply gt_thresh_iff. now apply H.
Qed.

(** The mask entry computed from the maximum over the tokens. *)
Lemma max_mask_iff (row : list Q) (inds : list nat) :
  inds <> [] ->
  let srow := map (conf row) inds in
  gt_thresh (fold_left Qmaxb (tl srow) (hd 0%Q srow)) = true
  <-> exists i, In i inds /\ (CONF_THRESH_float32 < conf row i)%Q
                /\ forall j, In j inds -> (conf row j <= conf row i)%Q.
Proof.
  intros Hne. destruct inds as [| i0 inds]; [contradiction |].
  cbn [map hd tl]. rewrite gt_thresh_iff.
  destruct (fold_max_spec (map (conf row) inds) (conf row i0)) as [HIn Hub].
  change (conf row i0 :: map (conf row) inds)
    with (map (conf row) (i0 :: inds)) in HIn, Hub.
  split.
  - intros Hgt. apply in_map_iff in HIn as [i [E Hi]].
    exists i. split; [exact Hi |]. rewrite E. split; [exact Hgt |].
    intros j Hj. apply Hub. now apply in_map.
  - intros [i [Hi [Hgt _]]].
    apply Qlt_le_trans with (conf row i); [exact Hgt |].
    apply Hub. now apply in_map.
Qed.

Lemma In_mask_row {A : Type} (f : A -> bool) (l : list A) (b : bool) :
  In b (map f l) -> exists k a, nth_error l k = Some a /\ nth k (map f l) false = b.
Proof.
  intros H. apply in_map_iff in H as [a [<- Ha]].
  apply In_nth_error in Ha as [k Hk]. exists k, a.
  split; [exact Hk | now apply nth_mask_row].
Qed.

Lemma get_boxes_from_prediction_mask :
  forall (mo : ModelOutput) (text keywords : string) (enc : Encoding)
         (logits : Tensor2) (boxes : list (list Q)) (inds : list nat),
    nth_error (token mo) 0 = Some enc ->
    nth_error (pred_logits mo) 0 = Some logits ->
    nth_error (pred_boxes mo) 0 = Some boxes ->
    tensor_wf logits ->
    List.length (rows logits) = List.length boxes ->
    get_ind_to_filter text (word_ids enc) keywords = inr inds ->
    Forall (fun i => i < ncols logits) inds ->
    (keywords = EmptyString -> inds <> []) ->
    exists mask : list bool,
      List.length mask = List.length boxes
      /\ get_boxes_from_prediction sigmoid mo text keywords =
         inr (select_rows mask boxes,
              select_rows mask
                (map (fun row => map (confidence sigmoid row) inds) (rows logits)))
      /\ (keywords <> EmptyString ->
          PyStr.strip keywords <> EmptyString
          /\ forall k row, nth_error (rows logits) k = Some row ->
               (nth k mask false = true <->
                forall i, In i inds ->
                          (CONF_THRESH_float32 < confidence sigmoid row i)%Q))
      /\ (keywords = EmptyString ->
          inds = seq 0 (List.length (word_ids enc))
          /\ forall k row, nth_error (rows logits) k = Some row ->
               (nth k mask false = true <->
                exists i, In i inds
                          /\ (CONF_THRESH_float32 < confidence sigmoid row i)%Q
                          /\ forall j, In j inds ->
                               (confidence sigmoid row j
                                <= confidence sigmoid row i)%Q))
      /\ (inds <> [] ->
          (forall row i, In row (rows logits) -> In i inds ->
                         (confidence sigmoid row i <= CONF_THRESH_float32)%Q) ->
          select_rows mask boxes = []).
Proof.
  intros mo text keywords enc logits boxes inds Ht Hl Hb Hwf Hlen Hi Hin Hne.
  rewrite (get_boxes_from_prediction_steps _ _ _ _ _ _ _ Ht Hl Hb Hwf Hi Hin).
  cbv zeta.
  set (srows := map (fun row => map (conf row) inds) (rows logits)).
  assert (Hs : List.length srows = List.length boxes)
    by (unfold srows; now rewrite length_map).
  destruct (string_dec keywords EmptyString) as [E | E].
  - (* the empty spec: maximum over all tokens *)
    subst keywords. specialize (Hne eq_refl).
    cbn [PyStr.strip PyStr.lstrip PyStr.rstrip String.length Nat.ltb Nat.leb].
    unfold max_rows. cbn [ncols rows].
    replace (List.length inds =? 0) with false
      by (symmetry; apply Nat.eqb_neq; destruct inds; [contradiction | discriminate]).
    cbn [bind ret].
    set (mask := map gt_thresh
                   (map (fun row => fold_left Qmaxb (tl row) (hd 0%Q row)) srows)).
    assert (Hm : List.length mask = List.length boxes)
      by (unfold mask; now rewrite !length_map).
    assert (Hk : forall k row, nth_error (rows logits) k = Some row ->
                 (nth k mask false = true <->
                  exists i, In i inds /\ (CONF_THRESH_float32 < conf row i)%Q
                            /\ forall j, In j inds -> (conf row j <= conf row i)%Q)).
    { intros k row Hrow. unfold mask, srows. rewrite !map_map.
      rewrite (nth_mask_row _ _ _ _ Hrow). now apply max_mask_iff. }
    exists mask. split; [exact Hm |]. split.
    { rewrite !mask_rows_ok by congruence. reflexivity. }
    split; [intros C; now contradiction C |]. split.
    { intros _. split; [| exact Hk].
      unfold get_ind_to_filter in Hi. cbn [String.length Nat.leb ret] in Hi.
      now injection Hi. }
    intros _ Hlow. apply select_rows_all_false. intros b Hbm.
    destruct b; [exfalso | reflexivity].
    unfold mask, srows in Hbm. rewrite !map_map in Hbm.
    apply In_mask_row in Hbm as [k [row [Hrow Hv]]].
    assert (Hv' : nth k mask false = true)
      by (unfold mask, srows; rewrite !map_map; exact Hv).
    apply (Hk k row Hrow) in Hv' as [i [Hii [Hgt _]]].
    apply nth_error_In in Hrow.
    exact (Qlt_irrefl _ (Qlt_le_trans _ _ _ Hgt (Hlow row i Hrow Hii))).
  - (* a non-empty spec: every selected token *)
    assert (Hstrip : PyStr.strip keywords <> EmptyString).
    { intros C. rewrite (get_ind_to_filter_blank _ _ _ E C) in Hi. discriminate. }
    rewrite (proj2 (strip_length_pos keywords) Hstrip). cbn [bind ret].
    set (mask := map (fun row => sum_true (map gt_thresh row)
                                 =? List.length inds) srows).
    assert (Hm : List.length mask = List.length boxes)
      by (unfold mask; now rewrite length_map).
    assert (Hk : forall k row, nth_error (rows logits) k = Some row ->
                 (nth k mask false = true <->
                  forall i, In i inds -> (CONF_THRESH_float32 < conf row i)%Q)).
    { intros k row Hrow. unfold mask, srows. rewrite map_map.
      rewrite (nth_mask_row _ _ _ _ Hrow). apply count_mask_iff. }
    exists mask. split; [exact Hm |]. split.
    { rewrite !mask_rows_ok by congruence. reflexivity. }
    split; [intros _; split; [exact Hstrip | exact Hk] |].
    split; [intros C; contradiction |].
    intros Hne' Hlow. apply select_rows_all_false. intros b Hbm.
    destruct b; [exfalso | reflexivity].
    unfold mask, srows in Hbm. rewrite map_map in Hbm.
    apply In_mask_row in Hbm as [k [row [Hrow Hv]]].
    assert (Hv' : nth k mask false = true)
      by (unfold mask, srows; rewrite map_map; exact Hv).
    destruct inds as [| i0 inds']; [contradiction |].
    pose proof (proj1 (Hk k row Hrow) Hv' i0 (or_introl eq_refl)) as Hgt.
    apply nth_error_In in Hrow.
    exact (Qlt_irrefl _ (Qlt_le_trans _ _ _ Hgt (Hlow row i0 Hrow (or_introl eq_refl)))).
Qed.

(** C1. The confidences are float32 numbers and are compared with 0.23
    converted to float32, which is 15435039 / 2^26, just above 0.23.  When
    the token filter succeeds on a well-formed model output (and, for the
    empty keyword spec, there is at least one token), the prediction filter
    returns the instances selected by a mask with one entry per instance:
    with a non-empty spec an instance is kept exactly when its confidence
    exceeds that threshold for every selected token; with the empty spec
    exactly when its maximum confidence over all tokens exceeds it; and when
    at least one token is selected and no confidence exceeds the threshold
    (in particular when all are below 0.23), no box is returned. *)
Theorem get_boxes_from_prediction_keeps :
  forall (mo : ModelOutput) (text keywords : string) (enc : Encoding)
         (logits : Tensor2) (boxes : list (list Q)) (inds : list nat),
    nth_error (token mo) 0 = Some enc ->
    nth_error (pred_logits mo) 0 = Some logits ->
    nth_error (pred_boxes mo) 0 = Some boxes ->
    tensor_wf logits ->
    List.length (rows logits) = List.length boxes ->
    get_ind_to_filter text (word_ids enc) keywords = inr inds ->
    Forall (fun i => i < ncols logits) inds ->
    (keywords = EmptyString -> inds <> []) ->
    CONF_THRESH_float32 = 15435039 # 67108864
    /\ (23 # 100 < CONF_THRESH_float32)%Q
    /\ exists mask : list bool,
      List.length mask = List.length boxes
      /\ get_boxes_from_prediction sigmoid mo text keywords =
         inr (select_rows mask boxes,
              select_rows mask
                (map (fun row => map (confidence sigmoid row) inds) (rows logits)))
      /\ (keywords <> EmptyString ->
          PyStr.strip keywords <> EmptyString
          /\ forall k row, nth_error (rows logits) k = Some row ->
               (nth k mask false = true <->
                forall i, In i inds ->
                          (CONF_THRESH_float32 < confidence sigmoid row i)%Q))
      /\ (keywords = EmptyString ->
          inds = seq 0 (List.length (word_ids enc))
          /\ forall k row, nth_error (rows logits) k = Some row ->
               (nth k mask false = true <->
                exists i, In i inds
                          /\ (CONF_THRESH_float32 < confidence sigmoid row i)%Q
                          /\ forall j, In j inds ->
                               (confidence sigmoid row j
                                <= confidence sigmoid row i)%Q))
      /\ (inds <> [] ->
          (forall row i, In row (rows logits) -> In i inds ->
                         (confidence sigmoid row i <= CONF_THRESH_float32)%Q) ->
          select_rows mask boxes = []).
Proof.
  intros mo text keywords enc logits boxes inds Ht Hl Hb Hwf Hlen Hi Hin Hne.
  split; [vm_compute; reflexivity |]. split; [vm_compute; reflexivity |].
  now apply get_boxes_from_prediction_mask with (enc := enc).
Qed.

End PredictionFilterProperties.

(** C1, the last sentence as the specification gives it: every confidence is
    below 0.23 and yet the box is returned, because no token is selected. *)
Lemma low_confidence_box_kept :
  (forall row x, In row [[-3; -3; -3; -3]%Q] -> In x row ->
                 (rational_sigmoid x < CONF_THRESH)%Q)
  /\ get_ind_to_filter "a red car" [None; Some 0; Some 2; None] "red" = inr []
  /\ get_boxes_from_prediction rational_sigmoid no_token_output "a red car" "red"
     = inr ([[1 # 2; 1 # 2; 1 # 10; 1 # 10]%Q], [[]]).
Proof.
  split; [| split; reflexivity].
  intros row x [<- | []] Hx. simpl in Hx.
  assert (E : x = (-3)%Q) by intuition congruence.
  subst x. reflexivity.
Qed.

Lemma get_boxes_from_prediction_keeps_witness :
  exists mask : list bool,
    List.length mask = 2
    /\ get_boxes_from_prediction rational_sigmoid red_car_output "a red car" "red" =
       inr (select_rows mask [[1 # 4; 1 # 4; 1 # 10; 1 # 10]; [3 # 4; 3 # 4; 1 # 10; 1 # 10]]%Q,
            select_rows mask
              (map (fun row => map (confidence rational_sigmoid row) [2])
                   [[-3; -3; 2; -3; -3; -3]; [-3; -3; -3; 2; -3; -3]]%Q)).
Proof.
  destruct (get_boxes_from_prediction_keeps rational_sigmoid red_car_output
              "a red car" "red" red_car_encoding
              (mkTensor2 6 [[-3; -3; 2; -3; -3; -3]; [-3; -3; -3; 2; -3; -3]]%Q)
              [[1 # 4; 1 # 4; 1 # 10; 1 # 10]; [3 # 4; 3 # 4; 1 # 10; 1 # 10]]%Q
              [2])
    as [_ [_ [mask [Hlen [Hres _]]]]].
  - reflexivity.
  - reflexivity.
  - reflexivity.
  - repeat constructor.
  - reflexivity.
  - reflexivity.
  - repeat constructor.
  - discriminate.
  - exists mask. split; [exact Hlen | exact Hres].
Defined.

Lemma select_inds_none (word_ids : list (option nat)) (word_inds : list nat) :
  (forall i w, nth_error word_ids i = Some (Some w) -> ~ In w word_inds) ->
  select_inds word_ids word_inds 0 [] = [].
Proof.
  intros H. destruct (select_inds word_ids word_inds 0 []) as [| i l] eqn:E;
    [reflexivity |].
  assert (Hi : In i (select_inds word_ids word_inds 0 []))
    by (rewrite E; now left).
  apply select_inds_In in Hi as [w [Hw HIn]].
  exfalso. exact (H i w Hw HIn).
Qed.

(** C10. With a non-empty keyword spec whose keywords are all found in the
    text, if no token has the word id of a matched word, then no token index
    is selected and the prediction filter returns every box, each with an
    empty row of confidences. *)
Theorem get_boxes_from_prediction_no_selected_token :
  forall (sigmoid : Q -> Q) (mo : ModelOutput) (text keywords : string)
         (enc : Encoding) (logits : Tensor2) (boxes : list (list Q))
         (word_inds : list nat),
    nth_error (token mo) 0 = Some enc ->
    nth_error (pred_logits mo) 0 = Some logits ->
    nth_error (pred_boxes mo) 0 = Some boxes ->
    List.length (rows logits) = List.length boxes ->
    keywords <> EmptyString ->
    match_keywords (PyStr.split_ws text) (parse_keywords keywords) [] = inr word_inds ->
    (forall i w, nth_error (word_ids enc) i = Some (Some w) -> ~ In w word_inds) ->
    get_ind_to_filter text (word_ids enc) keywords = inr []
    /\ get_boxes_from_prediction sigmoid mo text keywords =
       inr (boxes, map (fun _ => []) (rows logits)).
Proof.
  intros sigmoid mo text keywords enc logits boxes word_inds
         Ht Hl Hb Hlen Hne Hm Hno.
  assert (Hi : get_ind_to_filter text (word_ids enc) keywords = inr []).
  { rewrite get_ind_to_filter_nonempty by exact Hne. rewrite Hm. cbn [bind ret].
    now rewrite select_inds_none. }
  split; [exact Hi |].
  assert (Hstrip : PyStr.strip keywords <> EmptyString).
  { intros C. rewrite (get_ind_to_filter_blank _ _ _ Hne C) in Hi. discriminate. }
  unfold get_boxes_from_prediction.
  rewrite (getitem_nth_error _ _ _ Ht). cbn [bind]. rewrite Hi. cbn [bind].
  rewrite (getitem_nth_error _ 0 (sigmoid_tensor sigmoid logits))
    by (now apply map_nth_error).
  cbn [bind]. rewrite take_columns_ok by constructor. cbn [bind].
  rewrite (getitem_nth_error _ _ _ Hb). cbn [bind rows map List.length].
  rewrite (proj2 (strip_length_pos keywords) Hstrip). cbn [bind ret].
  unfold sigmoid_tensor. cbn [rows]. rewrite !map_map. cbn [map].
  set (mask := map (fun _ : list Q => sum_true [] =? 0) (rows logits)).
  assert (Hmlen : List.length mask = List.length boxes)
    by (unfold mask; now rewrite length_map).
  assert (Hall : forall b, In b mask -> b = true).
  { intros b Hbm. unfold mask in Hbm.
    apply in_map_iff in Hbm as [row [<- _]]. reflexivity. }
  rewrite !mask_rows_ok by (rewrite ?length_map; congruence).
  cbn [bind ret].
  rewrite !select_rows_all_true; try assumption; try reflexivity.
  rewrite length_map. congruence.
Qed.

Lemma get_boxes_from_prediction_no_selected_token_witness :
  get_ind_to_filter "a red car" [None; Some 0; Some 2; None] "red" = inr []
  /\ get_boxes_from_prediction rational_sigmoid no_token_output "a red car" "red"
     = inr ([[1 # 2; 1 # 2; 1 # 10; 1 # 10]%Q], [[]]).
Proof.
  apply (get_boxes_from_prediction_no_selected_token rational_sigmoid
           no_token_output "a red car" "red"
           (mkEncoding [None; Some 0; Some 2; None])
           (mkTensor2 4 [[-3; -3; -3; -3]%Q])
           [[1 # 2; 1 # 2; 1 # 10; 1 # 10]%Q] [1]).
  - reflexivity.
  - reflexivity.
  - reflexivity.
  - reflexivity.
  - discriminate.
  - reflexivity.
  - intros i w Hi [E | []]. subst w.
    destruct i as [| [| [| [| i]]]]; simpl in Hi; try discriminate.
    destruct i; discriminate.
Defined.

(** Inversion of the steps of the prediction filter. *)

Lemma getitem_inr {A : Type} (l : list A) (i : nat) (a : A) :
  getitem l i = inr a -> nth_error l i = Some a.
Proof.
  unfold getitem. destruct (nth_error l i); [| discriminate].
  intros H. now injection H as ->.
Qed.

Lemma getitem_inl {A : Type} (l : list A) (i : nat) (e : exn) :
  getitem l i = inl e -> e = IndexError.
Proof.
  unfold getitem. destruct (nth_error l i); [discriminate |].
  intros H. now injection H.
Qed.

Lemma take_columns_inr (t t' : Tensor2) (inds : list nat) :
  take_columns t inds = inr t' ->
  t' = mkTensor2 (List.length inds)
         (map (fun row => map (fun i => nth i row 0%Q) inds) (rows t)).
Proof.
  unfold take_columns. destruct (_ || forallb _ inds); [| discriminate].
  intros H. now injection H.
Qed.

Lemma take_columns_inl (t : Tensor2) (inds : list nat) (e : exn) :
  take_columns t inds = inl e -> e = IndexError.
Proof.
  unfold take_columns. destruct (_ || forallb _ inds); [discriminate |].
  intros H. now injection H.
Qed.

Lemma mask_rows_inr {A : Type} (mask : list bool) (xs r : list A) :
  mask_rows mask xs = inr r ->
  List.length mask = List.length xs /\ r = select_rows mask xs.
Proof.
  unfold mask_rows. destruct (Nat.eqb_spec (List.length mask) (List.length xs));
    [| discriminate].
  intros H. injection H as <-. now split.
Qed.

Lemma mask_rows_inl {A : Type} (mask : list bool) (xs : list A) (e : exn) :
  mask_rows mask xs = inl e -> e = IndexError.
Proof.
  unfold mask_rows. destruct (List.length mask =? List.length xs); [discriminate |].
  intros H. now injection H.
Qed.

Lemma max_rows_inl (t : Tensor2) (e : exn) :
  max_rows t = inl e -> e = IndexError.
Proof.
  unfold max_rows. destruct (ncols t =? 0); [| discriminate].
  intros H. now injection H.
Qed.

Lemma select_rows_cons {A : Type} (b : bool) (mask : list bool) (x : A)
    (xs : list A) :
  select_rows (b :: mask) (x :: xs) =
  if b then x :: select_rows mask xs else select_rows mask xs.
Proof. unfold select_rows. simpl. now destruct b. Qed.

Lemma select_rows_incl {A : Type} (mask : list bool) (xs : list A) :
  incl (select_rows mask xs) xs
  /\ List.length (select_rows mask xs) <= List.length xs.
Proof.
  revert xs; induction mask as [| b mask IH]; intros [| x xs];
    try (split; [intros a [] | simpl; lia]).
  rewrite select_rows_cons. destruct (IH xs) as [Hi Hl].
  destruct b; simpl; split; try lia.
  - now apply incl_cons; [left | apply incl_tl].
  - now apply incl_tl.
Qed.

Lemma select_rows_length_eq {A B : Type} (mask : list bool) (xs : list A)
    (ys : list B) :
  List.length xs = List.length ys ->
  List.length (select_rows mask xs) = List.length (select_rows mask ys).
Proof.
  revert xs ys; induction mask as [| b mask IH]; intros [| x xs] [| y ys];
    try discriminate; try reflexivity.
  intros H. rewrite !select_rows_cons.
  destruct b; simpl; [f_equal |]; apply IH; now injection H.
Qed.

(** The steps of a successful [get_boxes_from_prediction]. *)
Lemma get_boxes_from_prediction_inr (sigmoid : Q -> Q) (mo : ModelOutput)
    (text keywords : string) (bs cs : list (list Q)) :
  get_boxes_from_prediction sigmoid mo text keywords = inr (bs, cs) ->
  exists enc inds logits boxes mask,
    nth_error (token mo) 0 = Some enc
    /\ get_ind_to_filter text (word_ids enc) keywords = inr inds
    /\ nth_error (pred_logits mo) 0 = Some logits
    /\ nth_error (pred_boxes mo) 0 = Some boxes
    /\ List.length mask = List.length boxes
    /\ List.length mask = List.length (rows logits)
    /\ bs = select_rows mask boxes
    /\ cs = select_rows mask
              (map (fun row => map (fun i => nth i row 0%Q) inds)
                   (map (map sigmoid) (rows logits))).
Proof.
  unfold get_boxes_from_prediction. intros H.
  apply bind_inr in H as [enc [Henc H]]. apply getitem_inr in Henc.
  apply bind_inr in H as [inds [Hinds H]].
  apply bind_inr in H as [logits0 [Hl0 H]]. apply getitem_inr in Hl0.
  rewrite nth_error_map in Hl0.
  destruct (nth_error (pred_logits mo) 0) as [logits |] eqn:Hl; [| discriminate].
  injection Hl0 as <-.
  apply bind_inr in H as [sl [Hsl H]]. apply take_columns_inr in Hsl.
  apply bind_inr in H as [boxes [Hb H]]. apply getitem_inr in Hb.
  apply bind_inr in H as [mask [_ H]].
  apply bind_inr in H as [bs' [Hbs H]]. apply mask_rows_inr in Hbs as [Hm1 ->].
  apply bind_inr in H as [cs' [Hcs H]]. apply mask_rows_inr in Hcs as [Hm2 ->].
  injection H as <- <-. subst sl. cbn [rows sigmoid_tensor] in *.
  rewrite !length_map in Hm2.
  exists enc, inds, logits, boxes, mask. repeat split; assumption || reflexivity.
Qed.

(* ------------------------------------------------------------------ *)
(** ** Inference driver *)

(** C5, as the specification gives it: [predict] has six arguments (model,
    transform, image, text, prompts, device) and none is a keyword spec;
    applied to them it is already a result, the one of the prediction filter
    for the empty keyword spec, which is not what the keyword "red" would
    give on the same model output. *)
Lemma predict_takes_no_keywords :
  exists r : result (list (list Q) * list (list Q)),
    predict rational_sigmoid constant_model identity_transform tt "a red car" None tt
    = r
    /\ r = get_boxes_from_prediction rational_sigmoid red_car_output "a red car"
             EmptyString
    /\ r <> get_boxes_from_prediction rational_sigmoid red_car_output "a red car"
              "red".
Proof.
  eexists. split; [reflexivity |]. split.
  - vm_compute. reflexivity.
  - vm_compute. intros H. discriminate H.
Qed.

Section PredictProperties.

Variable sigmoid : Q -> Q.
Variables Image ImageTensor Device : Type.

(** C5. [predict] has no way to receive keywords: whatever the model, the
    transform, the image, the text and the prompts are, it calls the
    prediction filter on the model output with the empty keyword spec, so its
    result is that of [get_boxes_from_prediction] with the empty keyword spec;
    a failure of the preprocessing or of the model is passed on; and no token
    is filtered out: every returned row of confidences has one entry per
    token of the caption. *)
Theorem predict_empty_keywords :
  forall (model : Model ImageTensor Device) (transform : Transform Image ImageTensor)
         (image : Image) (text : string) (prompts : option (Prompts Image))
         (device : Device),
    (forall input_image input_image_exemplar exemplar model_output,
        preprocess transform image prompts =
        inr (input_image, input_image_exemplar, exemplar) ->
        model device input_image input_image_exemplar [exemplar]
              [String.append text " ."] = inr model_output ->
        predict sigmoid model transform image text prompts device =
        get_boxes_from_prediction sigmoid model_output text EmptyString)
    /\ (forall e, preprocess transform image prompts = inl e ->
                  predict sigmoid model transform image text prompts device = inl e)
    /\ (forall input_image input_image_exemplar exemplar e,
           preprocess transform image prompts =
           inr (input_image, input_image_exemplar, exemplar) ->
           model device input_image input_image_exemplar [exemplar]
                 [String.append text " ."] = inl e ->
           predict sigmoid model transform image text prompts device = inl e)
    /\ (forall input_image input_image_exemplar exemplar model_output enc bs cs,
           preprocess transform image prompts =
           inr (input_image, input_image_exemplar, exemplar) ->
           model device input_image input_image_exemplar [exemplar]
                 [String.append text " ."] = inr model_output ->
           nth_error (token model_output) 0 = Some enc ->
           predict sigmoid model transform image text prompts device = inr (bs, cs) ->
           Forall (fun row => List.length row = List.length (word_ids enc)) cs).
Proof.
  intros model transform image text prompts device. unfold predict.
  split; [| split; [| split]].
  - intros a b c mo Hp Hm. rewrite Hp. cbn [bind]. rewrite Hm. reflexivity.
  - intros e Hp. rewrite Hp. reflexivity.
  - intros a b c e Hp Hm. rewrite Hp. cbn [bind]. rewrite Hm. reflexivity.
  - intros a b c mo enc bs cs Hp Hm Ht H.
    rewrite Hp in H. cbn [bind] in H. rewrite Hm in H. cbn [bind] in H.
    apply get_boxes_from_prediction_inr in H
      as [enc' [inds [logits [boxes [mask [Ht' [Hi [_ [_ [_ [_ [_ ->]]]]]]]]]]]].
    assert (enc' = enc) by congruence. subst enc'.
    unfold get_ind_to_filter in Hi. cbn [String.length Nat.leb ret] in Hi.
    injection Hi as <-.
    apply Forall_forall. intros row Hrow.
    apply (proj1 (select_rows_incl mask _)) in Hrow.
    apply in_map_iff in Hrow as [r [<- _]].
    now rewrite length_map, length_seq.
Qed.

End PredictProperties.

Lemma predict_empty_keywords_witness :
  predict rational_sigmoid constant_model identity_transform tt "a red car" None tt =
  get_boxes_from_prediction rational_sigmoid red_car_output "a red car" EmptyString.
Proof.
  destruct (predict_empty_keywords rational_sigmoid unit unit unit
              constant_model identity_transform tt "a red car" None tt)
    as [H _].
  apply (H tt tt [] red_car_output); reflexivity.
Defined.

(* ------------------------------------------------------------------ *)
(** ** Heat map *)

Lemma astype_int_nonneg (x : Q) : (0 <= x)%Q -> astype_int x = Qfloor x.
Proof.
  destruct x as [n d]. unfold astype_int, Qfloor, Qle. simpl.
  intros H. apply Z.quot_div_nonneg; lia.
Qed.

Lemma round_half_even_ge (s : Q) (M : Z) :
  (M <= Float.round_half_even s)%Z -> (inject_Z M - (1 # 2) <= s)%Q.
Proof.
  unfold Float.round_half_even.
  pose proof (Qfloor_le s) as Hf. pose proof (Qlt_floor s) as Hc.
  rewrite inject_Z_plus in Hc.
  destruct ((s - inject_Z (Qfloor s)) ?= (1 # 2))%Q eqn:E.
  - apply (proj2 (Qeq_alt _ _)) in E. intros H.
    assert (HM : (M <= Qfloor s + 1)%Z) by (destruct (Z.even (Qfloor s)); lia).
    rewrite Zle_Qle, inject_Z_plus in HM. change (inject_Z 1) with 1%Q in *. lra.
  - intros H. rewrite Zle_Qle in H. lra.
  - apply (proj2 (Qgt_alt _ _)) in E. intros H.
    rewrite Zle_Qle, inject_Z_plus in H. change (inject_Z 1) with 1%Q in *. lra.
Qed.

Lemma round_half_even_nonneg (s : Q) :
  (0 <= s)%Q -> (0 <= Float.round_half_even s)%Z.
Proof.
  intros H. unfold Float.round_half_even.
  assert (Hf : (0 <= Qfloor s)%Z).
  { change 0%Z with (Qfloor 0). now apply Qfloor_resp_le. }
  destruct ((s - inject_Z (Qfloor s)) ?= (1 # 2))%Q;
    [destruct (Z.even (Qfloor s)) | |]; lia.
Qed.

Lemma round_half_even_Z (s : Q) (N : Z) :
  (s == inject_Z N)%Q -> Float.round_half_even s = N.
Proof.
  intros H. unfold Float.round_half_even.
  assert (Hf : Qfloor s = N) by (rewrite (Qfloor_comp _ _ H); apply Qfloor_Z).
  rewrite Hf.
  assert (E : ((s - inject_Z N) ?= (1 # 2))%Q = Lt).
  { apply (proj1 (Qlt_alt _ _)). rewrite H. lra. }
  now rewrite E.
Qed.

Lemma pow2_pos (k : Z) : (0 < inject_Z (2 ^ k))%Q \/ (k < 0)%Z.
Proof.
  destruct (Z.lt_ge_cases k 0) as [H | H]; [now right | left].
  change 0%Q with (inject_Z 0). rewrite <- Zlt_Qlt. now apply Z.pow_pos_nonneg.
Qed.

(** [scale2 (inject_Z m) q] for [q <= 0] is [m / 2^(-q)]. *)
Lemma scale2_nonpos (z : Q) (q : Z) :
  (q <= 0)%Z -> (Float.scale2 z q == z / inject_Z (2 ^ (- q)))%Q.
Proof.
  intros H. unfold Float.scale2.
  destruct (Z.leb_spec 0 q); [| reflexivity].
  assert (q = 0%Z) by lia. subst q. simpl. field.
Qed.

Lemma floor_log2_ge_1 (a : Q) :
  (1 <= a)%Q -> (0 <= Float.floor_log2 a)%Z /\ (2 ^ Float.floor_log2 a <= Qfloor a)%Z.
Proof.
  intros H. unfold Float.floor_log2.
  replace (Qle_bool 1 a) with true by (symmetry; now apply Qle_bool_iff).
  assert (Hf : (1 <= Qfloor a)%Z).
  { change 1%Z with (Qfloor 1). now apply Qfloor_resp_le. }
  split; [apply Z.log2_nonneg |]. apply Z.log2_spec. lia.
Qed.

Lemma floor_log2_lt_1 (a : Q) :
  (0 < a)%Q -> (a < 1)%Q -> (Float.floor_log2 a <= -1)%Z.
Proof.
  intros H0 H1. unfold Float.floor_log2.
  replace (Qle_bool 1 a) with false.
  2:{ symmetry. apply not_true_iff_false. rewrite Qle_bool_iff. lra. }
  assert (Hi : (1 < / a)%Q).
  { apply Qlt_shift_inv_l; [exact H0 | lra]. }
  assert (Hc : (1 < Qceiling (/ a))%Z).
  { rewrite Zlt_Qlt. apply Qlt_le_trans with (/ a)%Q; [exact Hi | apply Qle_ceiling]. }
  pose proof (Z.log2_up_pos _ Hc). lia.
Qed.

Lemma float32_lt_int (x : Q) (h : Z) :
  (0 < h)%Z -> (h < 2 ^ 24)%Z ->
  (0 <= x)%Q -> (x <= inject_Z h * float32_below_1)%Q ->
  (0 <= Float.float32 x)%Q /\ (Float.float32 x < inject_Z h)%Q.
Proof.
  intros Hh Hh' Hx0 Hx1.
  assert (HhQ : (0 < inject_Z h)%Q)
    by (change 0%Q with (inject_Z 0); now rewrite <- Zlt_Qlt).
  assert (Hxh : (x < inject_Z h)%Q) by (unfold float32_below_1 in Hx1; lra).
  unfold Float.float32, Float.round_float.
  destruct (Qeq_bool x 0) eqn:E0; [split; [apply Qle_refl | exact HhQ] |].
  assert (Hpos : (0 < x)%Q).
  { apply Qeq_bool_neq in E0. lra. }
  replace (Qle_bool 0 x) with true by (symmetry; now apply Qle_bool_iff).
  assert (Ea : Qabs x = x).
  { destruct x as [n d]. unfold Qabs. f_equal. apply Z.abs_eq.
    unfold Qle in Hx0. simpl in Hx0. lia. }
  rewrite Ea. cbv zeta.
  set (e := Float.floor_log2 x).
  set (q := Z.max (e - (24 - 1)) (-149)).
  (* the exponent of the last bit is not positive *)
  assert (He : (e <= 23)%Z /\ ((1 <= x)%Q -> (0 <= e)%Z /\ (2 ^ e < h)%Z)
               /\ ((x < 1)%Q -> (e <= -1)%Z)).
  { destruct (Qlt_le_dec x 1) as [Hlt | Hge].
    - pose proof (floor_log2_lt_1 x Hpos Hlt). fold e in H.
      split; [lia |]. split; [intros C; lra | intros _; exact H].
    - destruct (floor_log2_ge_1 x Hge) as [He0 He1]. fold e in He0, He1.
      assert (Hfl : (Qfloor x < h)%Z).
      { rewrite Zlt_Qlt. apply Qle_lt_trans with x; [apply Qfloor_le | exact Hxh]. }
      assert (Hlt : (2 ^ e < 2 ^ 24)%Z) by lia.
      apply Z.pow_lt_mono_r_iff in Hlt; [| lia | lia].
      split; [lia |]. split; [intros _; split; lia | intros C; lra]. }
  destruct He as [He23 [Hege Helt]].
  assert (Hq : (q <= 0)%Z) by (unfold q; lia).
  set (P := (2 ^ (- q))%Z).
  assert (HP : (0 < P)%Z) by (apply Z.pow_pos_nonneg; lia).
  assert (HPQ : (0 < inject_Z P)%Q)
    by (change 0%Q with (inject_Z 0); now rewrite <- Zlt_Qlt).
  assert (Es : Float.scale2 x (- q) = (x * inject_Z P)%Q).
  { unfold Float.scale2. destruct (Z.leb_spec 0 (- q)); [reflexivity | lia]. }
  rewrite Es.
  set (m := Float.round_half_even (x * inject_Z P)).
  assert (Hm0 : (0 <= m)%Z).
  { apply round_half_even_nonneg. apply Qmult_le_0_compat; lra. }
  rewrite (scale2_nonpos _ _ Hq). fold P.
  assert (Hm0Q : (0 <= inject_Z m)%Q)
    by (change 0%Q with (inject_Z 0); now rewrite <- Zle_Qle).
  split.
  - apply Qle_shift_div_l; [exact HPQ | lra].
  - apply Qlt_shift_div_r; [exact HPQ |].
    apply Qnot_le_lt. intros C.
    rewrite <- inject_Z_mult, <- Zle_Qle in C.
    apply round_half_even_ge in C.
    rewrite inject_Z_mult in C.
    assert (Hb : (x * inject_Z P <= inject_Z h * float32_below_1 * inject_Z P)%Q).
    { apply Qmult_le_compat_r; [exact Hx1 | lra]. }
    assert (HhP : (inject_Z h * inject_Z P <= 8388608)%Q).
    { unfold float32_below_1 in Hb.
      set (HPv := (inject_Z h * inject_Z P)%Q) in *.
      assert (E : (inject_Z h * (16777215 # 16777216) * inject_Z P
                   == HPv * (16777215 # 16777216))%Q) by (unfold HPv; ring).
      rewrite E in Hb. lra. }
    rewrite <- inject_Z_mult in HhP.
    change 8388608%Q with (inject_Z 8388608) in HhP.
    rewrite <- Zle_Qle in HhP.
    destruct (Qlt_le_dec x 1) as [Hlt | Hge].
    + specialize (Helt Hlt).
      assert (HP24 : (2 ^ 24 <= P)%Z).
      { unfold P. apply Z.pow_le_mono_r; [lia |]. unfold q. lia. }
      nia.
    + destruct (Hege Hge) as [He0 Heh].
      assert (Eq : q = (e - 23)%Z) by (unfold q; lia).
      assert (EP : (2 ^ e * P = 2 ^ 23)%Z).
      { unfold P. rewrite Eq, <- Z.pow_add_r by lia. f_equal. lia. }
      nia.
Qed.

Lemma float32_int (h : Z) :
  (0 < h)%Z -> (h < 2 ^ 24)%Z -> (Float.float32 (inject_Z h) == inject_Z h)%Q.
Proof.
  intros Hh Hh'.
  assert (HhQ : (1 <= inject_Z h)%Q)
    by (change 1%Q with (inject_Z 1); rewrite <- Zle_Qle; lia).
  unfold Float.float32, Float.round_float.
  replace (Qeq_bool (inject_Z h) 0) with false.
  2:{ symmetry. apply not_true_iff_false. rewrite Qeq_bool_iff. lra. }
  replace (Qle_bool 0 (inject_Z h)) with true
    by (symmetry; apply Qle_bool_iff; lra).
  assert (Ea : Qabs (inject_Z h) = inject_Z h).
  { unfold Qabs, inject_Z. f_equal. apply Z.abs_eq. lia. }
  rewrite Ea. cbv zeta.
  destruct (floor_log2_ge_1 _ HhQ) as [He0 He1]. rewrite Qfloor_Z in He1.
  set (e := Float.floor_log2 (inject_Z h)) in *.
  assert (He : (e <= 23)%Z).
  { assert (Hlt : (2 ^ e < 2 ^ 24)%Z) by lia.
    apply Z.pow_lt_mono_r_iff in Hlt; lia. }
  set (q := Z.max (e - (24 - 1)) (-149)).
  assert (Hq : (q <= 0)%Z) by (unfold q; lia).
  set (P := (2 ^ (- q))%Z).
  assert (HP : (0 < P)%Z) by (apply Z.pow_pos_nonneg; lia).
  assert (HPQ : (0 < inject_Z P)%Q)
    by (change 0%Q with (inject_Z 0); now rewrite <- Zlt_Qlt).
  assert (Es : Float.scale2 (inject_Z h) (- q) = (inject_Z h * inject_Z P)%Q).
  { unfold Float.scale2. destruct (Z.leb_spec 0 (- q)); [reflexivity | lia]. }
  rewrite Es.
  rewrite (round_half_even_Z _ (h * P)) by (now rewrite inject_Z_mult).
  rewrite (scale2_nonpos _ _ Hq). fold P. rewrite inject_Z_mult.
  field. lra.
Qed.

(** The pixel of a coordinate in [[0, 1)] is inside its axis. *)
Lemma scaled_pixel_range (n : Z) (x : Q) :
  (0 < n)%Z -> (n < 2 ^ 24)%Z -> (0 <= x)%Q -> (x <= float32_below_1)%Q ->
  (0 <= scaled_pixel n x < n)%Z.
Proof.
  intros Hn Hn' H0 H1. unfold scaled_pixel.
  pose proof (float32_int n Hn Hn') as EF.
  assert (HnQ : (0 < inject_Z n)%Q)
    by (change 0%Q with (inject_Z 0); now rewrite <- Zlt_Qlt).
  destruct (float32_lt_int (Float.float32 (inject_Z n) * x) n Hn Hn')
    as [Ha Hb].
  - rewrite EF. apply Qmult_le_0_compat; [now apply Qlt_le_weak | exact H0].
  - rewrite EF. now apply Qmult_le_l.
  - rewrite astype_int_nonneg by exact Ha. split.
    + change 0%Z with (Qfloor 0). now apply Qfloor_resp_le.
    + rewrite Zlt_Qlt. eapply Qle_lt_trans; [apply Qfloor_le | exact Hb].
Qed.

Lemma length_set_nth {A : Type} (l : list A) (i : nat) (v : A) :
  List.length (set_nth l i v) = List.length l.
Proof.
  revert i; induction l as [| a l IH]; intros [| i]; simpl; auto.
Qed.

Lemma nth_set_nth {A : Type} (l : list A) (i j : nat) (v d : A) :
  i < List.length l ->
  nth j (set_nth l i v) d = if j =? i then v else nth j l d.
Proof.
  revert i j; induction l as [| a l IH]; intros [| i] [| j]; simpl;
    try lia; try reflexivity.
  intros H. apply IH. lia.
Qed.

Lemma Forall_set_nth {A : Type} (P : A -> Prop) (l : list A) (i : nat) (v : A) :
  Forall P l -> P v -> Forall P (set_nth l i v).
Proof.
  intros Hl Hv. revert i; induction Hl as [| a l Ha Hl IH]; intros [| i];
    simpl; constructor; auto.
Qed.

Lemma grid_row_length (H W : nat) (grid : list (list Q)) (r : nat) :
  grid_dims H W grid -> r < H -> List.length (nth r grid []) = W.
Proof.
  intros [Hlen Hrows] Hr. rewrite Forall_forall in Hrows.
  apply Hrows. apply nth_In. lia.
Qed.

Lemma set2_dims (H W : nat) (grid : list (list Q)) (r c : nat) (v : Q) :
  grid_dims H W grid -> r < H -> grid_dims H W (set2 grid r c v).
Proof.
  intros Hg Hr. pose proof (grid_row_length _ _ _ _ Hg Hr) as Hrow.
  destruct Hg as [Hlen Hrows]. unfold set2. split.
  - now rewrite length_set_nth.
  - apply Forall_set_nth; [exact Hrows |]. now rewrite length_set_nth.
Qed.

Lemma set2_entry (H W : nat) (grid : list (list Q)) (r0 c0 r c : nat) (v : Q) :
  grid_dims H W grid -> r0 < H -> c0 < W ->
  entry (set2 grid r0 c0 v) r c =
  if (r =? r0) && (c =? c0) then v else entry grid r c.
Proof.
  intros Hg Hr Hc. pose proof (grid_row_length _ _ _ _ Hg Hr) as Hrow.
  destruct Hg as [Hlen _]. unfold entry, set2.
  rewrite nth_set_nth by lia.
  destruct (r =? r0) eqn:E; [| reflexivity].
  apply Nat.eqb_eq in E. subst r0. cbn [andb].
  apply nth_set_nth. lia.
Qed.

Lemma zeros_dims (h w : Z) : grid_dims (Z.to_nat h) (Z.to_nat w) (zeros h w).
Proof.
  unfold zeros. split; [apply repeat_length |].
  apply Forall_forall. intros row Hrow.
  apply repeat_spec in Hrow. subst row. apply repeat_length.
Qed.

Lemma zeros_entry (h w : Z) (r c : nat) : entry (zeros h w) r c = 0%Q.
Proof.
  unfold entry, zeros.
  destruct (Nat.lt_ge_cases r (Z.to_nat h)) as [Hr | Hr].
  - rewrite nth_repeat_lt by exact Hr. apply nth_repeat.
  - rewrite (nth_overflow (repeat _ _) []) by (now rewrite repeat_length).
    now destruct c.
Qed.

Lemma centres_of_ok (h w : Z) (boxes : list (list Q)) :
  Forall (fun box => 2 <= List.length box) boxes ->
  centres_of h w boxes = inr (map (centre_pixel h w) boxes).
Proof.
  induction 1 as [| box boxes Hbox _ IH]; [reflexivity |].
  destruct box as [| x [| y rest]]; simpl in Hbox; try lia.
  cbn [centres_of getitem nth_error bind ret]. rewrite IH. reflexivity.
Qed.

Lemma axis_index_in_range (n i : Z) :
  (0 <= i < n)%Z -> axis_index n i = inr (Z.to_nat i).
Proof.
  intros H. unfold axis_index.
  replace ((0 <=? i) && (i <? n))%Z with true; [reflexivity |].
  symmetry. apply andb_true_iff. split; [apply Z.leb_le | apply Z.ltb_lt]; lia.
Qed.

Lemma set_impulses_ok (h w : Z) (centres : list (Z * Z)) :
  Forall (fun rc => (0 <= fst rc < h)%Z /\ (0 <= snd rc < w)%Z) centres ->
  forall grid,
    grid_dims (Z.to_nat h) (Z.to_nat w) grid ->
    exists grid',
      set_impulses h w grid centres = inr grid'
      /\ grid_dims (Z.to_nat h) (Z.to_nat w) grid'
      /\ forall r c, entry grid' r c =
                     if is_centre centres r c then 1%Q else entry grid r c.
Proof.
  induction 1 as [| [r0 c0] centres [Hr Hc] _ IH]; intros grid Hg.
  - exists grid. repeat split; try apply Hg. 
  - cbn [fst snd] in Hr, Hc. cbn [set_impulses].
    rewrite (axis_index_in_range _ _ Hr), (axis_index_in_range _ _ Hc).
    cbn [bind].
    assert (Hr' : Z.to_nat r0 < Z.to_nat h) by lia.
    assert (Hc' : Z.to_nat c0 < Z.to_nat w) by lia.
    destruct (IH (set2 grid (Z.to_nat r0) (Z.to_nat c0) 1%Q))
      as [grid' [Hs [Hd He]]]; [now apply set2_dims |].
    exists grid'. split; [exact Hs |]. split; [exact Hd |].
    intros r c. rewrite He, (set2_entry _ _ _ _ _ _ _ _ Hg Hr' Hc').
    unfold is_centre. cbn [existsb fst snd].
    replace (Z.of_nat r =? r0)%Z with (r =? Z.to_nat r0)
      by (destruct (Nat.eqb_spec r (Z.to_nat r0)), (Z.eqb_spec (Z.of_nat r) r0);
          try reflexivity; lia).
    replace (Z.of_nat c =? c0)%Z with (c =? Z.to_nat c0)
      by (destruct (Nat.eqb_spec c (Z.to_nat c0)), (Z.eqb_spec (Z.of_nat c) c0);
          try reflexivity; lia).
    destruct (existsb _ centres).
    + rewrite orb_true_r. reflexivity.
    + rewrite orb_false_r. reflexivity.
Qed.

Lemma centre_pixel_in_range (h w : Z) (box : list Q) :
  (0 < h < 2 ^ 24)%Z -> (0 < w < 2 ^ 24)%Z ->
  centre_in_float32_unit_square box ->
  (0 <= fst (centre_pixel h w box) < h)%Z
  /\ (0 <= snd (centre_pixel h w box) < w)%Z.
Proof.
  intros [Hh Hh'] [Hw Hw'] [x [y [rest [-> [Hx0 [Hx1 [Hy0 Hy1]]]]]]].
  unfold centre_pixel. cbn [fst snd nth].
  split; now apply scaled_pixel_range.
Qed.

Lemma is_centre_iff (h w : Z) (boxes : list (list Q)) (r c : nat) :
  Forall (fun box => 2 <= List.length box) boxes ->
  is_centre (map (centre_pixel h w) boxes) r c = true <-> centre_at h w boxes r c.
Proof.
  intros Hb. rewrite Forall_forall in Hb.
  unfold is_centre, centre_at. rewrite existsb_exists. split.
  - intros [rc [Hrc He]]. apply in_map_iff in Hrc as [box [<- Hbox]].
    pose proof (Hb box Hbox) as Hlen.
    destruct box as [| x [| y rest]]; simpl in Hlen; try lia.
    unfold centre_pixel in He. cbn [fst snd nth] in He.
    apply andb_true_iff in He as [E1 E2].
    apply Z.eqb_eq in E1, E2.
    exists x, y, rest. repeat split; [exact Hbox | now symmetry | now symmetry].
  - intros [x [y [rest [Hbox [E1 E2]]]]].
    exists (centre_pixel h w (x :: y :: rest)). split; [now apply in_map |].
    unfold centre_pixel. cbn [fst snd nth].
    rewrite E1, E2, !Z.eqb_refl. reflexivity.
Qed.

Lemma float32_unit_square_length (boxes : list (list Q)) :
  Forall centre_in_float32_unit_square boxes ->
  Forall (fun box => 2 <= List.length box) boxes.
Proof.
  apply Forall_impl. intros box [x [y [rest [-> _]]]]. simpl. lia.
Qed.

(** The grid before the Gaussian filter. *)
Lemma det_map_impulses_ok (w h : Z) (boxes : list (list Q)) :
  (0 < w < 2 ^ 24)%Z -> (0 < h < 2 ^ 24)%Z ->
  Forall centre_in_float32_unit_square boxes ->
  exists det_map,
    det_map_impulses w h boxes = inr det_map
    /\ grid_dims (Z.to_nat h) (Z.to_nat w) det_map
    /\ forall r c,
        (entry det_map r c = 1%Q /\ centre_at h w boxes r c)
        \/ (entry det_map r c = 0%Q /\ ~ centre_at h w boxes r c).
Proof.
  intros Hw Hh Hb. unfold det_map_impulses.
  pose proof (float32_unit_square_length boxes Hb) as Hlen.
  rewrite centres_of_ok by exact Hlen.
  cbn [bind].
  destruct (set_impulses_ok h w (map (centre_pixel h w) boxes)) with (grid := zeros h w)
    as [det_map [Hs [Hd He]]].
  - apply Forall_forall. intros rc Hrc.
    apply in_map_iff in Hrc as [box [<- Hbox]].
    rewrite Forall_forall in Hb. now apply centre_pixel_in_range; auto.
  - apply zeros_dims.
  - exists det_map. split; [exact Hs |]. split; [exact Hd |].
    intros r c. rewrite He, zeros_entry.
    pose proof (is_centre_iff h w boxes r c Hlen) as Hiff.
    destruct (is_centre (map (centre_pixel h w) boxes) r c).
    + left. split; [reflexivity | now apply Hiff].
    + right. split; [reflexivity |]. intros C. apply Hiff in C. discriminate.
Qed.

(** *** The Gaussian filter on a single impulse *)

Lemma In_offsets (sigma i : Z) :
  (0 <= sigma)%Z ->
  In i (Gaussian.offsets sigma) <->
  (- Gaussian.radius sigma <= i <= Gaussian.radius sigma)%Z.
Proof.
  intros Hs. unfold Gaussian.offsets, Gaussian.radius. rewrite in_map_iff. split.
  - intros [k [<- Hk]]. apply in_seq in Hk. lia.
  - intros H. exists (Z.to_nat (i + 4 * sigma)). split; [lia |].
    apply in_seq. lia.
Qed.

Lemma NoDup_offsets (sigma : Z) : NoDup (Gaussian.offsets sigma).
Proof.
  unfold Gaussian.offsets. apply Injective_map_NoDup; [| apply seq_NoDup].
  intros a b H. lia.
Qed.

Lemma Rsum_single (a : Z -> R) (t : Z) (v : R) (l : list Z) :
  NoDup l ->
  Gaussian.Rsum (map (fun i => (a i * (if (i =? t)%Z then v else 0))%R) l) =
  if existsb (fun i => (i =? t)%Z) l then (a t * v)%R else 0%R.
Proof.
  induction 1 as [| i l Hi Hl IH]; [reflexivity |].
  cbn [map Gaussian.Rsum fold_right existsb].
  change (fold_right Rplus 0%R ?x) with (Gaussian.Rsum x). rewrite IH.
  destruct (Z.eqb_spec i t) as [-> | Hne]; cbn [orb].
  - replace (existsb (fun i => (i =? t)%Z) l) with false; [lra |].
    symmetry. apply not_true_iff_false. intros C.
    apply existsb_exists in C as [j [Hj E]]. apply Z.eqb_eq in E. now subst j.
  - lra.
Qed.

Lemma reflect_cases (n i : Z) :
  (0 < n)%Z ->
  ((0 <= i < n)%Z -> Gaussian.reflect n i = i)
  /\ ((n <= i < 2 * n)%Z -> Gaussian.reflect n i = (2 * n - 1 - i)%Z)
  /\ ((- n <= i < 0)%Z -> Gaussian.reflect n i = (- 1 - i)%Z).
Proof.
  intros Hn. unfold Gaussian.reflect. repeat split; intros H.
  - rewrite Z.mod_small by lia. destruct (Z.ltb_spec i n); lia.
  - rewrite Z.mod_small by lia. destruct (Z.ltb_spec i n); lia.
  - assert (E : (i mod (2 * n) = i + 2 * n)%Z).
    { symmetry. apply (Z.mod_unique i (2 * n) (-1) (i + 2 * n)); lia. }
    rewrite E. destruct (Z.ltb_spec (i + 2 * n) n); lia.
Qed.

(** One pass over a line that holds a single value [v] at position [t], far
    enough from both ends. *)
Lemma correlate_impulse (sigma n t k : Z) (v : R) (line : Z -> R) :
  (0 < sigma)%Z ->
  (Gaussian.radius sigma <= t)%Z -> (t + Gaussian.radius sigma < n)%Z ->
  (0 <= k < n)%Z ->
  (forall j, (0 <= j < n)%Z -> line j = if (j =? t)%Z then v else 0%R) ->
  Gaussian.correlate1d sigma n line k = (Gaussian.spread sigma (t - k) * v)%R.
Proof.
  intros Hs Ht1 Ht2 Hk Hline. unfold Gaussian.correlate1d.
  assert (Hr : (0 <= Gaussian.radius sigma)%Z) by (unfold Gaussian.radius; lia).
  assert (Hn : (0 < n)%Z) by lia.
  rewrite (map_ext_in _
             (fun i => (Gaussian.weight sigma i
                        * (if (i =? t - k)%Z then v else 0))%R)).
  2:{ intros i Hi. apply In_offsets in Hi; [| lia]. f_equal.
      destruct (reflect_cases n (k + i) Hn) as [H1 [H2 H3]].
      destruct (Z.lt_ge_cases (k + i) 0) as [Hneg | Hpos].
      - rewrite H3 by lia. rewrite Hline by lia.
        destruct (Z.eqb_spec (-1 - (k + i)) t), (Z.eqb_spec i (t - k));
          try reflexivity; lia.
      - destruct (Z.lt_ge_cases (k + i) n) as [Hin | Hout].
        + rewrite H1 by lia. rewrite Hline by lia.
          destruct (Z.eqb_spec (k + i) t), (Z.eqb_spec i (t - k));
            try reflexivity; lia.
        + rewrite H2 by lia. rewrite Hline by lia.
          destruct (Z.eqb_spec (2 * n - 1 - (k + i)) t), (Z.eqb_spec i (t - k));
            try reflexivity; lia. }
  rewrite Rsum_single by apply NoDup_offsets.
  unfold Gaussian.spread.
  destruct (Z.leb_spec (Z.abs (t - k)) (Gaussian.radius sigma)) as [Hin | Hout].
  - replace (existsb _ (Gaussian.offsets sigma)) with true; [reflexivity |].
    symmetry. apply existsb_exists. exists (t - k)%Z.
    split; [apply In_offsets; lia | apply Z.eqb_refl].
  - replace (existsb _ (Gaussian.offsets sigma)) with false; [lra |].
    symmetry. apply not_true_iff_false. intros C.
    apply existsb_exists in C as [j [Hj E]]. apply Z.eqb_eq in E. subst j.
    apply In_offsets in Hj; lia.
Qed.

Lemma phi_pos (sigma i : Z) : (0 < Gaussian.phi sigma i)%R.
Proof. apply exp_pos. Qed.

Lemma Rsum_pos (l : list R) :
  l <> [] -> Forall (fun x => (0 < x)%R) l -> (0 < Gaussian.Rsum l)%R.
Proof.
  intros Hne H. induction H as [| x l Hx Hl IH]; [contradiction |].
  cbn [Gaussian.Rsum fold_right].
  destruct l as [| y l]; [simpl; lra |].
  assert (0 < Gaussian.Rsum (y :: l))%R by (apply IH; discriminate).
  unfold Gaussian.Rsum in H. lra.
Qed.

Lemma norm_pos (sigma : Z) :
  (0 <= sigma)%Z ->
  (0 < Gaussian.Rsum (map (Gaussian.phi sigma) (Gaussian.offsets sigma)))%R.
Proof.
  intros Hs. apply Rsum_pos.
  - assert (H0 : In 0%Z (Gaussian.offsets sigma))
      by (apply In_offsets; unfold Gaussian.radius; lia).
    intros E. apply (in_map (Gaussian.phi sigma)) in H0. rewrite E in H0.
    contradiction.
  - apply Forall_forall. intros x Hx. apply in_map_iff in Hx as [i [<- _]].
    apply phi_pos.
Qed.

Lemma weight_pos (sigma i : Z) :
  (0 <= sigma)%Z -> (0 < Gaussian.weight sigma i)%R.
Proof.
  intros Hs. unfold Gaussian.weight.
  apply Rdiv_lt_0_compat; [apply phi_pos | now apply norm_pos].
Qed.

Lemma weight_lt_centre (sigma i : Z) :
  (0 < sigma)%Z -> i <> 0%Z ->
  (Gaussian.weight sigma i < Gaussian.weight sigma 0)%R.
Proof.
  intros Hs Hi. unfold Gaussian.weight.
  assert (Hn := norm_pos sigma ltac:(lia)).
  apply Rmult_lt_compat_r; [now apply Rinv_0_lt_compat |].
  unfold Gaussian.phi. apply exp_increasing.
  assert (H1 : (0 < IZR (i * i))%R) by (apply IZR_lt; nia).
  assert (H2 : (0 < IZR (sigma * sigma))%R) by (apply IZR_lt; nia).
  replace (IZR (0 * 0)) with 0%R by reflexivity.
  assert (H3 : (0 < IZR (i * i) / (2 * IZR (sigma * sigma)))%R)
    by (apply Rdiv_lt_0_compat; lra).
  unfold Rdiv at 2. rewrite Rmult_0_l. lra.
Qed.

Lemma spread_bounds (sigma d : Z) :
  (0 < sigma)%Z ->
  (0 <= Gaussian.spread sigma d <= Gaussian.spread sigma 0)%R
  /\ (d <> 0%Z -> (Gaussian.spread sigma d < Gaussian.spread sigma 0)%R)
  /\ (0 < Gaussian.spread sigma 0)%R.
Proof.
  intros Hs.
  assert (H0 : Gaussian.spread sigma 0 = Gaussian.weight sigma 0).
  { unfold Gaussian.spread, Gaussian.radius.
    destruct (Z.leb_spec (Z.abs 0) (4 * sigma)); [reflexivity | lia]. }
  pose proof (weight_pos sigma 0 ltac:(lia)) as Hw0.
  rewrite H0. unfold Gaussian.spread.
  destruct (Z.abs d <=? Gaussian.radius sigma)%Z.
  - pose proof (weight_pos sigma d ltac:(lia)) as Hw.
    repeat split; try lra.
    + destruct (Z.eq_dec d 0) as [-> | Hd]; [lra |].
      pose proof (weight_lt_centre sigma d Hs Hd). lra.
    + intros Hd. now apply weight_lt_centre.
  - repeat split; try lra.
Qed.

Lemma nth_map_seq {A : Type} (f : nat -> A) (n len : nat) (d : A) :
  n < len -> nth n (map f (seq 0 len)) d = f n.
Proof.
  intros H. rewrite (nth_indep _ d (f 0)) by (now rewrite length_map, length_seq).
  rewrite map_nth, seq_nth by exact H. reflexivity.
Qed.

Lemma Q2R_bool (b : bool) :
  Q2R (if b then 1%Q else 0%Q) = if b then 1%R else 0%R.
Proof. destruct b; unfold Q2R; simpl; lra. Qed.

(** The density of a grid with a single impulse, far enough from the
    borders, is the product of the two one-dimensional spreads. *)
Lemma gaussian_single_impulse (g : list (list Q)) (H W r0 c0 : nat)
    (sigma : Z * Z) :
  grid_dims H W g -> 0 < H ->
  (forall r c, entry g r c = if (r =? r0) && (c =? c0) then 1%Q else 0%Q) ->
  (0 < fst sigma)%Z -> (0 < snd sigma)%Z ->
  (Gaussian.radius (fst sigma) <= Z.of_nat r0)%Z ->
  (Z.of_nat r0 + Gaussian.radius (fst sigma) < Z.of_nat H)%Z ->
  (Gaussian.radius (snd sigma) <= Z.of_nat c0)%Z ->
  (Z.of_nat c0 + Gaussian.radius (snd sigma) < Z.of_nat W)%Z ->
  forall r c, r < H -> c < W ->
    Gaussian.entry (Gaussian.gaussian_filter g sigma) r c =
    (Gaussian.spread (fst sigma) (Z.of_nat r0 - Z.of_nat r)
     * Gaussian.spread (snd sigma) (Z.of_nat c0 - Z.of_nat c))%R.
Proof.
  intros [Hlen Hrows] HH He Hs0 Hs1 Hr1 Hr2 Hc1 Hc2 r c Hr Hc.
  assert (HW : List.length (nth 0 g []) = W).
  { rewrite Forall_forall in Hrows. apply Hrows. apply nth_In. lia. }
  unfold Gaussian.gaussian_filter, Gaussian.entry. cbv zeta.
  rewrite Hlen, HW.
  rewrite (nth_map_seq _ r H []) by exact Hr.
  rewrite (nth_map_seq _ c W 0%R) by exact Hc.
  replace (0 <? fst sigma)%Z with true by (symmetry; now apply Z.ltb_lt).
  replace (0 <? snd sigma)%Z with true by (symmetry; now apply Z.ltb_lt).
  rewrite (correlate_impulse (snd sigma) (Z.of_nat W) (Z.of_nat c0) (Z.of_nat c)
             (Gaussian.spread (fst sigma) (Z.of_nat r0 - Z.of_nat r)));
    try assumption; try lia.
  - apply Rmult_comm.
  - intros j Hj.
    rewrite (correlate_impulse (fst sigma) (Z.of_nat H) (Z.of_nat r0) (Z.of_nat r)
               (if (j =? Z.of_nat c0)%Z then 1%R else 0%R));
      try assumption; try lia.
    + destruct (j =? Z.of_nat c0)%Z; lra.
    + intros j' Hj'. rewrite He, Q2R_bool.
      destruct (Nat.eqb_spec (Z.to_nat j') r0), (Z.eqb_spec j' (Z.of_nat r0)),
        (Nat.eqb_spec (Z.to_nat j) c0), (Z.eqb_spec j (Z.of_nat c0));
        try reflexivity; lia.
Qed.

(** ... so it has its only maximum at the impulse. *)
Lemma gaussian_single_impulse_peak (g : list (list Q)) (H W r0 c0 : nat)
    (sigma : Z * Z) :
  grid_dims H W g -> 0 < H ->
  (forall r c, entry g r c = if (r =? r0) && (c =? c0) then 1%Q else 0%Q) ->
  (0 < fst sigma)%Z -> (0 < snd sigma)%Z ->
  (Gaussian.radius (fst sigma) <= Z.of_nat r0)%Z ->
  (Z.of_nat r0 + Gaussian.radius (fst sigma) < Z.of_nat H)%Z ->
  (Gaussian.radius (snd sigma) <= Z.of_nat c0)%Z ->
  (Z.of_nat c0 + Gaussian.radius (snd sigma) < Z.of_nat W)%Z ->
  forall r c, r < H -> c < W -> (r, c) <> (r0, c0) ->
    (Gaussian.entry (Gaussian.gaussian_filter g sigma) r c
     < Gaussian.entry (Gaussian.gaussian_filter g sigma) r0 c0)%R.
Proof.
  intros Hg HH He Hs0 Hs1 Hr1 Hr2 Hc1 Hc2 r c Hr Hc Hne.
  assert (Hr0 : r0 < H) by (unfold Gaussian.radius in *; lia).
  assert (Hc0 : c0 < W) by (unfold Gaussian.radius in *; lia).
  rewrite (gaussian_single_impulse g H W r0 c0 sigma Hg HH He Hs0 Hs1
             Hr1 Hr2 Hc1 Hc2 r c Hr Hc).
  rewrite (gaussian_single_impulse g H W r0 c0 sigma Hg HH He Hs0 Hs1
             Hr1 Hr2 Hc1 Hc2 r0 c0 Hr0 Hc0).
  rewrite !Z.sub_diag.
  destruct (spread_bounds (fst sigma) (Z.of_nat r0 - Z.of_nat r) Hs0)
    as [[Ha0 Ha1] [Ha2 Ha3]].
  destruct (spread_bounds (snd sigma) (Z.of_nat c0 - Z.of_nat c) Hs1)
    as [[Hb0 Hb1] [Hb2 Hb3]].
  destruct (Nat.eq_dec r r0) as [-> | Hrne].
  - assert (Hcne : c <> c0) by (intros ->; now apply Hne).
    rewrite Z.sub_diag. apply Rmult_lt_compat_l; [exact Ha3 |].
    apply Hb2. lia.
  - assert (Hlt := Ha2 ltac:(lia)).
    apply Rle_lt_trans
      with (Gaussian.spread (fst sigma) (Z.of_nat r0 - Z.of_nat r)
            * Gaussian.spread (snd sigma) 0)%R.
    + apply Rmult_le_compat_l; [exact Ha0 | exact Hb1].
    + apply Rmult_lt_compat_r; [exact Hb3 | exact Hlt].
Qed.

(** C9, as the specification gives it: for an image 300 pixels wide the
    sigma handed to the filter is 1 on both axes, not 300 / 200; and a centre
    with a coordinate equal to 1 is outside the grid. *)
Lemma heatmap_sigma_is_floored :
  heatmap_sigma 300 = (1, 1)%Z
  /\ ~ (inject_Z (fst (heatmap_sigma 300)) == 300 # 200)%Q
  /\ det_map_density unit (fun _ => (300, 300)%Z) sigma_probe tt [] = inr [[1; 1]%Q]
  /\ det_map_impulses 200 200 [[1; 1; 1 # 10; 1 # 10]%Q] = inl IndexError.
Proof.
  split; [reflexivity |]. split; [| split].
  - vm_compute. discriminate.
  - vm_compute. reflexivity.
  - vm_compute. reflexivity.
Qed.

(** C9. For an image of width [w] and height [h] (both below 2^24) and
    boxes whose centres [(x, y)] are at least 0 and at most the largest
    float32 number below 1, [generate_heatmap] builds an [h]-by-[w] grid
    that is 1 exactly at the pixels of the centres and 0 elsewhere, the
    pixel of a centre being row [int(float32(h * y))] and column
    [int(float32(w * x))]: the float32 product truncated.  It hands the grid
    to the Gaussian filter with sigma [w // 200] (the integer quotient) on
    both axes.  For a 200x200 image and one box at (0.5, 0.5) sigma is 1, the
    only impulse is at pixel (100, 100), and the filtered map is strictly
    larger at (100, 100) than at every other pixel. *)
Theorem generate_heatmap_grid_and_sigma :
  forall (Image : Type) (size : Image -> Z * Z)
         (render : Image -> list (list R) -> Image)
         (image : Image) (w h : Z) (boxes : list (list Q)),
    size image = (w, h) -> (0 < w < 2 ^ 24)%Z -> (0 < h < 2 ^ 24)%Z ->
    Forall centre_in_float32_unit_square boxes ->
    exists det_map,
      det_map_impulses w h boxes = inr det_map
      /\ grid_dims (Z.to_nat h) (Z.to_nat w) det_map
      /\ (forall r c,
             (entry det_map r c = 1%Q /\ centre_at h w boxes r c)
             \/ (entry det_map r c = 0%Q /\ ~ centre_at h w boxes r c))
      /\ det_map_density Image size Gaussian.gaussian_filter image boxes =
         inr (Gaussian.gaussian_filter det_map ((w / 200)%Z, (w / 200)%Z))
      /\ generate_heatmap Image size Gaussian.gaussian_filter render image boxes =
         inr (render image
                (Gaussian.gaussian_filter det_map ((w / 200)%Z, (w / 200)%Z)))
      /\ (forall bw bh,
             w = 200%Z -> h = 200%Z -> boxes = [[1 # 2; 1 # 2; bw; bh]%Q] ->
             (w / 200 = 1)%Z
             /\ (forall r c, entry det_map r c = 1%Q <-> (r = 100 /\ c = 100))
             /\ forall r c,
                 r < 200 -> c < 200 -> (r, c) <> (100, 100) ->
                 (Gaussian.entry
                    (Gaussian.gaussian_filter det_map (1, 1)%Z) r c
                  < Gaussian.entry
                      (Gaussian.gaussian_filter det_map (1, 1)%Z) 100 100)%R).
Proof.
  intros Image size render image w h boxes Hsize Hw Hh Hb.
  destruct (det_map_impulses_ok w h boxes Hw Hh Hb) as [det_map [Hd [Hg He]]].
  assert (Hdens : det_map_density Image size Gaussian.gaussian_filter image boxes =
                  inr (Gaussian.gaussian_filter det_map
                         ((w / 200)%Z, (w / 200)%Z))).
  { unfold det_map_density. rewrite Hsize, Hd. reflexivity. }
  exists det_map. split; [exact Hd |]. split; [exact Hg |].
  split; [exact He |]. split; [exact Hdens |]. split.
  - unfold generate_heatmap. rewrite Hdens. reflexivity.
  - intros bw bh -> -> ->. split; [reflexivity |].
    assert (Hc : forall r c,
               centre_at 200 200 [[1 # 2; 1 # 2; bw; bh]%Q] r c
               <-> (r = 100 /\ c = 100)).
    { intros r c. unfold centre_at. split.
      - intros [x [y [rest [[E | []] [E1 E2]]]]].
        injection E as <- <- _.
        assert (Ep : scaled_pixel 200 (1 # 2) = 100%Z)
          by (vm_compute; reflexivity).
        rewrite Ep in E1, E2. lia.
      - intros [-> ->]. exists (1 # 2)%Q, (1 # 2)%Q, [bw; bh].
        split; [now left |]. split; vm_compute; reflexivity. }
    assert (H1 : forall r c, entry det_map r c = 1%Q <-> (r = 100 /\ c = 100)).
    { intros r c. destruct (He r c) as [[E1 Hat] | [E0 Hnot]].
      - split; [intros _; now apply Hc | intros _; exact E1].
      - split; [rewrite E0; discriminate |].
        intros H. exfalso. apply Hnot. now apply Hc. }
    split; [exact H1 |].
    assert (Hent : forall r c,
               entry det_map r c =
               if (r =? 100) && (c =? 100) then 1%Q else 0%Q).
    { intros r c. destruct (He r c) as [[E1 Hat] | [E0 Hnot]].
      - apply Hc in Hat as [-> ->]. exact E1.
      - rewrite E0.
        destruct (Nat.eqb_spec r 100) as [-> | Hr]; [| reflexivity].
        destruct (Nat.eqb_spec c 100) as [-> | Hc']; [| reflexivity].
        exfalso. apply Hnot. now apply Hc. }
    intros r c Hr Hc' Hne.
    apply (gaussian_single_impulse_peak det_map 200 200 100 100 (1, 1)%Z);
      try assumption; unfold Gaussian.radius; cbn [fst snd]; lia.
Qed.

Lemma generate_heatmap_grid_and_sigma_witness :
  exists det_map,
    det_map_impulses 200 200 [[1 # 2; 1 # 2; 1 # 10; 1 # 10]%Q] = inr det_map
    /\ det_map_density unit (fun _ => (200, 200)%Z) Gaussian.gaussian_filter tt
         [[1 # 2; 1 # 2; 1 # 10; 1 # 10]%Q] =
       inr (Gaussian.gaussian_filter det_map (1, 1)%Z)
    /\ (forall r c, entry det_map r c = 1%Q <-> (r = 100 /\ c = 100))
    /\ forall r c,
        r < 200 -> c < 200 -> (r, c) <> (100, 100) ->
        (Gaussian.entry (Gaussian.gaussian_filter det_map (1, 1)%Z) r c
         < Gaussian.entry (Gaussian.gaussian_filter det_map (1, 1)%Z) 100 100)%R.
Proof.
  destruct (generate_heatmap_grid_and_sigma unit (fun _ => (200, 200)%Z)
              (fun image _ => image) tt 200 200
              [[1 # 2; 1 # 2; 1 # 10; 1 # 10]%Q])
    as [det_map [Hd [_ [_ [Hdens [_ Hex]]]]]].
  - reflexivity.
  - split; reflexivity.
  - split; reflexivity.
  - constructor; [| constructor].
    exists (1 # 2)%Q, (1 # 2)%Q, [1 # 10; 1 # 10]%Q.
    split; [reflexivity |]. repeat split; discriminate.
  - destruct (Hex (1 # 10)%Q (1 # 10)%Q eq_refl eq_refl eq_refl)
      as [_ [H1 Hpeak]].
    exists det_map. split; [exact Hd |]. split; [exact Hdens |].
    split; [exact H1 | exact Hpeak].
Defined.

(* ================================================================== *)
(** * Further properties of app.py *)

(* ------------------------------------------------------------------ *)
(** ** Prompt encoder on prompts of any length *)

Lemma get_box_inputs_loop_general (prompts : list prompt) (acc : list (list Q)) :
  get_box_inputs_loop prompts acc =
  if forallb prompt_readable prompts
  then inr (acc ++ map box_of_list (filter is_box_list prompts))
  else inl IndexError.
Proof.
  revert acc; induction prompts as [| p prompts IH]; intros acc.
  - simpl. now rewrite app_nil_r.
  - cbn [get_box_inputs_loop forallb filter].
    unfold prompt_readable at 1, is_box_list at 1, getitem.
    destruct p as [| a [| b [| f1 rest]]]; try reflexivity.
    cbn [nth_error nth bind ret].
    destruct (Qeq_bool f1 2) eqn:E1; cbn [andb].
    + destruct rest as [| c [| d [| f2 rest]]]; try reflexivity.
      cbn [nth_error nth bind ret List.length Nat.leb].
      destruct (Qeq_bool f2 3); cbn [andb bind ret map].
      * rewrite IH. destruct (forallb prompt_readable prompts); [| reflexivity].
        now rewrite <- app_assoc.
      * apply IH.
    + apply IH.
Qed.

(** X1. On prompts of any length [get_box_inputs] raises [IndexError]
    exactly when some prompt is too short for the subscripts that are
    evaluated on it (fewer than 3 entries, or fewer than 6 when the third is
    2.0); otherwise it returns the boxes of the prompts that pass the test. *)
Theorem get_box_inputs_any_length :
  forall prompts : list prompt,
    get_box_inputs prompts =
    if forallb prompt_readable prompts
    then inr (map box_of_list (filter is_box_list prompts))
    else inl IndexError.
Proof.
  intros prompts. unfold get_box_inputs.
  now rewrite get_box_inputs_loop_general.
Qed.

(** X2. Whatever the prompts are, a successful [get_box_inputs] returns boxes
    of exactly four coordinates, and at most one box per prompt. *)
Theorem get_box_inputs_shape :
  forall (prompts : list prompt) (boxes : list (list Q)),
    get_box_inputs prompts = inr boxes ->
    List.length boxes <= List.length prompts
    /\ Forall (fun box => List.length box = 4) boxes.
Proof.
  intros prompts boxes H. unfold get_box_inputs in H.
  rewrite get_box_inputs_loop_general in H.
  destruct (forallb prompt_readable prompts); [| discriminate].
  injection H as <-. cbn [app]. split.
  - rewrite length_map. apply filter_length_le.
  - apply Forall_forall. intros box Hbox.
    apply in_map_iff in Hbox as [p [<- _]]. reflexivity.
Qed.

Lemma get_box_inputs_shape_witness :
  List.length [[1 # 10; 2 # 10; 3 # 10; 4 # 10]%Q] <= 2
  /\ Forall (fun box => List.length box = 4) [[1 # 10; 2 # 10; 3 # 10; 4 # 10]%Q].
Proof.
  apply (get_box_inputs_shape
           [[1 # 10; 2 # 10; 2; 3 # 10; 4 # 10; 3]; [5 # 10; 5 # 10; 1]]%Q).
  reflexivity.
Defined.

(** X3. [get_box_inputs] of two prompt lists put together is the boxes of
    the first followed by the boxes of the second, and raises when either
    part does. *)
Theorem get_box_inputs_app :
  forall prompts1 prompts2 : list prompt,
    get_box_inputs (prompts1 ++ prompts2) =
    (boxes1 <- get_box_inputs prompts1 ;;
     boxes2 <- get_box_inputs prompts2 ;;
     ret (boxes1 ++ boxes2)).
Proof.
  intros prompts1 prompts2. unfold get_box_inputs.
  rewrite !get_box_inputs_loop_general, forallb_app, filter_app, map_app.
  destruct (forallb prompt_readable prompts1); [| reflexivity].
  destruct (forallb prompt_readable prompts2); reflexivity.
Qed.

(* ------------------------------------------------------------------ *)
(** ** Token filter: shape of the result and rejected inputs *)

Lemma StronglySorted_seq (start len : nat) : StronglySorted lt (seq start len).
Proof.
  revert start; induction len as [| len IH]; intros start; simpl.
  - constructor.
  - constructor; [apply IH |].
    apply Forall_forall. intros i Hi. apply in_seq in Hi. lia.
Qed.

Lemma StronglySorted_filter {A : Type} (R : A -> A -> Prop) (f : A -> bool)
    (l : list A) :
  StronglySorted R l -> StronglySorted R (filter f l).
Proof.
  induction 1 as [| a l Hl IH Ha]; simpl; [constructor |].
  destruct (f a); [| exact IH].
  constructor; [exact IH |].
  rewrite Forall_forall in *. intros x Hx. apply Ha.
  now apply (incl_filter f l).
Qed.

Lemma filter_all {A : Type} (l : list A) : filter (fun _ => true) l = l.
Proof. induction l; simpl; congruence. Qed.

(** Every result of the token filter is a selection from
    [range(len(word_ids))]. *)
Lemma get_ind_to_filter_inr_filter (text : string) (word_ids : list (option nat))
    (keywords : string) (inds : list nat) :
  get_ind_to_filter text word_ids keywords = inr inds ->
  exists f, inds = filter f (seq 0 (List.length word_ids)).
Proof.
  destruct (string_dec keywords EmptyString) as [-> | Hne].
  - intros H. unfold get_ind_to_filter in H.
    cbn [String.length Nat.leb ret] in H. injection H as <-.
    exists (fun _ => true). now rewrite filter_all.
  - rewrite get_ind_to_filter_nonempty by exact Hne. intros H.
    apply bind_inr in H as [word_inds [_ H]]. injection H as <-.
    rewrite select_inds_filter. simpl. eauto.
Qed.

(** X4. Every list of token indices that [get_ind_to_filter] returns is
    strictly increasing (so without repetition) and lies within
    [range(len(word_ids))]. *)
Theorem get_ind_to_filter_sorted_in_range :
  forall (text : string) (word_ids : list (option nat)) (keywords : string)
         (inds : list nat),
    get_ind_to_filter text word_ids keywords = inr inds ->
    StronglySorted lt inds
    /\ NoDup inds
    /\ Forall (fun i => i < List.length word_ids) inds.
Proof.
  intros text word_ids keywords inds H.
  apply get_ind_to_filter_inr_filter in H as [f ->].
  split; [| split].
  - apply StronglySorted_filter, StronglySorted_seq.
  - apply NoDup_filter, seq_NoDup.
  - apply Forall_forall. intros i Hi.
    apply filter_In in Hi as [Hi _]. apply in_seq in Hi. lia.
Qed.

Lemma get_ind_to_filter_sorted_in_range_witness :
  StronglySorted lt [2; 3; 4]
  /\ NoDup [2; 3; 4]
  /\ Forall (fun i => i < 7) [2; 3; 4].
Proof.
  apply (get_ind_to_filter_sorted_in_range "a red car ."
           [None; Some 0; Some 1; Some 1; Some 2; Some 3; None] "red,red,car").
  reflexivity.
Defined.

(** X5. A token without a word id (a special token) is among the returned
    indices exactly when the keyword spec is empty: a non-empty spec never
    selects it, the empty spec always does. *)
Theorem get_ind_to_filter_special_token :
  forall (text : string) (word_ids : list (option nat)) (keywords : string)
         (inds : list nat) (i : nat),
    nth_error word_ids i = Some None ->
    get_ind_to_filter text word_ids keywords = inr inds ->
    (In i inds <-> keywords = EmptyString).
Proof.
  intros text word_ids keywords inds i Hi H.
  destruct (string_dec keywords EmptyString) as [-> | Hne].
  - unfold get_ind_to_filter in H. cbn [String.length Nat.leb ret] in H.
    injection H as <-. split; [reflexivity |]. intros _.
    apply in_seq. split; [lia |]. simpl. apply nth_error_Some. congruence.
  - rewrite get_ind_to_filter_nonempty in H by exact Hne.
    apply bind_inr in H as [word_inds [_ H]]. injection H as <-.
    split; [| intros C; contradiction].
    intros HIn. apply select_inds_In in HIn as [w [Hw _]]. congruence.
Qed.

Lemma get_ind_to_filter_special_token_witness :
  In 0 [2] <-> "red"%string = EmptyString.
Proof.
  apply (get_ind_to_filter_special_token "a red car"
           [None; Some 0; Some 1; Some 2; None] "red" [2] 0).
  - reflexivity.
  - reflexivity.
Defined.

(** X6. A non-empty keyword spec with an empty or all-whitespace piece
    between its commas (a trailing comma, two commas in a row) is always
    rejected, whatever the text is. *)
Theorem get_ind_to_filter_blank_piece :
  forall (text : string) (word_ids : list (option nat)) (keywords piece : string),
    keywords <> EmptyString ->
    In piece (PyStr.split_on "," keywords) ->
    all_space piece = true ->
    exists e, get_ind_to_filter text word_ids keywords = inl e.
Proof.
  intros text word_ids keywords piece Hne HIn Hsp.
  rewrite get_ind_to_filter_nonempty by exact Hne.
  destruct (match_keywords_absent (PyStr.split_ws text) (parse_keywords keywords)
              [] EmptyString) as [e He].
  - unfold parse_keywords. rewrite <- (all_space_strip piece Hsp).
    now apply in_map.
  - apply split_ws_no_empty.
  - exists e. now rewrite He.
Qed.

Lemma get_ind_to_filter_blank_piece_witness :
  exists e, get_ind_to_filter "a red car" red_car_word_ids "red, " = inl e.
Proof.
  apply (get_ind_to_filter_blank_piece "a red car" red_car_word_ids "red, " " ").
  - discriminate.
  - simpl. auto.
  - reflexivity.
Defined.

Lemma split_ws_all_space (s : string) :
  all_space s = true -> PyStr.split_ws s = [].
Proof.
  unfold PyStr.split_ws. induction s as [| c s IH]; simpl; [reflexivity |].
  intros H. apply andb_true_iff in H as [-> H]. now apply IH.
Qed.

Lemma split_on_from_not_nil (sep : ascii) (s cur : string) :
  exists p ps, PyStr.split_on_from sep cur s = p :: ps.
Proof.
  revert cur; induction s as [| c s IH]; intros cur; simpl; [eauto |].
  destruct (Ascii.eqb c sep); [eauto | apply IH].
Qed.

(** X7. When the text is empty or all whitespace, every non-empty keyword
    spec is rejected with the explicit "Only specify keywords in the input
    text!" exception. *)
Theorem get_ind_to_filter_blank_text :
  forall (text : string) (word_ids : list (option nat)) (keywords : string),
    all_space text = true ->
    keywords <> EmptyString ->
    get_ind_to_filter text word_ids keywords = inl keyword_error.
Proof.
  intros text word_ids keywords Ht Hne.
  rewrite get_ind_to_filter_nonempty by exact Hne.
  rewrite split_ws_all_space by exact Ht.
  unfold parse_keywords, PyStr.split_on.
  destruct (split_on_from_not_nil "," keywords EmptyString) as [p [ps ->]].
  reflexivity.
Qed.

Lemma get_ind_to_filter_blank_text_witness :
  get_ind_to_filter "   " red_car_word_ids "red" = inl keyword_error.
Proof.
  apply get_ind_to_filter_blank_text; [reflexivity | discriminate].
Defined.

(* ------------------------------------------------------------------ *)
(** ** Prediction filter: shape of the result and failures *)

(** X8. Whatever the model output is, when [get_boxes_from_prediction]
    returns, it returns as many confidence rows as boxes, the boxes are boxes
    of the model output (no more than it has), and every confidence row has
    one entry per selected token. *)
Theorem get_boxes_from_prediction_shape :
  forall (sigmoid : Q -> Q) (mo : ModelOutput) (text keywords : string)
         (bs cs : list (list Q)),
    get_boxes_from_prediction sigmoid mo text keywords = inr (bs, cs) ->
    List.length bs = List.length cs
    /\ (exists boxes, nth_error (pred_boxes mo) 0 = Some boxes
                      /\ incl bs boxes
                      /\ List.length bs <= List.length boxes)
    /\ (exists enc inds,
           nth_error (token mo) 0 = Some enc
           /\ get_ind_to_filter text (word_ids enc) keywords = inr inds
           /\ Forall (fun row => List.length row = List.length inds) cs).
Proof.
  intros sigmoid mo text keywords bs cs H.
  apply get_boxes_from_prediction_inr in H
    as [enc [inds [logits [boxes [mask [Ht [Hi [Hl [Hb [Hm1 [Hm2 [-> ->]]]]]]]]]]]].
  split; [| split].
  - apply select_rows_length_eq. rewrite !length_map. congruence.
  - exists boxes. split; [exact Hb |]. apply select_rows_incl.
  - exists enc, inds. split; [exact Ht |]. split; [exact Hi |].
    apply Forall_forall. intros row Hrow.
    apply (proj1 (select_rows_incl mask _)) in Hrow.
    apply in_map_iff in Hrow as [r [<- _]]. apply length_map.
Qed.

Lemma get_boxes_from_prediction_shape_witness :
  List.length [[1 # 4; 1 # 4; 1 # 10; 1 # 10]%Q] = List.length [[5 # 6]%Q]
  /\ (exists boxes, nth_error (pred_boxes red_car_output) 0 = Some boxes
                    /\ incl [[1 # 4; 1 # 4; 1 # 10; 1 # 10]%Q] boxes
                    /\ List.length [[1 # 4; 1 # 4; 1 # 10; 1 # 10]%Q]
                       <= List.length boxes)
  /\ (exists enc inds,
         nth_error (token red_car_output) 0 = Some enc
         /\ get_ind_to_filter "a red car" (word_ids enc) "red" = inr inds
         /\ Forall (fun row => List.length row = List.length inds) [[5 # 6]%Q]).
Proof.
  apply (get_boxes_from_prediction_shape rational_sigmoid red_car_output
           "a red car" "red").
  vm_compute. reflexivity.
Defined.

Lemma get_boxes_from_prediction_inl (sigmoid : Q -> Q) (mo : ModelOutput)
    (text keywords : string) (e : exn) :
  get_boxes_from_prediction sigmoid mo text keywords = inl e ->
  e = IndexError
  \/ exists enc, nth_error (token mo) 0 = Some enc
                 /\ get_ind_to_filter text (word_ids enc) keywords = inl e.
Proof.
  unfold get_boxes_from_prediction. intros H.
  apply bind_inl in H as [H | [enc [Henc H]]];
    [left; now apply getitem_inl in H |].
  apply getitem_inr in Henc.
  apply bind_inl in H as [H | [inds [_ H]]]; [right; eauto |]. left.
  apply bind_inl in H as [H | [logits0 [_ H]]]; [now apply getitem_inl in H |].
  apply bind_inl in H as [H | [sl [_ H]]]; [now apply take_columns_inl in H |].
  apply bind_inl in H as [H | [boxes [_ H]]]; [now apply getitem_inl in H |].
  apply bind_inl in H as [H | [mask [_ H]]].
  - destruct (0 <? String.length (PyStr.strip keywords)); [discriminate |].
    apply bind_inl in H as [H | [m [_ H]]]; [now apply max_rows_inl in H |].
    discriminate.
  - apply bind_inl in H as [H | [bs [_ H]]]; [now apply mask_rows_inl in H |].
    apply bind_inl in H as [H | [cs [_ H]]]; [now apply mask_rows_inl in H |].
    discriminate.
Qed.

(** X9. [get_boxes_from_prediction] fails only in two ways: with the error
    of the token filter (a rejected keyword spec), or with [IndexError]
    (empty batch, token index beyond the logits, a maximum over no token,
    different numbers of logit rows and boxes). *)
Theorem get_boxes_from_prediction_failures :
  forall (sigmoid : Q -> Q) (mo : ModelOutput) (text keywords : string) (e : exn),
    get_boxes_from_prediction sigmoid mo text keywords = inl e ->
    e = IndexError
    \/ exists enc, nth_error (token mo) 0 = Some enc
                   /\ get_ind_to_filter text (word_ids enc) keywords = inl e.
Proof.
  intros sigmoid mo text keywords e. apply get_boxes_from_prediction_inl.
Qed.

Lemma get_boxes_from_prediction_failures_witness :
  keyword_error = IndexError
  \/ exists enc, nth_error (token red_car_output) 0 = Some enc
                 /\ get_ind_to_filter "a red car" (word_ids enc) "blue"
                    = inl keyword_error.
Proof.
  apply (get_boxes_from_prediction_failures rational_sigmoid red_car_output
           "a red car" "blue").
  reflexivity.
Defined.

(** X10. With the empty keyword spec and an encoding without tokens the
    prediction filter always raises [IndexError]: there is no token to take a
    maximum over. *)
Theorem get_boxes_from_prediction_no_token :
  forall (sigmoid : Q -> Q) (mo : ModelOutput) (text : string),
    (forall enc, nth_error (token mo) 0 = Some enc -> word_ids enc = []) ->
    get_boxes_from_prediction sigmoid mo text EmptyString = inl IndexError.
Proof.
  intros sigmoid mo text H. unfold get_boxes_from_prediction.
  destruct (token mo) as [| enc tl]; [reflexivity |].
  cbn [getitem nth_error bind ret]. rewrite (H enc eq_refl).
  unfold get_ind_to_filter. cbn [String.length Nat.leb List.length seq bind ret].
  destruct (pred_logits mo) as [| logits ls]; [reflexivity |].
  cbn [map getitem nth_error bind ret]. unfold take_columns.
  cbn [forallb bind ret List.length]. rewrite orb_true_r. cbn [bind ret].
  destruct (pred_boxes mo) as [| boxes bs]; reflexivity.
Qed.

Lemma get_boxes_from_prediction_no_token_witness :
  get_boxes_from_prediction rational_sigmoid
    (mkModelOutput [mkEncoding []] [mkTensor2 4 [[-3; -3; -3; -3]%Q]]
                   [[[1 # 2; 1 # 2; 1 # 10; 1 # 10]%Q]])
    "a red car" EmptyString = inl IndexError.
Proof.
  apply get_boxes_from_prediction_no_token.
  intros enc H. injection H as <-. reflexivity.
Defined.

(* ------------------------------------------------------------------ *)
(** ** Prediction filter: keywords only narrow the result *)

Lemma get_boxes_from_prediction_with_keywords (sigmoid : Q -> Q)
    (mo : ModelOutput) (text keywords : string) (enc : Encoding)
    (logits : Tensor2) (boxes : list (list Q)) (inds : list nat) :
  nth_error (token mo) 0 = Some enc ->
  nth_error (pred_logits mo) 0 = Some logits ->
  nth_error (pred_boxes mo) 0 = Some boxes ->
  tensor_wf logits ->
  List.length (rows logits) = List.length boxes ->
  get_ind_to_filter text (word_ids enc) keywords = inr inds ->
  Forall (fun i => i < ncols logits) inds ->
  keywords <> EmptyString ->
  get_boxes_from_prediction sigmoid mo text keywords =
  inr (select_rows (and_mask sigmoid inds (rows logits)) boxes,
       select_rows (and_mask sigmoid inds (rows logits))
                   (selected_confidences sigmoid inds (rows logits))).
Proof.
  intros Ht Hl Hb Hwf Hlen Hi Hin Hne.
  rewrite (get_boxes_from_prediction_steps _ _ _ _ _ _ _ _ Ht Hl Hb Hwf Hi Hin).
  cbv zeta.
  assert (Hstrip : PyStr.strip keywords <> EmptyString).
  { intros C. rewrite (get_ind_to_filter_blank _ _ _ Hne C) in Hi. discriminate. }
  rewrite (proj2 (strip_length_pos keywords) Hstrip). cbn [bind ret].
  rewrite map_map. fold (and_mask sigmoid inds (rows logits)).
  fold (selected_confidences sigmoid inds (rows logits)).
  rewrite !mask_rows_ok; [reflexivity | |];
    unfold and_mask, selected_confidences; rewrite !length_map; congruence.
Qed.

Lemma get_boxes_from_prediction_without_keywords (sigmoid : Q -> Q)
    (mo : ModelOutput) (text : string) (enc : Encoding)
    (logits : Tensor2) (boxes : list (list Q)) :
  nth_error (token mo) 0 = Some enc ->
  nth_error (pred_logits mo) 0 = Some logits ->
  nth_error (pred_boxes mo) 0 = Some boxes ->
  tensor_wf logits ->
  List.length (rows logits) = List.length boxes ->
  word_ids enc <> [] ->
  List.length (word_ids enc) <= ncols logits ->
  let inds := seq 0 (List.length (word_ids enc)) in
  get_boxes_from_prediction sigmoid mo text EmptyString =
  inr (select_rows (max_mask sigmoid inds (rows logits)) boxes,
       select_rows (max_mask sigmoid inds (rows logits))
                   (selected_confidences sigmoid inds (rows logits))).
Proof.
  intros Ht Hl Hb Hwf Hlen Hne Hcols inds.
  assert (Hin : Forall (fun i => i < ncols logits) inds).
  { apply Forall_forall. intros i Hi. apply in_seq in Hi. lia. }
  rewrite (get_boxes_from_prediction_steps sigmoid mo text EmptyString enc logits
             boxes inds Ht Hl Hb Hwf eq_refl Hin).
  cbv zeta.
  cbn [PyStr.strip PyStr.lstrip PyStr.rstrip String.length Nat.ltb Nat.leb].
  unfold max_rows. cbn [ncols rows].
  replace (List.length inds =? 0) with false.
  2:{ symmetry. apply Nat.eqb_neq. unfold inds. rewrite length_seq.
      destruct (word_ids enc); [contradiction | discriminate]. }
  cbn [bind ret]. rewrite !map_map.
  fold (max_mask sigmoid inds (rows logits)).
  fold (selected_confidences sigmoid inds (rows logits)).
  rewrite !mask_rows_ok; [reflexivity | |];
    unfold max_mask, selected_confidences; rewrite !length_map; congruence.
Qed.

Lemma max_mask_of_some (sigmoid : Q -> Q) (row : list Q) (inds : list nat) (i : nat) :
  In i inds -> (CONF_THRESH_float32 < confidence sigmoid row i)%Q ->
  gt_thresh (fold_left Qmaxb (tl (map (confidence sigmoid row) inds))
                       (hd 0%Q (map (confidence sigmoid row) inds))) = true.
Proof.
  intros Hi Hgt. destruct inds as [| i0 inds]; [contradiction |].
  cbn [map hd tl]. apply gt_thresh_iff.
  destruct (fold_max_spec (map (confidence sigmoid row) inds)
                          (confidence sigmoid row i0)) as [_ Hub].
  apply Qlt_le_trans with (confidence sigmoid row i); [exact Hgt |].
  apply Hub. change (In (confidence sigmoid row i)
                        (map (confidence sigmoid row) (i0 :: inds))).
  now apply in_map.
Qed.

Lemma nth_mask_true {A : Type} (f : A -> bool) (l : list A) (k : nat) :
  nth k (map f l) false = true ->
  exists a, nth_error l k = Some a /\ f a = true.
Proof.
  intros H. destruct (nth_error l k) as [a |] eqn:E.
  - exists a. split; [reflexivity |]. now rewrite (nth_mask_row f l k a E) in H.
  - apply nth_error_None in E.
    rewrite nth_overflow in H by (now rewrite length_map). discriminate.
Qed.

Lemma select_rows_mono {A : Type} (xs : list A) (m m' : list bool) :
  List.length m = List.length xs -> List.length m' = List.length xs ->
  (forall k, nth k m false = true -> nth k m' false = true) ->
  incl (select_rows m xs) (select_rows m' xs)
  /\ List.length (select_rows m xs) <= List.length (select_rows m' xs).
Proof.
  revert m m'; induction xs as [| x xs IH]; intros [| b m] [| b' m'];
    try discriminate.
  - intros _ _ _. split; [intros a [] | apply Nat.le_refl].
  - intros H1 H2 H. rewrite !select_rows_cons.
    destruct (IH m m') as [Hi Hl];
      [now injection H1 | now injection H2 | intros k; apply (H (S k)) |].
    pose proof (H 0) as H0. simpl in H0.
    destruct b.
    + rewrite (H0 eq_refl). split; [| simpl; lia].
      apply incl_cons; [now left | now apply incl_tl].
    + destruct b'; split; try assumption; simpl; try lia.
      now apply incl_tl.
Qed.

(** X11. Keywords only narrow the result: on a well-formed model output
    whose logits have a column for every token, every box that the filter
    returns for a keyword spec that selects at least one token is also
    returned for the empty keyword spec (an instance kept by the keyword
    mask is kept by the maximum mask). *)
Theorem keywords_only_narrow :
  forall (sigmoid : Q -> Q) (mo : ModelOutput) (text keywords : string)
         (enc : Encoding) (logits : Tensor2) (boxes : list (list Q))
         (inds : list nat),
    nth_error (token mo) 0 = Some enc ->
    nth_error (pred_logits mo) 0 = Some logits ->
    nth_error (pred_boxes mo) 0 = Some boxes ->
    tensor_wf logits ->
    List.length (rows logits) = List.length boxes ->
    List.length (word_ids enc) <= ncols logits ->
    keywords <> EmptyString ->
    get_ind_to_filter text (word_ids enc) keywords = inr inds ->
    inds <> [] ->
    exists bs cs bs' cs',
      get_boxes_from_prediction sigmoid mo text keywords = inr (bs, cs)
      /\ get_boxes_from_prediction sigmoid mo text EmptyString = inr (bs', cs')
      /\ bs = select_rows (and_mask sigmoid inds (rows logits)) boxes
      /\ bs' = select_rows
                 (max_mask sigmoid (seq 0 (List.length (word_ids enc))) (rows logits))
                 boxes
      /\ (forall k, nth k (and_mask sigmoid inds (rows logits)) false = true ->
                    nth k (max_mask sigmoid (seq 0 (List.length (word_ids enc)))
                                    (rows logits)) false = true)
      /\ incl bs bs'
      /\ List.length bs <= List.length bs'.
Proof.
  intros sigmoid mo text keywords enc logits boxes inds
         Ht Hl Hb Hwf Hlen Hcols Hne Hi Hsel.
  destruct (get_ind_to_filter_inr_filter _ _ _ _ Hi) as [f Hf].
  assert (Hrange : forall i, In i inds -> In i (seq 0 (List.length (word_ids enc)))).
  { intros i Hin. rewrite Hf in Hin. now apply filter_In in Hin as [Hin _]. }
  assert (Hin : Forall (fun i => i < ncols logits) inds).
  { apply Forall_forall. intros i Hii. apply Hrange, in_seq in Hii. lia. }
  assert (Hwne : word_ids enc <> []).
  { destruct inds as [| i0 inds']; [contradiction |].
    specialize (Hrange i0 (or_introl eq_refl)). apply in_seq in Hrange.
    destruct (word_ids enc); [simpl in Hrange; lia | discriminate]. }
  assert (Himp : forall k,
             nth k (and_mask sigmoid inds (rows logits)) false = true ->
             nth k (max_mask sigmoid (seq 0 (List.length (word_ids enc)))
                             (rows logits)) false = true).
  { intros k Hk. unfold and_mask in Hk.
    apply nth_mask_true in Hk as [row [Hrow Hk]].
    unfold max_mask. rewrite (nth_mask_row _ _ _ _ Hrow).
    destruct inds as [| i0 inds']; [contradiction |].
    apply max_mask_of_some with (i := i0); [apply Hrange; now left |].
    apply (proj1 (count_mask_iff sigmoid row (i0 :: inds')) Hk). now left. }
  eexists _, _, _, _.
  split; [exact (get_boxes_from_prediction_with_keywords sigmoid mo text keywords
                   enc logits boxes inds Ht Hl Hb Hwf Hlen Hi Hin Hne) |].
  split; [exact (get_boxes_from_prediction_without_keywords sigmoid mo text
                   enc logits boxes Ht Hl Hb Hwf Hlen Hwne Hcols) |].
  split; [reflexivity |]. split; [reflexivity |]. split; [exact Himp |].
  apply select_rows_mono;
    [unfold and_mask | unfold max_mask | exact Himp];
    rewrite length_map; exact Hlen.
Qed.

Lemma keywords_only_narrow_witness :
  exists bs cs bs' cs',
    get_boxes_from_prediction rational_sigmoid red_car_output "a red car" "red"
    = inr (bs, cs)
    /\ get_boxes_from_prediction rational_sigmoid red_car_output "a red car"
         EmptyString = inr (bs', cs')
    /\ incl bs bs'.
Proof.
  destruct (keywords_only_narrow rational_sigmoid red_car_output
              "a red car" "red" red_car_encoding
              (mkTensor2 6 [[-3; -3; 2; -3; -3; -3]; [-3; -3; -3; 2; -3; -3]]%Q)
              [[1 # 4; 1 # 4; 1 # 10; 1 # 10]; [3 # 4; 3 # 4; 1 # 10; 1 # 10]]%Q
              [2])
    as [bs [cs [bs' [cs' [H1 [H2 [_ [_ [_ [H3 _]]]]]]]]]].
  - reflexivity.
  - reflexivity.
  - reflexivity.
  - repeat constructor.
  - reflexivity.
  - simpl. lia.
  - discriminate.
  - reflexivity.
  - discriminate.
  - exists bs, cs, bs', cs'. repeat split; assumption.
Defined.

(* ------------------------------------------------------------------ *)
(** ** Output label: counts below one and the role of the text *)

(** X12. A count of zero or less is treated as "no exemplars": the label is
    "Nothing specified to detect." for an empty or all-whitespace text and
    "Detected instances predicted with text." otherwise. *)
Theorem generate_output_label_no_exemplars :
  forall (text : string) (n : Z),
    (n <= 0)%Z ->
    generate_output_label text n =
    if all_space text then "Nothing specified to detect."%string
    else "Detected instances predicted with text."%string.
Proof.
  intros text n Hn. rewrite generate_output_label_cases.
  replace (n =? 1)%Z with false by (symmetry; apply Z.eqb_neq; lia).
  replace (1 <? n)%Z with false by (symmetry; apply Z.ltb_ge; lia).
  reflexivity.
Qed.

Lemma generate_output_label_no_exemplars_witness :
  generate_output_label "  " (-2) = "Nothing specified to detect."%string.
Proof.
  rewrite (generate_output_label_no_exemplars "  " (-2)); [reflexivity | lia].
Defined.

(** X13. The label depends on the text only through whether it is empty or
    all whitespace: two texts that agree on that get the same label for
    every count, so no part of the text ever appears in the label. *)
Theorem generate_output_label_text_blind :
  forall (text1 text2 : string) (n : Z),
    all_space text1 = all_space text2 ->
    generate_output_label text1 n = generate_output_label text2 n.
Proof.
  intros text1 text2 n H. rewrite !generate_output_label_cases.
  unfold label_prefix. now rewrite H.
Qed.

Lemma generate_output_label_text_blind_witness :
  generate_output_label "apple" 3 = generate_output_label "a red car" 3.
Proof.
  apply generate_output_label_text_blind. reflexivity.
Defined.

(* ------------------------------------------------------------------ *)
(** ** Heat map: indices outside the unit square *)

Lemma centres_of_general (h w : Z) (boxes : list (list Q)) :
  centres_of h w boxes =
  if forallb (fun box => 2 <=? List.length box) boxes
  then inr (map (centre_pixel h w) boxes)
  else inl IndexError.
Proof.
  induction boxes as [| box boxes IH]; [reflexivity |].
  cbn [centres_of forallb map].
  destruct box as [| x [| y rest]]; try reflexivity.
  cbn [getitem nth_error bind ret List.length Nat.leb andb]. rewrite IH.
  destruct (forallb _ boxes); reflexivity.
Qed.

Lemma axis_index_cases (n i : Z) :
  ((- n <=? i) && (i <? n) = true)%Z /\
  (exists j, axis_index n i = inr j /\ j < Z.to_nat n)
  \/ ((- n <=? i) && (i <? n) = false)%Z /\ axis_index n i = inl IndexError.
Proof.
  unfold axis_index.
  destruct (Z.leb_spec 0 i), (Z.ltb_spec i n), (Z.leb_spec (- n) i),
    (Z.ltb_spec i 0); cbn [andb]; try lia;
    try (right; split; reflexivity);
    left; (split; [reflexivity |]); eexists; (split; [reflexivity | lia]).
Qed.

Lemma set_impulses_general (h w : Z) (centres : list (Z * Z)) :
  forall grid,
    (forallb (pixel_in_grid h w) centres = true
     /\ exists grid', set_impulses h w grid centres = inr grid')
    \/ (forallb (pixel_in_grid h w) centres = false
        /\ set_impulses h w grid centres = inl IndexError).
Proof.
  induction centres as [| [r c] centres IH]; intros grid.
  - left. split; [reflexivity | now exists grid].
  - cbn [set_impulses forallb].
    assert (E : pixel_in_grid h w (r, c) =
                ((- h <=? r) && (r <? h) && ((- w <=? c) && (c <? w)))%Z)
      by reflexivity.
    rewrite E. clear E.
    destruct (axis_index_cases h r) as [[-> [r' [-> _]]] | [-> ->]];
      [| right; split; reflexivity].
    destruct (axis_index_cases w c) as [[-> [c' [-> _]]] | [-> ->]];
      [| right; split; reflexivity].
    cbn [bind andb]. apply IH.
Qed.

Lemma set_impulses_keeps_dims (h w : Z) (centres : list (Z * Z)) :
  forall grid grid',
    grid_dims (Z.to_nat h) (Z.to_nat w) grid ->
    set_impulses h w grid centres = inr grid' ->
    grid_dims (Z.to_nat h) (Z.to_nat w) grid'
    /\ forall r c, entry grid' r c = entry grid r c \/ entry grid' r c = 1%Q.
Proof.
  induction centres as [| [r0 c0] centres IH]; intros grid grid' Hg H.
  - injection H as <-. split; [exact Hg | now left].
  - cbn [set_impulses] in H.
    destruct (axis_index_cases h r0) as [[_ [r' [Er Hr]]] | [_ Er]];
      rewrite Er in H; [| discriminate].
    destruct (axis_index_cases w c0) as [[_ [c' [Ec Hc]]] | [_ Ec]];
      rewrite Ec in H; [| discriminate].
    cbn [bind] in H.
    destruct (IH _ _ (set2_dims _ _ grid r' c' 1%Q Hg Hr) H) as [Hd He].
    split; [exact Hd |]. intros r c.
    destruct (He r c) as [E | E]; [| now right].
    rewrite E, (set2_entry _ _ _ _ _ _ _ _ Hg Hr Hc).
    destruct ((r =? r') && (c =? c')); [now right | now left].
Qed.

Lemma forallb_andb {A : Type} (f g : A -> bool) (l : list A) :
  forallb (fun x => f x && g x) l = forallb f l && forallb g l.
Proof.
  induction l as [| a l IH]; [reflexivity |]. simpl. rewrite IH.
  destruct (f a), (g a), (forallb f l); reflexivity.
Qed.

Lemma forallb_map {A B : Type} (f : B -> bool) (g : A -> B) (l : list A) :
  forallb f (map g l) = forallb (fun x => f (g x)) l.
Proof. induction l as [| a l IH]; simpl; congruence. Qed.

Lemma det_map_impulses_cases (w h : Z) (boxes : list (list Q)) :
  (forallb (box_in_grid h w) boxes = true
   /\ exists det_map, det_map_impulses w h boxes = inr det_map)
  \/ (forallb (box_in_grid h w) boxes = false
      /\ det_map_impulses w h boxes = inl IndexError).
Proof.
  unfold det_map_impulses, box_in_grid.
  rewrite forallb_andb, centres_of_general.
  destruct (forallb (fun box => 2 <=? List.length box) boxes);
    [| right; split; reflexivity].
  cbn [bind andb]. rewrite <- forallb_map.
  apply set_impulses_general.
Qed.

(** X14. [generate_heatmap] can build its grid exactly when every box has at
    least two entries and its centre pixel is an index pair that numpy
    accepts (row in [[-h, h)], column in [[-w, w)], negative ones counting
    from the end); in every other case the grid step raises [IndexError]. *)
Theorem det_map_impulses_succeeds_iff :
  forall (w h : Z) (boxes : list (list Q)),
    (forallb (box_in_grid h w) boxes = true <->
     exists det_map, det_map_impulses w h boxes = inr det_map)
    /\ (forallb (box_in_grid h w) boxes = false <->
        det_map_impulses w h boxes = inl IndexError).
Proof.
  intros w h boxes.
  destruct (det_map_impulses_cases w h boxes) as [[E [g Hg]] | [E Hg]];
    rewrite E, Hg; split; split; try discriminate; eauto.
  - intros [g' C]. discriminate.
Qed.

(** X15. Whenever the grid is built it has [h] rows of [w] entries and every
    entry is 0 or 1: impulses are set, not added, so boxes that fall into the
    same pixel count once. *)
Theorem det_map_impulses_binary :
  forall (w h : Z) (boxes : list (list Q)) (det_map : list (list Q)),
    det_map_impulses w h boxes = inr det_map ->
    grid_dims (Z.to_nat h) (Z.to_nat w) det_map
    /\ forall r c, entry det_map r c = 0%Q \/ entry det_map r c = 1%Q.
Proof.
  intros w h boxes det_map H. unfold det_map_impulses in H.
  apply bind_inr in H as [centres [_ H]].
  destruct (set_impulses_keeps_dims h w centres _ _ (zeros_dims h w) H) as [Hd He].
  split; [exact Hd |]. intros r c.
  destruct (He r c) as [E | E]; [left | now right].
  now rewrite E, zeros_entry.
Qed.

Lemma det_map_impulses_binary_witness :
  grid_dims 2 3 [[0; 0; 1]; [0; 0; 0]]%Q
  /\ forall r c, entry [[0; 0; 1]; [0; 0; 0]]%Q r c = 0%Q
                 \/ entry [[0; 0; 1]; [0; 0; 0]]%Q r c = 1%Q.
Proof.
  apply (det_map_impulses_binary 3 2
           [[9 # 10; 1 # 10; 1 # 5; 1 # 5]; [5 # 6; 1 # 4; 1 # 5; 1 # 5]]%Q).
  reflexivity.
Defined.

Lemma grid_ext (H W : nat) (g1 g2 : list (list Q)) :
  grid_dims H W g1 -> grid_dims H W g2 ->
  (forall r c, entry g1 r c = entry g2 r c) -> g1 = g2.
Proof.
  intros Hg1 Hg2 He.
  apply (nth_ext g1 g2 [] []); [destruct Hg1, Hg2; congruence |].
  intros r Hr. assert (Hr' : r < H) by (destruct Hg1; lia).
  apply (nth_ext _ _ 0%Q 0%Q).
  - now rewrite (grid_row_length _ _ _ _ Hg1 Hr'), (grid_row_length _ _ _ _ Hg2 Hr').
  - intros c _. apply He.
Qed.

Lemma axis_index_inr (n i : Z) (j : nat) :
  axis_index n i = inr j -> j = wrap_index n i /\ j < Z.to_nat n.
Proof.
  unfold axis_index, wrap_index.
  destruct (Z.leb_spec 0 i), (Z.ltb_spec i n), (Z.leb_spec (- n) i),
    (Z.ltb_spec i 0); cbn [andb ret raise]; intros E;
    try discriminate; injection E as <-; split; lia.
Qed.

(** The grid after the assignment is 1 at the addressed pixels and as
    before elsewhere. *)
Lemma set_impulses_entries (h w : Z) (centres : list (Z * Z)) :
  forall grid grid',
    grid_dims (Z.to_nat h) (Z.to_nat w) grid ->
    set_impulses h w grid centres = inr grid' ->
    forall r c, entry grid' r c =
                if is_wrapped_centre h w centres r c then 1%Q else entry grid r c.
Proof.
  induction centres as [| [r0 c0] centres IH]; intros grid grid' Hg H r c.
  - injection H as <-. reflexivity.
  - cbn [set_impulses] in H.
    apply bind_inr in H as [r' [Er H]].
    apply bind_inr in H as [c' [Ec H]].
    apply axis_index_inr in Er as [-> Hr], Ec as [-> Hc].
    rewrite (IH _ _ (set2_dims _ _ grid _ _ 1%Q Hg Hr) H r c).
    rewrite (set2_entry _ _ _ _ _ _ _ _ Hg Hr Hc).
    unfold is_wrapped_centre. cbn [existsb fst snd].
    destruct (existsb _ centres).
    + rewrite orb_true_r. reflexivity.
    + rewrite orb_false_r. reflexivity.
Qed.

Lemma forallb_same_members {A : Type} (f : A -> bool) (l l' : list A) :
  (forall x, In x l <-> In x l') -> forallb f l = forallb f l'.
Proof.
  intros H.
  destruct (forallb f l) eqn:E, (forallb f l') eqn:E'; try reflexivity.
  - rewrite forallb_forall in E.
    assert (C : forallb f l' = true)
      by (apply forallb_forall; intros x Hx; now apply E, H).
    congruence.
  - rewrite forallb_forall in E'.
    assert (C : forallb f l = true)
      by (apply forallb_forall; intros x Hx; now apply E', H).
    congruence.
Qed.

Lemma existsb_same_members {A : Type} (f : A -> bool) (l l' : list A) :
  (forall x, In x l <-> In x l') -> existsb f l = existsb f l'.
Proof.
  intros H.
  destruct (existsb f l) eqn:E, (existsb f l') eqn:E'; try reflexivity.
  - apply existsb_exists in E as [x [Hx Hf]].
    assert (C : existsb f l' = true)
      by (apply existsb_exists; exists x; split; [now apply H | exact Hf]).
    congruence.
  - apply existsb_exists in E' as [x [Hx Hf]].
    assert (C : existsb f l = true)
      by (apply existsb_exists; exists x; split; [now apply H | exact Hf]).
    congruence.
Qed.

(** A grid that was built is determined by the pixels of the boxes. *)
Lemma det_map_impulses_entries (w h : Z) (boxes : list (list Q))
    (det_map : list (list Q)) :
  det_map_impulses w h boxes = inr det_map ->
  grid_dims (Z.to_nat h) (Z.to_nat w) det_map
  /\ forall r c,
      entry det_map r c =
      if is_wrapped_centre h w (map (centre_pixel h w) boxes) r c
      then 1%Q else 0%Q.
Proof.
  intros H. unfold det_map_impulses in H.
  rewrite centres_of_general in H.
  destruct (forallb (fun box => 2 <=? List.length box) boxes);
    [| discriminate].
  cbn [bind] in H.
  split.
  - exact (proj1 (set_impulses_keeps_dims h w _ _ _ (zeros_dims h w) H)).
  - intros r c.
    rewrite (set_impulses_entries h w _ _ _ (zeros_dims h w) H r c).
    now rewrite zeros_entry.
Qed.

(** X16. For centres in the unit square the grid depends only on which boxes
    are given, not on their order or on how often each occurs: two box lists
    with the same members give the same grid. *)
Theorem det_map_impulses_same_boxes :
  forall (w h : Z) (boxes boxes' : list (list Q)),
    (0 < w)%Z -> (0 < h)%Z ->
    Forall centre_in_unit_square boxes ->
    (forall box, In box boxes <-> In box boxes') ->
    det_map_impulses w h boxes = det_map_impulses w h boxes'.
Proof.
  intros w h boxes boxes' _ _ _ Hsame.
  assert (Hpix : forall rc,
             In rc (map (centre_pixel h w) boxes)
             <-> In rc (map (centre_pixel h w) boxes')).
  { intros rc. rewrite !in_map_iff.
    split; intros [box [E Hbox]]; exists box; (split; [exact E |]);
      now apply Hsame. }
  pose proof (forallb_same_members (box_in_grid h w) boxes boxes' Hsame) as Hin.
  destruct (det_map_impulses_cases w h boxes) as [[E [g Hg]] | [E Hg]];
    destruct (det_map_impulses_cases w h boxes') as [[E' [g' Hg']] | [E' Hg']];
    try congruence.
  rewrite Hg, Hg'. f_equal.
  destruct (det_map_impulses_entries _ _ _ _ Hg) as [Hd He].
  destruct (det_map_impulses_entries _ _ _ _ Hg') as [Hd' He'].
  apply (grid_ext _ _ _ _ Hd Hd'). intros r c.
  rewrite He, He'. unfold is_wrapped_centre.
  now rewrite (existsb_same_members _ _ _ Hpix).
Qed.

Lemma det_map_impulses_same_boxes_witness :
  det_map_impulses 3 2 [[9 # 10; 1 # 10]; [1 # 10; 9 # 10]]%Q =
  det_map_impulses 3 2 [[1 # 10; 9 # 10]; [9 # 10; 1 # 10]; [1 # 10; 9 # 10]]%Q.
Proof.
  apply det_map_impulses_same_boxes.
  - reflexivity.
  - reflexivity.
  - repeat constructor.
    + exists (9 # 10)%Q, (1 # 10)%Q, []. repeat split; discriminate.
    + exists (1 # 10)%Q, (9 # 10)%Q, []. repeat split; discriminate.
  - intros box. simpl. tauto.
Defined.

(** X17. The sigma handed to the Gaussian filter is the number of whole
    200-pixel units in the image width, on both axes and whatever the height
    is: images narrower than 200 pixels get sigma 0, widths from 200 to 399
    get 1, and so on. *)
Theorem det_map_density_sigma_band :
  forall (Image : Type) (size : Image -> Z * Z)
         (gaussian_filter : list (list Q) -> Z * Z -> list (list Q))
         (image : Image) (w h k : Z) (boxes det_map : list (list Q)),
    size image = (w, h) ->
    (200 * k <= w < 200 * (k + 1))%Z ->
    det_map_impulses w h boxes = inr det_map ->
    det_map_density Image size gaussian_filter image boxes =
    inr (gaussian_filter det_map (k, k)).
Proof.
  intros Image size gaussian_filter image w h k boxes det_map Hs Hk Hd.
  unfold det_map_density. rewrite Hs, Hd. cbn [bind ret]. unfold heatmap_sigma.
  assert (E : (w / 200 = k)%Z).
  { symmetry. apply (Z.div_unique w 200 k (w - 200 * k)); lia. }
  now rewrite E.
Qed.

Lemma det_map_density_sigma_band_witness :
  det_map_density unit (fun _ => (150, 2)%Z) sigma_probe tt [] = inr [[0; 0]%Q].
Proof.
  apply (det_map_density_sigma_band unit (fun _ => (150, 2)%Z) sigma_probe tt
           150 2 0 [] (zeros 2 150)).
  - reflexivity.
  - lia.
  - reflexivity.
Defined.

(* ------------------------------------------------------------------ *)
(** ** Inference driver: prompts, kept instances and failures *)

Lemma filter_idempotent {A : Type} (f : A -> bool) (l : list A) :
  filter f (filter f l) = filter f l.
Proof.
  induction l as [| a l IH]; [reflexivity |]. simpl.
  destruct (f a) eqn:E; simpl; [rewrite E; f_equal |]; exact IH.
Qed.

(** X18. Point prompts have no effect on a prediction: [predict] gives the
    same result when the prompts that are not boxes (flags other than
    (2.0, 3.0)) are removed from the list. *)
Theorem predict_ignores_point_prompts :
  forall (sigmoid : Q -> Q) (Image ImageTensor Device : Type)
         (model : Model ImageTensor Device) (transform : Transform Image ImageTensor)
         (image img : Image) (text : string) (ps : list prompt6) (device : Device),
    predict sigmoid model transform image text
            (Some (mkPrompts img (map prompt_of ps))) device =
    predict sigmoid model transform image text
            (Some (mkPrompts img (map prompt_of (filter is_box_prompt ps)))) device.
Proof.
  intros. unfold predict, preprocess, get_box_inputs.
  cbn [prompts_points prompts_image].
  now rewrite !get_box_inputs_loop_tuples, filter_idempotent.
Qed.

(** X19. When the preprocessing and the model succeed and the model output
    is well formed with at least one token, [predict] returns exactly the
    instances for which some token, special tokens included, has a
    confidence above the threshold as it is compared with float32 numbers
    (0.23 converted to float32), each with its confidences for all tokens. *)
Theorem predict_keeps_confident_instances :
  forall (sigmoid : Q -> Q) (Image ImageTensor Device : Type)
         (model : Model ImageTensor Device) (transform : Transform Image ImageTensor)
         (image : Image) (text : string) (prompts : option (Prompts Image))
         (device : Device) input_image input_image_exemplar exemplar
         (mo : ModelOutput) (enc : Encoding) (logits : Tensor2)
         (boxes : list (list Q)),
    preprocess transform image prompts =
    inr (input_image, input_image_exemplar, exemplar) ->
    model device input_image input_image_exemplar [exemplar]
          [String.append text " ."] = inr mo ->
    nth_error (token mo) 0 = Some enc ->
    nth_error (pred_logits mo) 0 = Some logits ->
    nth_error (pred_boxes mo) 0 = Some boxes ->
    tensor_wf logits ->
    List.length (rows logits) = List.length boxes ->
    word_ids enc <> [] ->
    List.length (word_ids enc) <= ncols logits ->
    let inds := seq 0 (List.length (word_ids enc)) in
    let mask := max_mask sigmoid inds (rows logits) in
    predict sigmoid model transform image text prompts device =
    inr (select_rows mask boxes,
         select_rows mask (selected_confidences sigmoid inds (rows logits)))
    /\ forall k row,
        nth_error (rows logits) k = Some row ->
        (nth k mask false = true <->
         exists i, i < List.length (word_ids enc)
                   /\ (CONF_THRESH_float32 < confidence sigmoid row i)%Q).
Proof.
  intros sigmoid Image ImageTensor Device model transform image text prompts
         device a b c mo enc logits boxes Hp Hm Ht Hl Hb Hwf Hlen Hne Hcols
         inds mask.
  split.
  - unfold predict. rewrite Hp. cbn [bind]. rewrite Hm. cbn [bind].
    now apply get_boxes_from_prediction_without_keywords with (enc := enc).
  - intros k row Hrow. unfold mask, max_mask.
    rewrite (nth_mask_row _ _ _ _ Hrow). split.
    + intros H.
      apply (max_mask_iff sigmoid row inds) in H as [i [Hi [Hgt _]]].
      * exists i. split; [apply in_seq in Hi; lia | exact Hgt].
      * unfold inds. destruct (word_ids enc); [contradiction | discriminate].
    + intros [i [Hi Hgt]]. apply max_mask_of_some with (i := i); [| exact Hgt].
      apply in_seq. lia.
Qed.

Lemma predict_keeps_confident_instances_witness :
  predict rational_sigmoid constant_model identity_transform tt "a red car" None tt =
  inr (select_rows (max_mask rational_sigmoid (seq 0 6) (rows (mkTensor2 6
         [[-3; -3; 2; -3; -3; -3]; [-3; -3; -3; 2; -3; -3]]%Q)))
         [[1 # 4; 1 # 4; 1 # 10; 1 # 10]; [3 # 4; 3 # 4; 1 # 10; 1 # 10]]%Q,
       select_rows (max_mask rational_sigmoid (seq 0 6) (rows (mkTensor2 6
         [[-3; -3; 2; -3; -3; -3]; [-3; -3; -3; 2; -3; -3]]%Q)))
         (selected_confidences rational_sigmoid (seq 0 6) (rows (mkTensor2 6
         [[-3; -3; 2; -3; -3; -3]; [-3; -3; -3; 2; -3; -3]]%Q)))).
Proof.
  destruct (predict_keeps_confident_instances rational_sigmoid unit unit unit
              constant_model identity_transform tt "a red car" None tt
              tt tt [] red_car_output red_car_encoding
              (mkTensor2 6 [[-3; -3; 2; -3; -3; -3]; [-3; -3; -3; 2; -3; -3]]%Q)
              [[1 # 4; 1 # 4; 1 # 10; 1 # 10]; [3 # 4; 3 # 4; 1 # 10; 1 # 10]]%Q)
    as [H _].
  - reflexivity.
  - reflexivity.
  - reflexivity.
  - reflexivity.
  - reflexivity.
  - repeat constructor.
  - reflexivity.
  - discriminate.
  - simpl. lia.
  - exact H.
Defined.

(** X20. Once the preprocessing and the model have succeeded, [predict] can
    only fail with [IndexError]: the keyword exception of the token filter is
    out of reach because the keyword spec is always empty. *)
Theorem predict_fails_with_index_error :
  forall (sigmoid : Q -> Q) (Image ImageTensor Device : Type)
         (model : Model ImageTensor Device) (transform : Transform Image ImageTensor)
         (image : Image) (text : string) (prompts : option (Prompts Image))
         (device : Device) input_image input_image_exemplar exemplar
         (mo : ModelOutput) (e : exn),
    preprocess transform image prompts =
    inr (input_image, input_image_exemplar, exemplar) ->
    model device input_image input_image_exemplar [exemplar]
          [String.append text " ."] = inr mo ->
    predict sigmoid model transform image text prompts device = inl e ->
    e = IndexError.
Proof.
  intros sigmoid Image ImageTensor Device model transform image text prompts
         device a b c mo e Hp Hm H.
  unfold predict in H. rewrite Hp in H. cbn [bind] in H.
  rewrite Hm in H. cbn [bind] in H.
  apply get_boxes_from_prediction_inl in H as [H | [enc [_ H]]]; [exact H |].
  discriminate H.
Qed.

Lemma predict_fails_with_index_error_witness :
  IndexError = IndexError.
Proof.
  apply (predict_fails_with_index_error rational_sigmoid unit unit unit
           (fun _ _ _ _ _ => ret (mkModelOutput [] [] []))
           identity_transform tt "a red car" None tt tt tt []
           (mkModelOutput [] [] []) IndexError); reflexivity.
Defined.

(* ------------------------------------------------------------------ *)
(** ** Model set-up: merging the configuration into the options *)

Section ConfigMergeProperties.

Variable Value : Type.

Lemma has_attr_In (args : Namespace Value) (k : string) :
  has_attr args k = true <-> In k (map fst args).
Proof.
  unfold has_attr. rewrite existsb_exists, in_map_iff. split.
  - intros [kv [HIn E]]. apply String.eqb_eq in E. eauto.
  - intros [kv [E HIn]]. exists kv. split; [exact HIn |].
    now apply String.eqb_eq.
Qed.

Lemma has_attr_app (a b : Namespace Value) (k : string) :
  has_attr (a ++ b) k = has_attr a k || has_attr b k.
Proof. unfold has_attr. apply existsb_app. Qed.

Lemma setattr_new (args : Namespace Value) (k : string) (v : Value) :
  has_attr args k = false -> setattr args k v = args ++ [(k, v)].
Proof.
  induction args as [| [k' v'] args IH]; [reflexivity |].
  unfold has_attr. cbn [existsb fst setattr app].
  destruct (String.eqb k' k); [discriminate |].
  intros H. f_equal. now apply IH.
Qed.

Lemma get_attr_app_l (a b : Namespace Value) (k : string) (v : Value) :
  get_attr a k = Some v -> get_attr (a ++ b) k = Some v.
Proof.
  induction a as [| [k' v'] a IH]; [discriminate |]. simpl.
  destruct (String.eqb k' k); [auto | exact IH].
Qed.

Lemma merge_cfg_inr (cfg_items : list (string * Value)) :
  forall args args',
    merge_cfg cfg_items args = inr args' <->
    (NoDup (map fst cfg_items)
     /\ (forall k, In k (map fst cfg_items) -> has_attr args k = false)
     /\ args' = args ++ cfg_items).
Proof.
  induction cfg_items as [| [k v] rest IH]; intros args args'.
  - simpl. rewrite app_nil_r. split.
    + intros H. injection H as <-. repeat split; [constructor | intros k []].
    + intros [_ [_ ->]]. reflexivity.
  - cbn [merge_cfg map fst]. destruct (has_attr args k) eqn:Hk; cbn [negb].
    + split; [discriminate |]. intros [_ [H _]].
      rewrite (H k (or_introl eq_refl)) in Hk. discriminate.
    + rewrite (setattr_new _ _ v Hk), IH, <- app_assoc. cbn [app]. split.
      * intros [Hnd [Hfresh ->]]. split; [| split; [| reflexivity]].
        -- constructor; [| exact Hnd]. intros HIn.
           specialize (Hfresh k HIn). rewrite has_attr_app in Hfresh.
           unfold has_attr at 2 in Hfresh. cbn [existsb fst] in Hfresh.
           rewrite String.eqb_refl, orb_true_r in Hfresh. discriminate.
        -- intros k' [<- | HIn]; [exact Hk |].
           specialize (Hfresh k' HIn). rewrite has_attr_app in Hfresh.
           now apply orb_false_iff in Hfresh.
      * intros [Hnd [Hfresh ->]]. apply NoDup_cons_iff in Hnd as [Hnk Hnd].
        split; [exact Hnd |]. split; [| reflexivity].
        intros k' HIn. rewrite has_attr_app, (Hfresh k' (or_intror HIn)).
        unfold has_attr. cbn [existsb fst orb].
        rewrite orb_false_r. apply String.eqb_neq. intros ->. contradiction.
Qed.

(** X21. The configuration loop succeeds exactly when no configuration key
    is already an option of the namespace (and the keys are distinct, as
    dictionary keys are); the namespace is then the old options, unchanged
    and in their order, followed by the configuration items. *)
Theorem merge_cfg_succeeds_iff :
  forall (cfg_items : list (string * Value)) (args args' : Namespace Value),
    (merge_cfg cfg_items args = inr args' <->
     (NoDup (map fst cfg_items)
      /\ (forall k, In k (map fst cfg_items) -> has_attr args k = false)
      /\ args' = args ++ cfg_items))
    /\ (merge_cfg cfg_items args = inr args' ->
        forall k v, get_attr args k = Some v -> get_attr args' k = Some v).
Proof.
  intros cfg_items args args'. split; [apply merge_cfg_inr |].
  intros H k v Hk. apply merge_cfg_inr in H as [_ [_ ->]].
  now apply get_attr_app_l.
Qed.

(** X22. When the configuration loop fails, the [ValueError] names the first
    configuration key, in the order of the items, that is already an option
    at that point; the items before it had been merged.  With distinct
    configuration keys that key is an option of the original namespace. *)
Theorem merge_cfg_reports_first_collision :
  forall (cfg_items : list (string * Value)) (args : Namespace Value)
         (e : config_exn),
    merge_cfg cfg_items args = inl e ->
    exists pre k v post,
      cfg_items = pre ++ (k, v) :: post
      /\ merge_cfg pre args = inr (args ++ pre)
      /\ has_attr (args ++ pre) k = true
      /\ e = ConfigValueError (collision_message k)
      /\ (NoDup (map fst cfg_items) -> has_attr args k = true).
Proof.
  intros cfg_items; induction cfg_items as [| [k v] rest IH]; intros args e H;
    [discriminate |].
  cbn [merge_cfg] in H. destruct (has_attr args k) eqn:Hk; cbn [negb] in H.
  - injection H as <-. exists [], k, v, rest. rewrite app_nil_r.
    repeat split; auto.
  - rewrite (setattr_new _ _ v Hk) in H.
    destruct (IH _ _ H) as [pre [k' [v' [post [-> [Hm [Hc [-> Hnd]]]]]]]].
    exists ((k, v) :: pre), k', v', post.
    rewrite <- app_assoc in Hm, Hc. cbn [app] in Hm, Hc.
    split; [reflexivity |]. split.
    { cbn [merge_cfg]. rewrite Hk. cbn [negb]. now rewrite (setattr_new _ _ v Hk). }
    split; [exact Hc |]. split; [reflexivity |].
    intros Hnd'. cbn [map fst app] in Hnd'.
    apply NoDup_cons_iff in Hnd' as [Hnk Hnd'].
    specialize (Hnd Hnd'). rewrite has_attr_app in Hnd.
    apply orb_true_iff in Hnd as [Hnd | Hnd]; [exact Hnd |].
    exfalso. unfold has_attr in Hnd. cbn [existsb fst] in Hnd.
    rewrite orb_false_r in Hnd. apply String.eqb_eq in Hnd. subst k'.
    apply Hnk. rewrite map_app. apply in_or_app. right. now left.
Qed.

End ConfigMergeProperties.

Lemma merge_cfg_succeeds_iff_witness :
  get_attr [("device", "cuda"); ("modelname", "groundingdino")]%string "device"
  = Some "cuda"%string.
Proof.
  destruct (merge_cfg_succeeds_iff string
              [("modelname", "groundingdino")]%string
              [("device", "cuda")]%string
              [("device", "cuda"); ("modelname", "groundingdino")]%string)
    as [_ H].
  apply H; reflexivity.
Defined.

Lemma merge_cfg_reports_first_collision_witness :
  exists pre k v post,
    [("modelname", "groundingdino"); ("device", "cpu"); ("amp", "1")]%string
    = pre ++ (k, v) :: post
    /\ has_attr ([("device", "cuda"); ("amp", "0")]%string ++ pre) k = true
    /\ ConfigValueError "Key device can used by args only"
       = ConfigValueError (collision_message k).
Proof.
  destruct (merge_cfg_reports_first_collision string
              [("modelname", "groundingdino"); ("device", "cpu"); ("amp", "1")]%string
              [("device", "cuda"); ("amp", "0")]%string
              (ConfigValueError "Key device can used by args only"))
    as [pre [k [v [post [H1 [_ [H2 [H3 _]]]]]]]].
  - reflexivity.
  - exists pre, k, v, post. repeat split; assumption.
Defined.
